(** * MARS voice assistant: audio pipeline and model session

    A shallow embedding of the audio/session core of the MARS front end:

    - [PCM]      the sample conversions of [LiveKitService.startAudioCapture]
                 (Float32 to PCM16) and [LiveKitService.playAudio] (PCM16 to
                 Float32), src/services/livekit.ts;
    - [VAD]      the [onaudioprocess] handler of [startAudioCapture]: RMS
                 voice-activity detection and frame forwarding;
    - [Playback] [playAudio], [interruptAudio] and the [onended] handler;
    - [Gemini]   [GeminiService] (src/services/gemini.ts): the WebSocket
                 session, [handleMessage], [handleFunctionCall], the send
                 operations, and the frame callback of the index page;
    - [Session]  the service in the event loop: [connect], [disconnect], the
                 socket events and the resumption of suspended calls;
    - [LiveKit]  [LiveKitService.disconnect] and the voice-activity callback
                 of the index page, which joins capture and playback;
    - [Router]   [routeFunctionCall] with its handlers
                 (src/services/functionRouter.ts) and the function handler
                 the index page registers around it.

    Numbers.  A finite Float32/Float64 value is a dyadic rational, so samples
    and clock readings are modelled in [Q].  The products of the encoder are
    exact in binary64 for Float32 inputs (a 24-bit significand times a 15 or
    16-bit constant needs at most 40 bits), so the encoder is modelled with
    exact rational arithmetic.  The decoder divides by 32767 and stores the
    quotient in a Float32Array, which rounds twice; it is modelled with the
    IEEE 754 operations of [SpecFloat] (binary64 division followed by
    rounding to binary32). *)

From Stdlib Require Import ZArith QArith Qminmax Qabs Qround.
From Stdlib Require Import List Bool String Ascii Lia Lqa.
From Stdlib Require Import SpecFloat.
Import ListNotations.

(* ================================================================== *)
(** * Sample converter *)
(* ================================================================== *)

Module PCM.

Local Open Scope Q_scope.

(** ** Capture side: Float32 to PCM16 *)

(** [Math.max(-1, Math.min(1, x))] *)
Definition clamp (x : Q) : Q := Qmax (-1) (Qmin 1 x).

(** [s < 0 ? s * 0x8000 : s * 0x7FFF] *)
Definition scale (s : Q) : Q :=
  if Qlt_le_dec s 0 then s * 32768 else s * 32767.

(** Truncation toward zero, the first step of storing a Number into an
    integer typed array. *)
Definition trunc (q : Q) : Z := Z.quot (Qnum q) (Zpos (Qden q)).

(** Storing into an [Int16Array] (ECMAScript ToInt16): truncate, reduce
    modulo 2^16, and read the 16 bits as a signed integer. *)
Definition ToInt16 (q : Q) : Z :=
  let int16bit := ((trunc q) mod 65536)%Z in
  if (int16bit >=? 32768)%Z then (int16bit - 65536)%Z else int16bit.

(** Body of the conversion loop: [pcm16[i] = s < 0 ? s * 0x8000 : s * 0x7FFF]
    with [s = Math.max(-1, Math.min(1, inputData[i]))]. *)
Definition floatToPCM16_sample (x : Q) : Z := ToInt16 (scale (clamp x)).

(** The loop over [inputData]; the result is the [Int16Array] whose buffer is
    handed to the audio callback. *)
Definition floatToPCM16 (inputData : list Q) : list Z :=
  map floatToPCM16_sample inputData.

(** ** Playback side: PCM16 to Float32 *)

(** An [Int16Array] element read as a Number: exact in binary64. *)
Definition int16_to_double (n : Z) : spec_float :=
  binary_normalize 53 1024 n 0 false.

(** Storing a Number into a [Float32Array]: rounding to binary32. *)
Definition fround (x : spec_float) : spec_float :=
  match x with
  | S754_finite s m e => binary_round 24 128 s m e
  | _ => x
  end.

(** [float32[i] = pcm16[i] / (pcm16[i] < 0 ? 0x8000 : 0x7FFF)] *)
Definition pcm16ToFloat_sample (n : Z) : spec_float :=
  fround (SFdiv 53 1024 (int16_to_double n)
            (int16_to_double (if (n <? 0)%Z then 32768 else 32767))).

Definition pcm16ToFloat (pcm16 : list Z) : list spec_float :=
  map pcm16ToFloat_sample pcm16.

(** The rational denoted by a finite float (zero for the other classes, which
    the decoder never produces, see [pcm16ToFloat_sample_finite]). *)
Definition SF2Q (x : spec_float) : Q :=
  match x with
  | S754_finite s m e =>
      let v := match e with
               | Z0 => inject_Z (Zpos m)
               | Zpos p => inject_Z (Zpos m * 2 ^ Zpos p)
               | Zneg p => Zpos m # (2 ^ p)
               end in
      if s then - v else v
  | _ => 0
  end.

Definition is_finite (x : spec_float) : bool :=
  match x with
  | S754_finite _ _ _ | S754_zero _ => true
  | _ => false
  end.

(** The quotient the decoder aims at, before any rounding. *)
Definition exact_quotient (n : Z) : Q :=
  if (n <? 0)%Z then n # 32768 else n # 32767.

(** The quantization step of the scale in use for a sample. *)
Definition quantization_step (x : Q) : Q :=
  if Qlt_le_dec x 0 then 1 # 32768 else 1 # 32767.

(** Half a unit in the last place of a binary32 value of magnitude at most 1. *)
Definition half_ulp32 : Q := 1 # 33554432.

(** Decoder check over a block of consecutive Int16 values, used to examine
    all 65536 of them. *)
Definition decode_close (n : Z) : bool :=
  let d := pcm16ToFloat_sample n in
  is_finite d && Qle_bool (Qabs (SF2Q d - exact_quotient n)) half_ulp32.

Fixpoint decode_close_from (count : nat) (n : Z) : bool :=
  match count with
  | O => true
  | S c => decode_close n && decode_close_from c (n + 1)
  end.

End PCM.

(* ================================================================== *)
(** * Capture pipeline and voice-activity detection *)
(* ================================================================== *)

Module VAD.

Local Open Scope Q_scope.

(** Channel data of one [AudioProcessingEvent]: a [Float32Array], each
    element given by the rational it holds. *)
Definition Frame := list Q.

(** The capture-side fields of [LiveKitService].  Object-valued fields are
    [true] when set and [false] when [null].  The [onaudioprocess] closure
    created by [startAudioCapture] is kept apart from the [processor] field:
    [wasActive] is the variable of that name captured by the closure, [None]
    as long as no closure has been created.  The closure lives on when the
    field is cleared. *)
Record Capture := {
  audioContext : bool;
  mediaStreamSource : bool;
  processor : bool;
  wasActive : option bool;
  onAudioDataCallback : bool;
  voiceActivityThreshold : Q;
  onVoiceActivityCallback : bool
}.

(** Invocations of the two callbacks passed to [startAudioCapture]. *)
Inductive Callback :=
| VoiceActivity (isActive : bool)
| AudioData (pcm16 : list Z).

(** ** The RMS computation, in binary64 *)

(** An integer as a Number (exact below 2^53, and for every power of two in
    range). *)
Definition number (n : Z) : spec_float := binary_normalize 53 1024 n 0 false.

(** The Number nearest to a rational: the value read from a [Float32Array]
    element (exact for every Float32 value) or denoted by a literal such as
    [0.02]. *)
Definition to_double (q : Q) : spec_float :=
  SFdiv 53 1024 (number (Qnum q)) (number (Zpos (Qden q))).

(** [let sum = 0; for (...) sum += inputData[i] * inputData[i]] *)
Definition sum_of_squares (inputData : Frame) : spec_float :=
  fold_left (fun sum x => SFadd 53 1024 sum (SFmul 53 1024 x x))
            (map to_double inputData) (S754_zero false).

(** [Math.sqrt(sum / inputData.length)]; NaN for an empty frame (0/0). *)
Definition rms (inputData : Frame) : spec_float :=
  SFsqrt 53 1024
    (SFdiv 53 1024 (sum_of_squares inputData)
       (number (Z.of_nat (List.length inputData)))).

(** [rms > this.voiceActivityThreshold]; a comparison with NaN is false. *)
Definition isActive (threshold : Q) (inputData : Frame) : bool :=
  match SFcompare (rms inputData) (to_double threshold) with
  | Some Gt => true
  | _ => false
  end.

(** ** The handler *)

(** The body of the [onaudioprocess] closure, [was] being the value of its
    variable [wasActive]: the new value of the variable and the callbacks
    invoked, in order.  The callback fields and the threshold are read from
    the service at the time of the event. *)
Definition onaudioprocess_body (c : Capture) (was : bool)
    (inputData : Frame) : bool * list Callback :=
  let active := isActive (voiceActivityThreshold c) inputData in
  let changed := onVoiceActivityCallback c && negb (Bool.eqb active was) in
  let pcm16 := PCM.floatToPCM16 inputData in
  (if changed then active else was,
   (if changed then [VoiceActivity active] else [])
   ++ (if onAudioDataCallback c then [AudioData pcm16] else [])).

(** Delivery of one audio-process event to the closure.  The closure does
    not look at [this.processor]; there is nothing to run only when no
    closure was ever created. *)
Definition onaudioprocess (c : Capture) (inputData : Frame)
    : Capture * list Callback :=
  match wasActive c with
  | None => (c, [])
  | Some was =>
      let '(was', cbs) := onaudioprocess_body c was inputData in
      ({| audioContext := audioContext c;
          mediaStreamSource := mediaStreamSource c;
          processor := processor c;
          wasActive := Some was';
          onAudioDataCallback := onAudioDataCallback c;
          voiceActivityThreshold := voiceActivityThreshold c;
          onVoiceActivityCallback := onVoiceActivityCallback c |}, cbs)
  end.

(** A sequence of audio-process events. *)
Fixpoint capture_frames (c : Capture) (frames : list Frame)
    : Capture * list Callback :=
  match frames with
  | [] => (c, [])
  | f :: rest =>
      let '(c1, cbs1) := onaudioprocess c f in
      let '(c2, cbs2) := capture_frames c1 rest in
      (c2, cbs1 ++ cbs2)
  end.

(** The part of [startAudioCapture] after the track checks: it stores the two
    callbacks ([onVoiceActivity || null]), creates the context, the stream
    source and the processor, and installs a closure with
    [wasActive = false]. *)
Definition startAudioCapture_setup (c : Capture) (onVoiceActivity : bool)
    : Capture :=
  {| audioContext := true;
     mediaStreamSource := true;
     processor := true;
     wasActive := Some false;
     onAudioDataCallback := true;
     voiceActivityThreshold := voiceActivityThreshold c;
     onVoiceActivityCallback := onVoiceActivity |}.

(** [stopAudioCapture]: disconnects and clears processor, source and context
    and clears the audio callback.  The closure and the voice-activity
    callback field are left as they are. *)
Definition stopAudioCapture (c : Capture) : Capture :=
  {| audioContext := false;
     mediaStreamSource := false;
     processor := false;
     wasActive := wasActive c;
     onAudioDataCallback := false;
     voiceActivityThreshold := voiceActivityThreshold c;
     onVoiceActivityCallback := onVoiceActivityCallback c |}.

(** The fields as initialised by the class. *)
Definition initial : Capture :=
  {| audioContext := false;
     mediaStreamSource := false;
     processor := false;
     wasActive := None;
     onAudioDataCallback := false;
     voiceActivityThreshold := 0.02;
     onVoiceActivityCallback := false |}.

(** The voice-activity callback invocations among a list of callbacks. *)
Definition voice_events (cbs : list Callback) : list bool :=
  flat_map (fun cb => match cb with
                      | VoiceActivity b => [b]
                      | AudioData _ => []
                      end) cbs.

(** The audio-callback invocations among a list of callbacks. *)
Definition audio_events (cbs : list Callback) : list (list Z) :=
  flat_map (fun cb => match cb with
                      | VoiceActivity _ => []
                      | AudioData pcm16 => [pcm16]
                      end) cbs.



End VAD.

(* ================================================================== *)
(** * Playback scheduler *)
(* ================================================================== *)

Module Playback.

Local Open Scope Q_scope.

(** An [AudioBufferSourceNode] after [source.start(startTime)]: its buffer,
    the time it was scheduled at, and whether [stop()] was called on it. *)
Record SourceNode := {
  buffer : list spec_float;
  startTime : Q;
  stopped : bool
}.

(** The rate every buffer is created with: [createBuffer(1, length, 24000)]. *)
Definition sampleRate : Q := 24000.

(** [audioBuffer.duration]: the number of sample frames over the rate. *)
Definition buffer_duration (samples : list spec_float) : Q :=
  inject_Z (Z.of_nat (List.length samples)) / sampleRate.

Definition endTime (n : SourceNode) : Q :=
  startTime n + buffer_duration (buffer n).

(** The playback fields of [LiveKitService].  [scheduledSources] holds
    references to source nodes; [nodes] is the heap of all nodes created so
    far, a reference being an index into it. *)
Record State := {
  playbackAudioContext : bool;
  playbackAnalyser : bool;
  nextStartTime : Q;
  scheduledSources : list nat;
  nodes : list SourceNode
}.

(** The fields as initialised by the class. *)
Definition initial : State :=
  {| playbackAudioContext := false;
     playbackAnalyser := false;
     nextStartTime := 0;
     scheduledSources := [];
     nodes := [] |}.

(** First part of [playAudio]: create the context and the analyser if there
    is none, and start the watermark at the context's clock. *)
Definition ensure_context (st : State) (currentTime : Q) : State :=
  if playbackAudioContext st then st
  else {| playbackAudioContext := true;
          playbackAnalyser := true;
          nextStartTime := currentTime;
          scheduledSources := scheduledSources st;
          nodes := nodes st |}.

(** [playAudio(audioData)], [audioData] given by its [Int16Array] view and
    [currentTime] being the reading of [playbackAudioContext.currentTime].
    The result is the reference of the scheduled source, or [None] when the
    returned promise rejects: [createBuffer] throws NotSupportedError for a
    length of zero, after the context has been created. *)
Definition playAudio (st : State) (currentTime : Q) (audioData : list Z)
    : State * option nat :=
  let st1 := ensure_context st currentTime in
  let float32 := PCM.pcm16ToFloat audioData in
  match float32 with
  | [] => (st1, None)
  | _ :: _ =>
      let start := Qmax (nextStartTime st1) currentTime in
      let source := {| buffer := float32; startTime := start; stopped := false |} in
      let ref := List.length (nodes st1) in
      ({| playbackAudioContext := playbackAudioContext st1;
          playbackAnalyser := playbackAnalyser st1;
          nextStartTime := start + buffer_duration float32;
          scheduledSources := scheduledSources st1 ++ [ref];
          nodes := nodes st1 ++ [source] |}, Some ref)
  end.

(** [source.stop()] on the node a reference points to. *)
Fixpoint stop_node (ref : nat) (ns : list SourceNode) : list SourceNode :=
  match ns, ref with
  | [], _ => []
  | n :: rest, O =>
      {| buffer := buffer n; startTime := startTime n; stopped := true |} :: rest
  | n :: rest, S r => n :: stop_node r rest
  end.

(** [this.scheduledSources.forEach(source => source.stop())] (the [try]
    around [stop] never catches here, every source having been started). *)
Definition stop_all (refs : list nat) (ns : list SourceNode) : list SourceNode :=
  fold_left (fun ns ref => stop_node ref ns) refs ns.

(** [interruptAudio()]: stop every scheduled source, replace the list by an
    empty one, and reset the watermark when a context exists. *)
Definition interruptAudio (st : State) (currentTime : Q) : State :=
  {| playbackAudioContext := playbackAudioContext st;
     playbackAnalyser := playbackAnalyser st;
     nextStartTime :=
       if playbackAudioContext st then currentTime else nextStartTime st;
     scheduledSources := [];
     nodes := stop_all (scheduledSources st) (nodes st) |}.

(** [indexOf] followed by [splice(index, 1)] when the index is not -1. *)
Fixpoint remove_first (ref : nat) (l : list nat) : list nat :=
  match l with
  | [] => []
  | r :: rest => if Nat.eqb r ref then rest else r :: remove_first ref rest
  end.

(** The [onended] handler installed by [playAudio] for the source [ref]. *)
Definition onended (st : State) (ref : nat) : State :=
  {| playbackAudioContext := playbackAudioContext st;
     playbackAnalyser := playbackAnalyser st;
     nextStartTime := nextStartTime st;
     scheduledSources := remove_first ref (scheduledSources st);
     nodes := nodes st |}.

(** Enqueue a sequence of frames, each with the clock reading at its call;
    the references of the scheduled sources are collected. *)
Fixpoint play_all (st : State) (calls : list (Q * list Z))
    : State * list (option nat) :=
  match calls with
  | [] => (st, [])
  | (t, audioData) :: rest =>
      let '(st1, r) := playAudio st t audioData in
      let '(st2, rs) := play_all st1 rest in
      (st2, r :: rs)
  end.

(** The start time a reference was scheduled at. *)
Definition start_of (st : State) (ref : option nat) : option Q :=
  match ref with
  | Some r => option_map startTime (nth_error (nodes st) r)
  | None => None
  end.

(** The duration of a frame: its sample count over the declared rate. *)
Definition frame_duration (audioData : list Z) : Q :=
  inject_Z (Z.of_nat (List.length audioData)) / sampleRate.

(** Back-to-back start times: the first frame at [t], each next one at the
    end of the one before. *)
Fixpoint back_to_back (t : Q) (frames : list (list Z)) : list Q :=
  match frames with
  | [] => []
  | a :: rest => t :: back_to_back (t + frame_duration a) rest
  end.

(** The start times [playAudio] computes for a sequence of calls, from the
    watermark [wm]. *)
Fixpoint schedule (wm : Q) (calls : list (Q * list Z)) : list Q :=
  match calls with
  | [] => []
  | (t, a) :: rest =>
      let start := Qmax wm t in
      start :: schedule (start + frame_duration a) rest
  end.

(** ** The scheduler driven by its environment

    The service together with the clock of the output context.  The
    environment advances the clock, calls [playAudio] and [interruptAudio],
    and fires [ended] on a source that was stopped or has played to its
    end. *)
Record World := { svc : State; clock : Q }.

Inductive Event :=
| Tick (dt : Q)
| Play (audioData : list Z)
| Interrupt
| Ended (ref : nat).

Definition step (w : World) (e : Event) : option World :=
  match e with
  | Tick dt =>
      if Qle_bool 0 dt then Some {| svc := svc w; clock := clock w + dt |}
      else None
  | Play audioData =>
      Some {| svc := fst (playAudio (svc w) (clock w) audioData);
              clock := clock w |}
  | Interrupt =>
      Some {| svc := interruptAudio (svc w) (clock w); clock := clock w |}
  | Ended ref =>
      match nth_error (nodes (svc w)) ref with
      | Some n =>
          if stopped n || Qle_bool (endTime n) (clock w)
          then Some {| svc := onended (svc w) ref; clock := clock w |}
          else None
      | None => None
      end
  end.

Fixpoint run (w : World) (es : list Event) : option World :=
  match es with
  | [] => Some w
  | e :: rest =>
      match step w e with
      | Some w1 => run w1 rest
      | None => None
      end
  end.

Definition initial_world : World := {| svc := initial; clock := 0 |}.

Definition reachable (w : World) : Prop :=
  exists es, run initial_world es = Some w.

(** The node a source becomes when it is stopped. *)
Definition stopped_copy (n : SourceNode) : SourceNode :=
  {| buffer := buffer n; startTime := startTime n; stopped := true |}.

(** The start time of the source a call of [playAudio] schedules. *)
Definition scheduled_start (st : State) (t : Q) (audioData : list Z) : option Q :=
  start_of (fst (playAudio st t audioData)) (snd (playAudio st t audioData)).

(** What the scheduler keeps true while it runs: scheduled sources exist and
    are not stopped; the watermark is in the past or is the end of a
    scheduled source; nothing is scheduled without a context. *)
Definition invariant (w : World) : Prop :=
  (forall ref, In ref (scheduledSources (svc w)) ->
     exists n, nth_error (nodes (svc w)) ref = Some n /\ stopped n = false)
  /\ (nextStartTime (svc w) <= clock w
      \/ exists ref n, In ref (scheduledSources (svc w))
                       /\ nth_error (nodes (svc w)) ref = Some n
                       /\ endTime n == nextStartTime (svc w))
  /\ (playbackAudioContext (svc w) = false -> scheduledSources (svc w) = []).

(** Start times that never overlap: each is at or after the end of the
    source before it ([prev_end] for the first) and at or after the clock
    reading of its own call. *)
Fixpoint no_overlap (prev_end : Q) (starts : list Q) (calls : list (Q * list Z)) : Prop :=
  match starts, calls with
  | s :: ss, (t, a) :: cs =>
      prev_end <= s /\ t <= s /\ (s == prev_end \/ s == t)
      /\ no_overlap (s + frame_duration a) ss cs
  | [], [] => True
  | _, _ => False
  end.

(** The references in the scheduled list are distinct and point into the
    heap. *)
Definition refs_valid (st : State) : Prop :=
  NoDup (scheduledSources st)
  /\ forall ref, In ref (scheduledSources st) -> (ref < List.length (nodes st))%nat.

End Playback.

(* ================================================================== *)
(** * Model session: [GeminiService] *)
(* ================================================================== *)

Module Gemini.

Local Open Scope string_scope.
Local Open Scope list_scope.
Local Set Warnings "-register-all".

(** ** Data *)

(** JSON-compatible values: function arguments and results. *)
Inductive Json :=
| JNull
| JBool (b : bool)
| JNum (n : Z)
| JStr (s : string)
| JArr (items : list Json)
| JObj (fields : list (string * Json)).

(** Binary audio payloads. *)
Definition ArrayBuffer := list Z.

(** [interface FunctionCall { name; args; id }].  [args] and [id] are absent
    ([None]) when the wire message does not carry them. *)
Record FunctionCall := {
  name : string;
  args : option Json;
  id : option string
}.

(** A thrown value: an [Error] with its message, or anything else. *)
Inductive Thrown :=
| ErrorObj (message : string)
| OtherThrown (v : Json).

(** [error instanceof Error ? error.message : fallback] *)
Definition error_message (fallback : string) (error : Thrown) : string :=
  match error with
  | ErrorObj message => message
  | OtherThrown _ => fallback
  end.

(** [error instanceof Error ? error : new Error('Unknown error')] *)
Definition as_error (error : Thrown) : Thrown :=
  match error with
  | ErrorObj message => ErrorObj message
  | OtherThrown _ => ErrorObj "Unknown error"
  end.

(** The object literal [{ error: message }]. *)
Definition error_result (message : string) : Json :=
  JObj [("error", JStr message)].

(** A mapping with an [error] key. *)
Definition has_error_key (v : Json) : bool :=
  match v with
  | JObj fields => existsb (fun kv => String.eqb (fst kv) "error") fields
  | _ => false
  end.

(** [WebSocket.readyState] *)
Inductive ReadyState := CONNECTING | OPEN | CLOSING | CLOSED.

(** The fields of [GeminiService].  [ws] is [None] for [null] and otherwise
    holds the ready state of the socket object; a handler field is [true]
    when a handler is registered and [false] when it is [null]. *)
Record GeminiService := {
  ws : option ReadyState;
  apiKey : string;
  onAudioResponseHandler : bool;
  onTextResponseHandler : bool;
  onErrorHandler : bool;
  functionHandler : bool
}.

(** Messages written to the socket, by their content (the JSON text and the
    base64 coding of audio are not modelled). *)
Inductive ClientMessage :=
| Setup (systemPrompt : string)
| RealtimeInput (audio : ArrayBuffer)
| ClientContent (text : string)
| ToolResponse (callId : option string) (response : Json).

(** A function call as it appears in a server message. *)
Record RawFunctionCall := {
  fc_name : string;
  fc_args : option Json;
  fc_id : option string
}.

(** The [data] of an inline part under [atob]: the bytes, or the exception
    thrown for text that is not base64. *)
Inductive Base64 :=
| Decodes (bytes : ArrayBuffer)
| NotBase64 (message : string).

Record InlineData := {
  mimeType : option string;
  data : Base64
}.

Record Part := {
  inlineData : option InlineData;
  text : option string;
  functionCall : option RawFunctionCall
}.

(** A parsed server message.  [serverContent] is [Some parts] when the field
    is present, [parts] being [modelTurn?.parts || []]. *)
Record ServerMessage := {
  setupComplete : bool;
  toolCall : option (list RawFunctionCall);
  serverContent : option (list Part);
  toolCallCancellation : bool
}.

(** The outcome of [JSON.parse] and of reading the message's fields: a
    message, or the exception thrown for malformed text. *)
Inductive Payload :=
| Malformed (message : string)
| Message (m : ServerMessage).

(** [event.data]: a string or a [Blob], with what it parses to. *)
Record MessageEvent := {
  isBlob : bool;
  payload : Payload
}.

(** What the service does to the outside: socket writes and invocations of
    the registered handlers. *)
Inductive Event :=
| WsSend (m : ClientMessage)
| HandlerCalled (call : FunctionCall)
| AudioResponse (audio : ArrayBuffer)
| TextResponse (text : string)
| ErrorReported (error : Thrown).

(** ** Asynchronous computations

    The body of an [async] method: it reads the fields of the service, acts
    on the outside, and suspends at [await].  [AwaitHandler] calls the
    registered function handler and awaits the promise it returns; [Yield]
    awaits a promise that is already settled (the continuation runs in a
    later microtask). *)
Inductive Settled (A : Type) :=
| Fulfilled (v : A)
| Rejected (e : Thrown).
Arguments Fulfilled {A} v.
Arguments Rejected {A} e.

Inductive Async (A : Type) : Type :=
| Ret (a : A)
| Throw (e : Thrown)
| Read (k : GeminiService -> Async A)
| Emit (ev : Event) (k : Async A)
| AwaitHandler (call : FunctionCall) (k : Settled Json -> Async A)
| Yield (k : Async A).
Arguments Ret {A} a.
Arguments Throw {A} e.
Arguments Read {A} k.
Arguments Emit {A} ev k.
Arguments AwaitHandler {A} call k.
Arguments Yield {A} k.

Fixpoint bind {A B : Type} (p : Async A) (f : A -> Async B) : Async B :=
  match p with
  | Ret a => f a
  | Throw e => Throw e
  | Read k => Read (fun s => bind (k s) f)
  | Emit ev k => Emit ev (bind k f)
  | AwaitHandler call k => AwaitHandler call (fun o => bind (k o) f)
  | Yield k => Yield (bind k f)
  end.

(** [try { p } catch (error) { handler(error) }] *)
Fixpoint try_catch {A : Type} (p : Async A) (handler : Thrown -> Async A) : Async A :=
  match p with
  | Ret a => Ret a
  | Throw e => handler e
  | Read k => Read (fun s => try_catch (k s) handler)
  | Emit ev k => Emit ev (try_catch k handler)
  | AwaitHandler call k => AwaitHandler call (fun o => try_catch (k o) handler)
  | Yield k => Yield (try_catch k handler)
  end.

Notation "x <- p ;; q" := (bind p (fun x => q))
  (at level 61, p at next level, right associativity).
Notation "p ;; q" := (bind p (fun _ => q))
  (at level 61, right associativity).

(** [throw] or [return] according to a settled promise. *)
Definition of_settled {A : Type} (r : Settled A) : Async A :=
  match r with
  | Fulfilled v => Ret v
  | Rejected e => Throw e
  end.

(** The promise an [async] method returns once its body has run. *)
Definition settle {A : Type} (p : Async A) : Async (Settled A) :=
  try_catch (x <- p ;; Ret (Fulfilled x)) (fun e => Ret (Rejected e)).

(** [await this.method(...)]: the method body runs, then the caller resumes
    in a later microtask with the result or the exception. *)
Definition await_call {A : Type} (p : Async A) : Async A :=
  r <- settle p ;; Yield (of_settled r).

(** [await this.functionHandler(call)] *)
Definition await_handler (call : FunctionCall) : Async Json :=
  AwaitHandler call of_settled.

(** [for (const x of xs) { body(x) }] *)
Fixpoint for_each {A : Type} (xs : list A) (body : A -> Async unit) : Async unit :=
  match xs with
  | [] => Ret tt
  | x :: rest => body x ;; for_each rest body
  end.

(** ** The methods of [GeminiService] *)

(** [this.ws && this.ws.readyState === WebSocket.OPEN] *)
Definition ws_open (s : GeminiService) : bool :=
  match ws s with
  | Some OPEN => true
  | _ => false
  end.

(** [isConnected()] *)
Definition isConnected (s : GeminiService) : bool := ws_open s.

(** [if (this.onErrorHandler) this.onErrorHandler(error instanceof Error ?
    error : new Error('Unknown error'))] *)
Definition report_error (error : Thrown) : Async unit :=
  Read (fun s =>
    if onErrorHandler s then Emit (ErrorReported (as_error error)) (Ret tt)
    else Ret tt).

(** The common shape of the three send methods: the guard on the socket,
    then [ws.send] inside [try], any exception being reported and
    rethrown. *)
Definition guarded_send (m : ClientMessage) : Async unit :=
  Read (fun s =>
    if negb (ws_open s) then Throw (ErrorObj "Not connected to Gemini")
    else try_catch (Emit (WsSend m) (Ret tt))
                   (fun error => report_error error ;; Throw error)).

(** [sendAudio(audioData)] *)
Definition sendAudio (audioData : ArrayBuffer) : Async unit :=
  guarded_send (RealtimeInput audioData).

(** [sendText(text)] *)
Definition sendText (text : string) : Async unit :=
  guarded_send (ClientContent text).

(** [sendFunctionResult(callId, result)] *)
Definition sendFunctionResult (callId : option string) (result : Json) : Async unit :=
  guarded_send (ToolResponse callId result).

(** [handleFunctionCall(call)] *)
Definition handleFunctionCall (call : FunctionCall) : Async unit :=
  Read (fun s =>
    if negb (functionHandler s) then
      await_call (sendFunctionResult (id call)
                    (error_result "No function handler registered"))
    else
      try_catch
        (result <- await_handler call ;;
         await_call (sendFunctionResult (id call) result))
        (fun error =>
           await_call (sendFunctionResult (id call)
                         (error_result
                            (error_message "Function execution failed" error))))).

(** JavaScript truthiness of a parsed JSON value: [null], [false], [0] and
    the empty string are falsy, every array and object is truthy. *)
Definition is_truthy (v : Json) : bool :=
  match v with
  | JNull => false
  | JBool b => b
  | JNum n => negb (Z.eqb n 0)
  | JStr s => negb (String.eqb s "")
  | JArr _ | JObj _ => true
  end.

(** [functionCall.args || {}]: an absent or falsy [args] becomes the empty
    object. *)
Definition args_or_empty (a : option Json) : option Json :=
  match a with
  | Some v => if is_truthy v then Some v else Some (JObj [])
  | None => Some (JObj [])
  end.

(** [part.functionCall.id || Date.now().toString()], [now] being the clock
    reading as a string; an empty id is falsy. *)
Definition id_or_now (i : option string) (now : string) : option string :=
  match i with
  | Some s => if String.eqb s "" then Some now else Some s
  | None => Some now
  end.

(** One iteration of the loop over [serverContent.modelTurn.parts]. *)
Definition handle_part (now : string) (part : Part) : Async unit :=
  (match inlineData part with
   | Some d =>
       match mimeType d with
       | Some mt =>
           if String.prefix "audio/pcm" mt then
             match data d with
             | NotBase64 message => Throw (ErrorObj message)
             | Decodes audioData =>
                 Read (fun s =>
                   if onAudioResponseHandler s
                   then Emit (AudioResponse audioData) (Ret tt)
                   else Ret tt)
             end
           else Ret tt
       | None => Ret tt
       end
   | None => Ret tt
   end) ;;
  (match text part with
   | Some t =>
       if String.eqb t "" then Ret tt
       else Read (fun s =>
              if onTextResponseHandler s then Emit (TextResponse t) (Ret tt)
              else Ret tt)
   | None => Ret tt
   end) ;;
  (match functionCall part with
   | Some fc =>
       await_call (handleFunctionCall
                     {| name := fc_name fc;
                        args := fc_args fc;
                        id := id_or_now (fc_id fc) now |})
   | None => Ret tt
   end).

(** [handleMessage(data)].  Console output is not modelled, so the two
    closing blocks that only log (executable code, tool-call cancellation)
    leave no trace here. *)
Definition handleMessage (now : string) (ev : MessageEvent) : Async unit :=
  try_catch
    ((if isBlob ev then Yield (Ret tt) else Ret tt) ;;
     match payload ev with
     | Malformed message => Throw (ErrorObj message)
     | Message m =>
         if setupComplete m then Ret tt
         else
           (match toolCall m with
            | Some functionCalls =>
                for_each functionCalls (fun fc =>
                  await_call (handleFunctionCall
                                {| name := fc_name fc;
                                   args := args_or_empty (fc_args fc);
                                   id := fc_id fc |}))
            | None => Ret tt
            end) ;;
           (match serverContent m with
            | Some parts => for_each parts (handle_part now)
            | None => Ret tt
            end)
     end)
    (fun error => report_error error).

(** [this.ws.onmessage = async (event) => { await this.handleMessage(event.data) }] *)
Definition onmessage (now : string) (ev : MessageEvent) : Async unit :=
  await_call (handleMessage now ev).

(** The frame callback the index page passes to [startAudioCapture]:
    [async (audioData) => { try { await geminiService.sendAudio(audioData) }
    catch (error) { console.error(...) } }]. *)
Definition onFrame (audioData : ArrayBuffer) : Async unit :=
  try_catch (await_call (sendAudio audioData)) (fun _ => Ret tt).

(** ** Running an asynchronous computation

    The environment of a computation fixes, for its n-th suspension, the
    state of the service when it resumes and, when it awaits the function
    handler, how the handler's promise settles ([None]: never). *)
Record Env := {
  state_at : nat -> GeminiService;
  settle_at : nat -> option (Settled Json)
}.

Inductive Status (A : Type) :=
| Done (r : Settled A)
| Pending.
Arguments Done {A} r.
Arguments Pending {A}.

(** What a computation has done when it ends or hangs: its events in order,
    how it ended, and the state and suspension count it ended at. *)
Record Outcome (A : Type) := {
  events : list Event;
  status : Status A;
  final_state : GeminiService;
  suspensions : nat
}.
Arguments events {A} o.
Arguments status {A} o.
Arguments final_state {A} o.
Arguments suspensions {A} o.

Definition with_event {A : Type} (ev : Event) (o : Outcome A) : Outcome A :=
  {| events := ev :: events o;
     status := status o;
     final_state := final_state o;
     suspensions := suspensions o |}.

(** A computation started in state [s] at suspension count [n]. *)
Fixpoint run {A : Type} (p : Async A) (s : GeminiService) (env : Env) (n : nat)
    : Outcome A :=
  match p with
  | Ret a =>
      {| events := []; status := Done (Fulfilled a);
         final_state := s; suspensions := n |}
  | Throw e =>
      {| events := []; status := Done (Rejected e);
         final_state := s; suspensions := n |}
  | Read k => run (k s) s env n
  | Emit ev k => with_event ev (run k s env n)
  | AwaitHandler call k =>
      match settle_at env n with
      | Some o =>
          with_event (HandlerCalled call) (run (k o) (state_at env n) env (S n))
      | None =>
          {| events := [HandlerCalled call]; status := Pending;
             final_state := s; suspensions := n |}
      end
  | Yield k => run k (state_at env n) env (S n)
  end.

(** Sequencing of outcomes: what [bind] and [try_catch] do to a run. *)
Definition then_run {A B : Type} (o : Outcome A)
    (f : A -> GeminiService -> nat -> Outcome B) : Outcome B :=
  match status o with
  | Done (Fulfilled a) =>
      let o2 := f a (final_state o) (suspensions o) in
      {| events := events o ++ events o2; status := status o2;
         final_state := final_state o2; suspensions := suspensions o2 |}
  | Done (Rejected e) =>
      {| events := events o; status := Done (Rejected e);
         final_state := final_state o; suspensions := suspensions o |}
  | Pending =>
      {| events := events o; status := Pending;
         final_state := final_state o; suspensions := suspensions o |}
  end.

Definition catch_run {A : Type} (o : Outcome A)
    (h : Thrown -> GeminiService -> nat -> Outcome A) : Outcome A :=
  match status o with
  | Done (Rejected e) =>
      let o2 := h e (final_state o) (suspensions o) in
      {| events := events o ++ events o2; status := status o2;
         final_state := final_state o2; suspensions := suspensions o2 |}
  | _ => o
  end.

(** The socket writes among a list of events. *)
Definition sent (evs : list Event) : list ClientMessage :=
  flat_map (fun ev => match ev with WsSend m => [m] | _ => [] end) evs.

(** The function-call responses carrying a given id among a list of events. *)
Definition responses_for (callId : option string) (evs : list Event) : list Json :=
  flat_map (fun ev =>
              match ev with
              | WsSend (ToolResponse i r) =>
                  match i, callId with
                  | Some a, Some b => if String.eqb a b then [r] else []
                  | None, None => [r]
                  | _, _ => []
                  end
              | _ => []
              end) evs.

(** The position of the first event satisfying a test. *)
Fixpoint index_of (test : Event -> bool) (evs : list Event) : option nat :=
  match evs with
  | [] => None
  | ev :: rest =>
      if test ev then Some O else option_map S (index_of test rest)
  end.

Definition is_handler_call (n : string) (ev : Event) : bool :=
  match ev with
  | HandlerCalled call => String.eqb (name call) n
  | _ => false
  end.

Definition is_response_to (callId : string) (ev : Event) : bool :=
  match ev with
  | WsSend (ToolResponse (Some i) _) => String.eqb i callId
  | _ => false
  end.

(** The response [handleFunctionCall] sends for a settled handler promise. *)
Definition response_of (o : Settled Json) : Json :=
  match o with
  | Fulfilled result => result
  | Rejected error =>
      error_result (error_message "Function execution failed" error)
  end.

(** Strictly sequential handling of a list of calls: each handler is invoked
    only once the response to the previous call has been sent; three
    suspensions pass per call (the handler's promise, the send, the loop's
    own [await]); a handler promise that never settles stops the loop. *)
Fixpoint sequential_dispatch (env : Env) (n : nat) (calls : list FunctionCall)
    : list Event :=
  match calls with
  | [] => []
  | call :: rest =>
      match settle_at env n with
      | Some o =>
          HandlerCalled call
          :: WsSend (ToolResponse (id call) (response_of o))
          :: sequential_dispatch env (3 + n) rest
      | None => [HandlerCalled call]
      end
  end.

(** The call built from a [toolCall] entry. *)
Definition tool_call (fc : RawFunctionCall) : FunctionCall :=
  {| name := fc_name fc; args := args_or_empty (fc_args fc); id := fc_id fc |}.

(** A string message that carries only a function-call batch. *)
Definition batch_message (functionCalls : list RawFunctionCall) : MessageEvent :=
  {| isBlob := false;
     payload := Message {| setupComplete := false;
                           toolCall := Some functionCalls;
                           serverContent := None;
                           toolCallCancellation := false |} |}.

(** The handler invocations a media part causes in a service state: the
    audio handler for inline [audio/pcm] data, then the text handler for a
    non-empty text, each only when registered. *)
Definition part_media_events (s : GeminiService) (part : Part) : list Event :=
  (match inlineData part with
   | Some d =>
       match mimeType d, data d with
       | Some mt, Decodes audioData =>
           if String.prefix "audio/pcm" mt && onAudioResponseHandler s
           then [AudioResponse audioData] else []
       | _, _ => []
       end
   | None => []
   end)
  ++ (match text part with
      | Some t =>
          if negb (String.eqb t "") && onTextResponseHandler s
          then [TextResponse t] else []
      | None => []
      end).

(** A part that carries no function call and whose audio, if any, decodes. *)
Definition media_part (part : Part) : Prop :=
  functionCall part = None
  /\ forall d mt message,
       inlineData part = Some d -> mimeType d = Some mt ->
       String.prefix "audio/pcm" mt = true -> data d <> NotBase64 message.

(** A part whose inline audio is not base64. *)
Definition undecodable_part (part : Part) (message : string) : Prop :=
  exists d mt,
    inlineData part = Some d /\ mimeType d = Some mt
    /\ String.prefix "audio/pcm" mt = true /\ data d = NotBase64 message.

(** A frame that carries only server content, arriving as a [Blob] or as a
    string. *)
Definition content_message (blob : bool) (parts : list Part) : MessageEvent :=
  {| isBlob := blob;
     payload := Message {| setupComplete := false;
                           toolCall := None;
                           serverContent := Some parts;
                           toolCallCancellation := false |} |}.

(** A service whose socket has closed, and an environment in which it stays
    closed while handler promises are fulfilled. *)
Definition closed_service : GeminiService :=
  {| ws := Some CLOSED; apiKey := "key";
     onAudioResponseHandler := true; onTextResponseHandler := true;
     onErrorHandler := true; functionHandler := true |}.

Definition closed_env : Env :=
  {| state_at := fun _ => closed_service;
     settle_at := fun _ => Some (Fulfilled JNull) |}.

(** A service with an open socket and every handler registered, and an
    environment in which it stays so and every handler promise is fulfilled
    with [null]. *)
Definition example_service : GeminiService :=
  {| ws := Some OPEN; apiKey := "key";
     onAudioResponseHandler := true; onTextResponseHandler := true;
     onErrorHandler := true; functionHandler := true |}.

Definition example_env : Env :=
  {| state_at := fun _ => example_service;
     settle_at := fun _ => Some (Fulfilled JNull) |}.

(** The same environment with handler promises that are rejected. *)
Definition rejecting_env : Env :=
  {| state_at := fun _ => example_service;
     settle_at := fun _ => Some (Rejected (ErrorObj "boom")) |}.

(** The same environment with handler promises that never settle. *)
Definition pending_env : Env :=
  {| state_at := fun _ => example_service;
     settle_at := fun _ => None |}.

(** The batch of the concurrent-calls scenario: [get_weather] with id "a"
    and [web_search] with id "b". *)
Definition example_batch : list RawFunctionCall :=
  [ {| fc_name := "get_weather"; fc_args := None; fc_id := Some "a" |};
    {| fc_name := "web_search"; fc_args := None; fc_id := Some "b" |} ].

End Gemini.

(* ================================================================== *)
(** * The session driven by its environment *)
(* ================================================================== *)

(** The service inside the browser's event loop: callers invoke its methods,
    the socket fires its events, captured frames arrive, and suspended
    [async] calls are resumed one at a time.  One socket is modelled: the
    one [this.ws] refers to. *)
Module Session.
Import Gemini.

Local Open Scope string_scope.
Local Open Scope list_scope.

(** [interface GeminiConfig] *)
Record GeminiConfig := {
  cfg_apiKey : string;
  cfg_systemPrompt : string
}.

(** An [async] call waiting to be resumed: on the promise of the function
    handler, or on a promise that is already settled. *)
Inductive Suspended :=
| OnHandler (call : FunctionCall) (k : Settled Json -> Async unit)
| OnTick (k : Async unit).

Inductive Step :=
| Finished (r : Settled unit)
| Suspends (t : Suspended).

(** One synchronous segment of a computation: up to its end or its next
    [await]. *)
Fixpoint advance (p : Async unit) (s : GeminiService) : list Event * Step :=
  match p with
  | Ret a => ([], Finished (Fulfilled a))
  | Throw e => ([], Finished (Rejected e))
  | Read k => advance (k s) s
  | Emit ev k => let '(evs, st) := advance k s in (ev :: evs, st)
  | AwaitHandler call k => ([HandlerCalled call], Suspends (OnHandler call k))
  | Yield k => ([], Suspends (OnTick k))
  end.

(** The promise returned by [connect]. *)
Inductive ConnectPromise :=
| NotCalled
| PendingConnect
| Resolved
| RejectedWith (e : Thrown).

(** The service, the prompt captured by the handlers [connect] installs, the
    state of the promise [connect] returned, the messages delivered so far
    (kept for stating properties only), and the suspended calls. *)
Record World := {
  service : GeminiService;
  systemPrompt : string;
  connectPromise : ConnectPromise;
  received : list MessageEvent;
  tasks : list Suspended
}.

Inductive Input :=
| CallConnect (config : GeminiConfig)
| SocketOpen
| SocketError
| SocketClose
| SocketMessage (now : string) (ev : MessageEvent)
| CallDisconnect
| CallSendText (text : string)
| CaptureFrame (audioData : ArrayBuffer)
| CallOnFunctionCall
| CallOnAudioResponse
| CallOnTextResponse
| CallOnError
| Resume (task : nat) (o : Settled Json).

Definition with_service (w : World) (s : GeminiService) : World :=
  {| service := s; systemPrompt := systemPrompt w;
     connectPromise := connectPromise w; received := received w;
     tasks := tasks w |}.

Definition with_tasks (w : World) (ts : list Suspended) : World :=
  {| service := service w; systemPrompt := systemPrompt w;
     connectPromise := connectPromise w; received := received w;
     tasks := ts |}.

Definition set_ws (s : GeminiService) (r : option ReadyState) : GeminiService :=
  {| ws := r; apiKey := apiKey s;
     onAudioResponseHandler := onAudioResponseHandler s;
     onTextResponseHandler := onTextResponseHandler s;
     onErrorHandler := onErrorHandler s;
     functionHandler := functionHandler s |}.

(** Start an [async] call: run its first segment and keep the rest, if any,
    among the suspended calls. *)
Definition spawn (w : World) (p : Async unit) : World * list Event :=
  let '(evs, st) := advance p (service w) in
  match st with
  | Finished _ => (w, evs)
  | Suspends t => (with_tasks w (tasks w ++ [t]), evs)
  end.

Fixpoint remove_nth {A : Type} (i : nat) (l : list A) : list A :=
  match l, i with
  | [], _ => []
  | _ :: rest, O => rest
  | x :: rest, S j => x :: remove_nth j rest
  end.

(** The synchronous part of [connect(config)]: the key is stored, a socket
    is created (CONNECTING) and the handlers are installed; the returned
    promise is pending. *)
Definition connect (w : World) (config : GeminiConfig) : World :=
  {| service := {| ws := Some CONNECTING;
                   apiKey := cfg_apiKey config;
                   onAudioResponseHandler := onAudioResponseHandler (service w);
                   onTextResponseHandler := onTextResponseHandler (service w);
                   onErrorHandler := onErrorHandler (service w);
                   functionHandler := functionHandler (service w) |};
     systemPrompt := cfg_systemPrompt config;
     connectPromise := PendingConnect;
     received := received w;
     tasks := tasks w |}.

(** [this.ws.onopen]: the setup message is sent and the promise resolved (a
    settled promise stays as it is). *)
Definition onopen (w : World) : World * list Event :=
  ({| service := service w; systemPrompt := systemPrompt w;
      connectPromise := match connectPromise w with
                        | PendingConnect => Resolved
                        | other => other
                        end;
      received := received w; tasks := tasks w |},
   match ws (service w) with
   | Some _ => [WsSend (Setup (systemPrompt w))]
   | None => []
   end).

(** [this.ws.onerror]: the promise is rejected if it is still pending. *)
Definition onerror (w : World) : World :=
  {| service := service w; systemPrompt := systemPrompt w;
     connectPromise := match connectPromise w with
                       | PendingConnect =>
                           RejectedWith (ErrorObj "Failed to connect to Gemini Live API")
                       | other => other
                       end;
     received := received w; tasks := tasks w |}.

(** [disconnect()] *)
Definition disconnect (s : GeminiService) : GeminiService :=
  match ws s with
  | Some _ => set_ws s None
  | None => s
  end.

(** One step of the event loop; [None] when the browser cannot deliver the
    input in this state (a socket event needs the socket in the matching
    state, a resumption needs the task). *)
Definition step (w : World) (i : Input) : option (World * list Event) :=
  match i with
  | CallConnect config => Some (connect w config, [])
  | SocketOpen =>
      match ws (service w) with
      | Some CONNECTING =>
          Some (onopen (with_service w (set_ws (service w) (Some OPEN))))
      | _ => None
      end
  | SocketError =>
      match ws (service w) with
      | Some CONNECTING | Some OPEN => Some (onerror w, [])
      | _ => None
      end
  | SocketClose =>
      match ws (service w) with
      | Some CLOSED | None => None
      | Some _ => Some (with_service w (set_ws (service w) (Some CLOSED)), [])
      end
  | SocketMessage now ev =>
      match ws (service w) with
      | Some OPEN =>
          Some (spawn {| service := service w; systemPrompt := systemPrompt w;
                         connectPromise := connectPromise w;
                         received := received w ++ [ev];
                         tasks := tasks w |}
                      (onmessage now ev))
      | _ => None
      end
  | CallDisconnect => Some (with_service w (disconnect (service w)), [])
  | CallSendText text => Some (spawn w (sendText text))
  | CaptureFrame audioData => Some (spawn w (onFrame audioData))
  | CallOnFunctionCall =>
      Some (with_service w
              {| ws := ws (service w); apiKey := apiKey (service w);
                 onAudioResponseHandler := onAudioResponseHandler (service w);
                 onTextResponseHandler := onTextResponseHandler (service w);
                 onErrorHandler := onErrorHandler (service w);
                 functionHandler := true |}, [])
  | CallOnAudioResponse =>
      Some (with_service w
              {| ws := ws (service w); apiKey := apiKey (service w);
                 onAudioResponseHandler := true;
                 onTextResponseHandler := onTextResponseHandler (service w);
                 onErrorHandler := onErrorHandler (service w);
                 functionHandler := functionHandler (service w) |}, [])
  | CallOnTextResponse =>
      Some (with_service w
              {| ws := ws (service w); apiKey := apiKey (service w);
                 onAudioResponseHandler := onAudioResponseHandler (service w);
                 onTextResponseHandler := true;
                 onErrorHandler := onErrorHandler (service w);
                 functionHandler := functionHandler (service w) |}, [])
  | CallOnError =>
      Some (with_service w
              {| ws := ws (service w); apiKey := apiKey (service w);
                 onAudioResponseHandler := onAudioResponseHandler (service w);
                 onTextResponseHandler := onTextResponseHandler (service w);
                 onErrorHandler := true;
                 functionHandler := functionHandler (service w) |}, [])
  | Resume task o =>
      match nth_error (tasks w) task with
      | Some (OnHandler _ k) => Some (spawn (with_tasks w (remove_nth task (tasks w))) (k o))
      | Some (OnTick k) => Some (spawn (with_tasks w (remove_nth task (tasks w))) k)
      | None => None
      end
  end.

(** A sequence of inputs, with all the events it causes. *)
Fixpoint run_inputs (w : World) (inputs : list Input) : option (World * list Event) :=
  match inputs with
  | [] => Some (w, [])
  | i :: rest =>
      match step w i with
      | Some (w1, evs1) =>
          match run_inputs w1 rest with
          | Some (w2, evs2) => Some (w2, evs1 ++ evs2)
          | None => None
          end
      | None => None
      end
  end.

(** The service as constructed, nothing connected or registered. *)
Definition initial_service : GeminiService :=
  {| ws := None; apiKey := "";
     onAudioResponseHandler := false; onTextResponseHandler := false;
     onErrorHandler := false; functionHandler := false |}.

Definition initial_world : World :=
  {| service := initial_service; systemPrompt := "";
     connectPromise := NotCalled; received := []; tasks := [] |}.

(** Ready as the code reports it: the promise of [connect] has resolved and
    [isConnected()] is true. *)
Definition ready (w : World) : bool :=
  match connectPromise w with
  | Resolved => isConnected (service w)
  | _ => false
  end.

(** A handshake acknowledgment is among the messages delivered so far. *)
Definition ack_received (w : World) : bool :=
  existsb (fun ev => match payload ev with
                     | Message m => setupComplete m
                     | Malformed _ => false
                     end) (received w).

(** The audio payloads among the socket writes of a list of events. *)
Definition audio_sent (evs : list Event) : list ArrayBuffer :=
  flat_map (fun ev => match ev with
                      | WsSend (RealtimeInput audio) => [audio]
                      | _ => []
                      end) evs.

(** The frames captured while [isConnected()] is true, in capture order. *)
Fixpoint frames_while_connected (w : World) (inputs : list Input) : list ArrayBuffer :=
  match inputs with
  | [] => []
  | i :: rest =>
      match step w i with
      | Some (w1, _) =>
          (match i with
           | CaptureFrame audioData =>
               if isConnected (service w) then [audioData] else []
           | _ => []
           end) ++ frames_while_connected w1 rest
      | None => []
      end
  end.

(** A computation none of whose socket writes carries audio. *)
Fixpoint no_audio {A : Type} (p : Async A) : Prop :=
  match p with
  | Ret _ => True
  | Throw _ => True
  | Read k => forall s, no_audio (k s)
  | Emit ev k => audio_sent [ev] = [] /\ no_audio k
  | AwaitHandler _ k => forall o, no_audio (k o)
  | Yield k => no_audio k
  end.

Definition quiet (t : Suspended) : Prop :=
  match t with
  | OnHandler _ k => forall o, no_audio (k o)
  | OnTick k => no_audio k
  end.

(** A computation that, resumed in state [s], writes to the socket only if
    the socket is open then, and does so again in whatever state it is
    resumed after each suspension. *)
Fixpoint writes_when_open {A : Type} (s : GeminiService) (p : Async A) : Prop :=
  match p with
  | Ret _ => True
  | Throw _ => True
  | Read k => writes_when_open s (k s)
  | Emit ev k => (ws_open s = false -> sent [ev] = []) /\ writes_when_open s k
  | AwaitHandler _ k => forall o s', writes_when_open s' (k o)
  | Yield k => forall s', writes_when_open s' k
  end.

Definition guarded (t : Suspended) : Prop :=
  match t with
  | OnHandler _ k => forall o s, writes_when_open s (k o)
  | OnTick k => forall s, writes_when_open s k
  end.

(** An input other than a call of [connect]. *)
Definition is_connect (i : Input) : bool :=
  match i with
  | CallConnect _ => true
  | _ => false
  end.

(** A configuration and an acknowledgment message used in examples. *)
Definition example_config : GeminiConfig :=
  {| cfg_apiKey := "key"; cfg_systemPrompt := "You are MARS" |}.

Definition setup_complete_message : MessageEvent :=
  {| isBlob := false;
     payload := Message {| setupComplete := true; toolCall := None;
                           serverContent := None;
                           toolCallCancellation := false |} |}.

(** A session with a function and an error handler in which a function call
    arrives over the open socket. *)
Definition call_in_flight : list Input :=
  [CallOnFunctionCall; CallOnError; CallConnect example_config; SocketOpen;
   SocketMessage "0"
     (batch_message [{| fc_name := "get_weather"; fc_args := None;
                        fc_id := Some "a" |}])].

(** The world a sequence of inputs leads to from [w], and the events it
    causes (the initial world and no event if it cannot be delivered). *)
Definition world_after (w : World) (inputs : list Input) : World :=
  match run_inputs w inputs with
  | Some (w', _) => w'
  | None => initial_world
  end.

Definition events_after (w : World) (inputs : list Input) : list Event :=
  match run_inputs w inputs with
  | Some (_, evs) => evs
  | None => []
  end.

(** The world right after [connect(example_config)], the socket not yet
    open. *)
Definition connecting_world : World := connect initial_world example_config.

End Session.

(* ================================================================== *)
(** * The audio service as a whole, and its wiring on the index page *)
(* ================================================================== *)

Module LiveKit.

Local Open Scope Q_scope.

(** The capture and playback fields of one [LiveKitService] (the room, the
    track and the audio element are not modelled). *)
Record LiveKitService := {
  capture : VAD.Capture;
  playback : Playback.State
}.

(** [disconnect()], [currentTime] being the reading of the playback clock:
    capture is stopped, playback interrupted, the playback context closed and
    dropped, and the watermark set to zero.  The analyser field is not
    touched. *)
Definition disconnect (svc : LiveKitService) (currentTime : Q) : LiveKitService :=
  let st := Playback.interruptAudio (playback svc) currentTime in
  {| capture := VAD.stopAudioCapture (capture svc);
     playback := {| Playback.playbackAudioContext := false;
                    Playback.playbackAnalyser := Playback.playbackAnalyser st;
                    Playback.nextStartTime := 0;
                    Playback.scheduledSources := Playback.scheduledSources st;
                    Playback.nodes := Playback.nodes st |} |}.

(** [getAudioAnalyser()] *)
Definition getAudioAnalyser (svc : LiveKitService) : bool :=
  Playback.playbackAnalyser (playback svc).

(** The voice-activity callback the index page passes to
    [startAudioCapture]: [(isActive) => { if (isActive)
    liveKitService.interruptAudio() }]. *)
Definition onVoiceActivity (svc : LiveKitService) (currentTime : Q)
    (isActive : bool) : LiveKitService :=
  if isActive
  then {| capture := capture svc;
          playback := Playback.interruptAudio (playback svc) currentTime |}
  else svc.

(** What a callback invocation does to the audio service: the audio callback
    hands the frame to the model session and leaves this service alone. *)
Definition deliver (currentTime : Q) (svc : LiveKitService) (cb : VAD.Callback)
    : LiveKitService :=
  match cb with
  | VAD.VoiceActivity isActive => onVoiceActivity svc currentTime isActive
  | VAD.AudioData _ => svc
  end.

(** One audio-process event with the page's callbacks installed. *)
Definition onaudioprocess (svc : LiveKitService) (currentTime : Q)
    (inputData : VAD.Frame) : LiveKitService * list VAD.Callback :=
  let '(c, cbs) := VAD.onaudioprocess (capture svc) inputData in
  (fold_left (deliver currentTime) cbs {| capture := c; playback := playback svc |},
   cbs).

(** A service that is capturing with both callbacks and has two sources
    scheduled. *)
Definition example_service : LiveKitService :=
  {| capture := VAD.startAudioCapture_setup VAD.initial true;
     playback := fst (Playback.playAudio
                        (fst (Playback.playAudio Playback.initial 0 [100; 200]%Z))
                        0 [300]%Z) |}.

End LiveKit.

(* ================================================================== *)
(** * Function router *)
(* ================================================================== *)

(** [routeFunctionCall] and its four handlers, and the function handler the
    index page registers around it.  The tools they call are requests to
    the outside, answered by an oracle; values have their declared
    TypeScript types, numbers being carried by integers as in [Json] (NaN
    is not representable).  Console output and toasts are not modelled, nor
    the microtask ticks of [await]: the handlers share no mutable state. *)
Module Router.
Import Gemini.

Local Open Scope string_scope.
Local Open Scope list_scope.
Local Open Scope Z_scope.

(** ** Values *)

(** Truthiness of a value read from JSON, [None] standing for [undefined]. *)
Definition truthy (v : option Json) : bool :=
  match v with
  | None => false
  | Some JNull => false
  | Some (JBool b) => b
  | Some (JNum n) => negb (n =? 0)
  | Some (JStr s) => negb (String.eqb s "")
  | Some (JArr _) => true
  | Some (JObj _) => true
  end.

(** Truthiness of an optional string and of an optional number. *)
Definition truthy_string (s : option string) : bool :=
  match s with
  | Some s => negb (String.eqb s "")
  | None => false
  end.

Definition truthy_number (n : option Z) : bool :=
  match n with
  | Some n => negb (n =? 0)
  | None => false
  end.

(** [v !== undefined] *)
Definition defined {A : Type} (v : option A) : bool :=
  match v with
  | Some _ => true
  | None => false
  end.

(** [isNaN(n)] on a number that is present. *)
Definition isNaN (n : Z) : bool := false.

Fixpoint lookup (key : string) (fields : list (string * Json)) : option Json :=
  match fields with
  | [] => None
  | (k, v) :: rest => if String.eqb k key then Some v else lookup key rest
  end.

(** [v.key] for a value that is neither [null] nor [undefined]. *)
Definition property (v : Json) (key : string) : option Json :=
  match v with
  | JObj fields => lookup key fields
  | _ => None
  end.

(** An object literal; a property whose value is [undefined] is left out,
    as it is when the object is serialised. *)
Definition object (fields : list (string * option Json)) : Json :=
  JObj (flat_map (fun kv => match snd kv with
                            | Some v => [(fst kv, v)]
                            | None => []
                            end) fields).

(** [obj.key = v] on the fields of an object. *)
Fixpoint assign (key : string) (v : Json) (fields : list (string * Json))
    : list (string * Json) :=
  match fields with
  | [] => [(key, v)]
  | (k, old) :: rest =>
      if String.eqb k key then (k, v) :: rest else (k, old) :: assign key v rest
  end.

(** [delete obj.key] *)
Definition delete (key : string) (v : Json) : Json :=
  match v with
  | JObj fields => JObj (filter (fun kv => negb (String.eqb (fst kv) key)) fields)
  | _ => v
  end.

(** ** Settings and tool data *)

Record LocationOverride := {
  lo_city : option string;
  lo_lat : option Z;
  lo_lon : option Z
}.

(** The fields of [Settings] the router reads. *)
Record Settings := {
  weatherApiKey : option string;
  smtpHost : option string;
  smtpPort : option Z;
  smtpUser : option string;
  smtpPass : option string;
  smtpFrom : option string;
  locationOverride : option LocationOverride;
  spotifyAccessToken : option string;
  spotifyRefreshToken : option string;
  spotifyTokenExpiry : option Z;
  spotifyConnected : bool
}.

Record SearchResult := {
  sr_title : string;
  sr_url : string;
  sr_snippet : string
}.

Record LocationData := {
  ld_city : string;
  ld_lat : Z;
  ld_lon : Z
}.

Record WeatherParams := {
  wp_city : option Json;
  wp_lat : option Json;
  wp_lon : option Json
}.

Record WeatherData := {
  wd_city : string;
  wd_temp : Z;
  wd_condition : string;
  wd_humidity : option Z;
  wd_windSpeed : option Z
}.

Record EmailParams := {
  ep_to : option Json;
  ep_subject : option Json;
  ep_html : option Json
}.

(** The object the email handler builds from the settings. *)
Record SMTPConfig := {
  host : option string;
  port : option Z;
  user : option string;
  pass : option string;
  from : option string
}.

Record EmailResponse := { messageId : string }.

Record SpotifyTrack := {
  tr_name : string;
  tr_artist : string;
  tr_album : string
}.

Record SpotifyPlaybackState := {
  isPlaying : bool;
  track : option SpotifyTrack
}.

(** An entry of the list [search] returns. *)
Record SpotifyItem := {
  it_name : string;
  it_uri : string;
  it_artist : option string
}.

Record Refreshed := {
  accessToken : string;
  expiresIn : Z
}.

(** [isSMTPConfigured(smtpConfig)] *)
Definition isSMTPConfigured (c : SMTPConfig) : bool :=
  truthy_string (host c) && truthy_number (port c) && truthy_string (user c)
  && truthy_string (pass c) && truthy_string (from c).

(** ** Requests and computations *)

(** A call of a tool, indexed by the type of what its promise is fulfilled
    with.  [updateSettings] stands for the call with
    [{...settings, spotifyAccessToken, spotifyTokenExpiry}]. *)
Inductive Request : Type -> Type :=
| webSearch (query : option Json) : Request (list SearchResult)
| geolocateIP : Request LocationData
| getCurrentWeather (params : WeatherParams) (apiKey : string) : Request WeatherData
| sendEmail (params : EmailParams) (smtpConfig : SMTPConfig) : Request EmailResponse
| refreshAccessToken (refreshToken : string) : Request Refreshed
| getCurrentPlayback (token : string) : Request (option SpotifyPlaybackState)
| play (token : string) (uri : option Json) : Request unit
| pause (token : string) : Request unit
| skipNext (token : string) : Request unit
| skipPrevious (token : string) : Request unit
| setVolume (token : string) (volume : Json) : Request unit
| search (token : string) (query : Json) : Request (list SpotifyItem)
| updateSettings (settings : Settings) (spotifyAccessToken spotifyTokenExpiry : Json)
    : Request unit.

(** The body of an [async] function that reads the clock and awaits tools. *)
Inductive Tool (A : Type) : Type :=
| Return (a : A)
| Raise (e : Thrown)
| Now (k : Z -> Tool A)
| Await {R : Type} (req : Request R) (k : Settled R -> Tool A).
Arguments Return {A} a.
Arguments Raise {A} e.
Arguments Now {A} k.
Arguments Await {A R} req k.

Fixpoint then_ {A B : Type} (p : Tool A) (f : A -> Tool B) : Tool B :=
  match p with
  | Return a => f a
  | Raise e => Raise e
  | Now k => Now (fun t => then_ (k t) f)
  | Await req k => Await req (fun ans => then_ (k ans) f)
  end.

(** [try { p } catch (error) { handler(error) }] *)
Fixpoint catch {A : Type} (p : Tool A) (handler : Thrown -> Tool A) : Tool A :=
  match p with
  | Return a => Return a
  | Raise e => handler e
  | Now k => Now (fun t => catch (k t) handler)
  | Await req k => Await req (fun ans => catch (k ans) handler)
  end.

(** [await tool(...)] *)
Definition await {R : Type} (req : Request R) : Tool R :=
  Await req (fun ans => match ans with
                        | Fulfilled r => Return r
                        | Rejected e => Raise e
                        end).

(** ** The handlers *)

Section Runtime.

(** What the JavaScript engine supplies: the message of the [TypeError]
    thrown when a property is read from [null] or [undefined], the string a
    template literal makes of a value, and [String.prototype.trim]. *)
Variable type_error : string -> option Json -> string.
Variable to_string : option Json -> string.
Variable trim : string -> string.

(** [const { first, ... } = call.args]: the reader of the properties, or
    the exception for arguments that are [undefined] or [null]. *)
Definition destructure (first : string) (a : option Json)
    : Tool (string -> option Json) :=
  match a with
  | None => Raise (ErrorObj (type_error first None))
  | Some JNull => Raise (ErrorObj (type_error first (Some JNull)))
  | Some v => Return (property v)
  end.

(** [handleWebSearch] *)
Definition handleWebSearch (call : FunctionCall) (settings : Settings) : Tool Json :=
  then_ (destructure "query" (args call)) (fun arg =>
  let query := arg "query" in
  catch
    (then_ (await (webSearch query)) (fun results =>
     Return (object
       [("results",
         Some (JArr (map (fun r => JObj [("title", JStr (sr_title r));
                                         ("url", JStr (sr_url r));
                                         ("snippet", JStr (sr_snippet r))])
                         results)));
        ("query", query)])))
    (fun error => Return (error_result (error_message "Web search failed" error)))).

(** [hasManualCity] and [hasManualCoords] of [handleGetWeather]. *)
Definition hasManualCity (settings : Settings) : bool :=
  match locationOverride settings with
  | Some lo =>
      match lo_city lo with
      | Some c => negb (String.eqb c "") && negb (String.eqb (trim c) "")
      | None => false
      end
  | None => false
  end.

Definition hasManualCoords (settings : Settings) : bool :=
  match locationOverride settings with
  | Some lo =>
      match lo_lat lo, lo_lon lo with
      | Some la, Some lo => negb (isNaN la) && negb (isNaN lo)
      | _, _ => false
      end
  | None => false
  end.

(** The location [handleGetWeather] settles on. *)
Definition weather_location (city lat lon : option Json) (settings : Settings)
    : Tool WeatherParams :=
  if defined lat && defined lon then
    Return {| wp_city := None; wp_lat := lat; wp_lon := lon |}
  else if truthy city then
    Return {| wp_city := city; wp_lat := None; wp_lon := None |}
  else if hasManualCity settings then
    Return {| wp_city := match locationOverride settings with
                         | Some lo => option_map JStr (lo_city lo)
                         | None => None
                         end;
              wp_lat := None; wp_lon := None |}
  else if hasManualCoords settings then
    Return {| wp_city := None;
              wp_lat := match locationOverride settings with
                        | Some lo => option_map JNum (lo_lat lo)
                        | None => None
                        end;
              wp_lon := match locationOverride settings with
                        | Some lo => option_map JNum (lo_lon lo)
                        | None => None
                        end |}
  else
    then_ (await geolocateIP) (fun location =>
    Return {| wp_city := None;
              wp_lat := Some (JNum (ld_lat location));
              wp_lon := Some (JNum (ld_lon location)) |}).

(** [handleGetWeather] *)
Definition handleGetWeather (call : FunctionCall) (settings : Settings) : Tool Json :=
  then_ (destructure "city" (args call)) (fun arg =>
  let city := arg "city" in
  let lat := arg "lat" in
  let lon := arg "lon" in
  match weatherApiKey settings with
  | Some key =>
      if String.eqb key "" then
        Return (error_result
          "Weather service is not configured. Please add a weather API key in settings.")
      else
        catch
          (then_ (weather_location city lat lon settings) (fun weatherParams =>
           then_ (await (getCurrentWeather weatherParams key)) (fun weather =>
           Return (object
             [("city", Some (JStr (wd_city weather)));
              ("temperature", Some (JNum (wd_temp weather)));
              ("condition", Some (JStr (wd_condition weather)));
              ("humidity", option_map JNum (wd_humidity weather));
              ("windSpeed", option_map JNum (wd_windSpeed weather));
              ("units", Some (JStr "metric"))]))))
          (fun error =>
             Return (error_result (error_message "Weather lookup failed" error)))
  | None =>
      Return (error_result
        "Weather service is not configured. Please add a weather API key in settings.")
  end).

(** [handleSendEmail] *)
Definition handleSendEmail (call : FunctionCall) (settings : Settings) : Tool Json :=
  then_ (destructure "to" (args call)) (fun arg =>
  let to := arg "to" in
  let subject := arg "subject" in
  let html := arg "html" in
  let smtpConfig := {| host := smtpHost settings;
                       port := smtpPort settings;
                       user := smtpUser settings;
                       pass := smtpPass settings;
                       from := smtpFrom settings |} in
  if negb (isSMTPConfigured smtpConfig) then
    Return (error_result
      "Email is not configured. Please add SMTP settings in the settings page.")
  else
    catch
      (then_ (await (sendEmail {| ep_to := to; ep_subject := subject; ep_html := html |}
                               smtpConfig)) (fun result =>
       Return (object [("success", Some (JBool true));
                       ("messageId", Some (JStr (messageId result)));
                       ("to", to);
                       ("subject", subject)])))
      (fun error =>
         Return (error_result (error_message "Email sending failed" error)))).

(** [addTokenInfo(response)], [refreshed] holding the new token and its
    expiry when [tokenRefreshed] is set. *)
Definition addTokenInfo (refreshed : option (string * Z)) (response : Json) : Json :=
  match refreshed, response with
  | Some (newAccessToken, newTokenExpiry), JObj fields =>
      JObj (assign "_newTokenExpiry" (JNum newTokenExpiry)
             (assign "_newAccessToken" (JStr newAccessToken)
               (assign "_tokenRefreshed" (JBool true) fields)))
  | _, _ => response
  end.

(** The [switch (action)] of [handleSpotifyControl], inside its [try]. *)
Definition spotify_action (action query uri volume : option Json)
    (token : string) (refreshed : option (string * Z)) : Tool Json :=
  let action_is (a : string) :=
    match action with
    | Some (JStr s) => String.eqb s a
    | _ => false
    end in
  if action_is "current" then
    then_ (await (getCurrentPlayback token)) (fun playback =>
    match playback with
    | Some state =>
        match track state with
        | Some tr =>
            Return (addTokenInfo refreshed
              (object [("isPlaying", Some (JBool (isPlaying state)));
                       ("track", Some (JStr (tr_name tr)));
                       ("artist", Some (JStr (tr_artist tr)));
                       ("album", Some (JStr (tr_album tr)))]))
        | None =>
            Return (addTokenInfo refreshed
              (object [("message", Some (JStr "No music is currently playing."))]))
        end
    | None =>
        Return (addTokenInfo refreshed
          (object [("message", Some (JStr "No music is currently playing."))]))
    end)
  else if action_is "play" then
    then_ (await (play token uri)) (fun _ =>
    Return (addTokenInfo refreshed
      (object [("success", Some (JBool true));
               ("message", Some (JStr (if truthy uri then "Playing requested music"
                                       else "Playback resumed")))])))
  else if action_is "pause" then
    then_ (await (pause token)) (fun _ =>
    Return (addTokenInfo refreshed
      (object [("success", Some (JBool true));
               ("message", Some (JStr "Playback paused"))])))
  else if action_is "next" then
    then_ (await (skipNext token)) (fun _ =>
    Return (addTokenInfo refreshed
      (object [("success", Some (JBool true));
               ("message", Some (JStr "Skipped to next track"))])))
  else if action_is "previous" then
    then_ (await (skipPrevious token)) (fun _ =>
    Return (addTokenInfo refreshed
      (object [("success", Some (JBool true));
               ("message", Some (JStr "Went back to previous track"))])))
  else if action_is "volume" then
    match volume with
    | None => Return (error_result "Volume level is required")
    | Some v =>
        then_ (await (setVolume token v)) (fun _ =>
        Return (addTokenInfo refreshed
          (object [("success", Some (JBool true));
                   ("message",
                    Some (JStr ("Volume set to " ++ to_string volume ++ "%")))])))
    end
  else if action_is "search" then
    match query with
    | Some q =>
        if negb (truthy query) then Return (error_result "Search query is required")
        else
          then_ (await (search token q)) (fun results =>
          match results with
          | [] =>
              Return (addTokenInfo refreshed
                (object [("message",
                          Some (JStr ("No results found for " ++ String (ascii_of_nat 34)
                                        (to_string query ++ String (ascii_of_nat 34) ""))))]))
          | first :: _ =>
              then_ (await (play token (Some (JStr (it_uri first))))) (fun _ =>
              Return (addTokenInfo refreshed
                (object
                   [("success", Some (JBool true));
                    ("track", Some (JStr (it_name first)));
                    ("artist", option_map JStr (it_artist first));
                    ("message",
                     Some (JStr ("Playing " ++ String (ascii_of_nat 34)
                                   (it_name first ++ String (ascii_of_nat 34)
                                      (" by " ++ to_string (option_map JStr
                                                              (it_artist first)))))))])))
          end)
    | None => Return (error_result "Search query is required")
    end
  else
    Return (error_result ("Unknown action: " ++ to_string action)).

(** [handleSpotifyControl] *)
Definition handleSpotifyControl (call : FunctionCall) (settings : Settings) : Tool Json :=
  then_ (destructure "action" (args call)) (fun arg =>
  let action := arg "action" in
  let query := arg "query" in
  let uri := arg "uri" in
  let volume := arg "volume" in
  let act (token : string) (refreshed : option (string * Z)) : Tool Json :=
    catch (spotify_action action query uri volume token refreshed)
          (fun error =>
             Return (error_result (error_message "Spotify control failed" error))) in
  match spotifyAccessToken settings with
  | Some token =>
      if negb (spotifyConnected settings) || String.eqb token "" then
        Return (error_result
          "Spotify is not connected. Please connect Spotify in settings.")
      else
        match spotifyTokenExpiry settings with
        | Some expiry =>
            if expiry =? 0 then act token None
            else
              Now (fun now =>
                if now >=? expiry - 300000 then
                  match spotifyRefreshToken settings with
                  | Some refreshToken =>
                      if String.eqb refreshToken "" then
                        Return (error_result
                          "Spotify session expired. Please reconnect in settings.")
                      else
                        Await (refreshAccessToken refreshToken) (fun ans =>
                          match ans with
                          | Fulfilled refreshed =>
                              Now (fun now' =>
                                act (accessToken refreshed)
                                    (Some (accessToken refreshed,
                                           now' + expiresIn refreshed * 1000)))
                          | Rejected _ =>
                              Return (error_result
                                "Spotify session expired. Please reconnect in settings.")
                          end)
                  | None =>
                      Return (error_result
                        "Spotify session expired. Please reconnect in settings.")
                  end
                else act token None)
        | None => act token None
        end
  | None =>
      Return (error_result
        "Spotify is not connected. Please connect Spotify in settings.")
  end).

(** [routeFunctionCall(call, settings)] *)
Definition routeFunctionCall (call : FunctionCall) (settings : Settings) : Tool Json :=
  catch
    (if String.eqb (name call) "web_search" then handleWebSearch call settings
     else if String.eqb (name call) "get_weather" then handleGetWeather call settings
     else if String.eqb (name call) "send_email" then handleSendEmail call settings
     else if String.eqb (name call) "spotify_control"
          then handleSpotifyControl call settings
     else Raise (ErrorObj ("Unknown function: " ++ name call)))
    (fun error =>
       Return (error_result (error_message "Function execution failed" error))).

(** [result.key], which throws for a result that is [null]. *)
Definition member (result : Json) (key : string) : Tool (option Json) :=
  match result with
  | JNull => Raise (ErrorObj (type_error key (Some JNull)))
  | _ => Return (property result key)
  end.

(** The function handler the index page registers:
    [geminiService.onFunctionCall(async (call) => { ... })]. *)
Definition onFunctionCall (call : FunctionCall) (settings : Settings) : Tool Json :=
  catch
    (then_ (routeFunctionCall call settings) (fun result =>
     then_ (member result "_tokenRefreshed") (fun tokenRefreshed =>
     if truthy tokenRefreshed then
       match property result "_newAccessToken", property result "_newTokenExpiry" with
       | Some newAccessToken, Some newTokenExpiry =>
           if truthy (Some newAccessToken) && truthy (Some newTokenExpiry) then
             then_ (await (updateSettings settings newAccessToken newTokenExpiry))
               (fun _ =>
             Return (delete "_newTokenExpiry"
                       (delete "_newAccessToken"
                          (delete "_tokenRefreshed" result))))
           else Return result
       | _, _ => Return result
       end
     else Return result)))
    (fun error => Raise error).

End Runtime.

(** ** Running a computation *)

(** The outside world of a computation: the clock reading of its n-th
    [Date.now()] and how the promise of its n-th request settles ([None]:
    never). *)
Record Oracle := {
  clock : nat -> Z;
  answer : forall R : Type, Request R -> nat -> option (Settled R)
}.

(** A request with what it was answered. *)
Inductive Exchange :=
| Asked {R : Type} (req : Request R) (ans : option (Settled R)).

Fixpoint run {A : Type} (p : Tool A) (o : Oracle) (reads asked : nat)
    : list Exchange * Status A :=
  match p with
  | Return a => ([], Done (Fulfilled a))
  | Raise e => ([], Done (Rejected e))
  | Now k => run (k (clock o reads)) o (S reads) asked
  | Await req k =>
      match answer o _ req asked with
      | Some ans =>
          let '(xs, st) := run (k ans) o reads (S asked) in
          (Asked req (Some ans) :: xs, st)
      | None => ([Asked req None], Pending)
      end
  end.

(** The request was answered by a rejection. *)
Definition is_rejected (x : Exchange) : bool :=
  match x with
  | Asked _ (Some (Rejected _)) => true
  | _ => false
  end.

(** No exchange but the last is a rejection. *)
Fixpoint rejection_is_last (xs : list Exchange) : bool :=
  match xs with
  | [] => true
  | x :: rest =>
      match rest with
      | [] => true
      | _ :: _ => negb (is_rejected x) && rejection_is_last rest
      end
  end.

(** The request is the lookup of the location by IP address. *)
Definition request_is_geolocation {R : Type} (req : Request R) : bool :=
  match req with
  | geolocateIP => true
  | _ => false
  end.

Definition is_geolocation (x : Exchange) : bool :=
  match x with
  | Asked req _ => request_is_geolocation req
  end.

(** The access token a Spotify request carries. *)
Definition request_token {R : Type} (req : Request R) : option string :=
  match req with
  | getCurrentPlayback t => Some t
  | play t _ => Some t
  | pause t => Some t
  | skipNext t => Some t
  | skipPrevious t => Some t
  | setVolume t _ => Some t
  | search t _ => Some t
  | _ => None
  end.

Definition token_of (x : Exchange) : option string :=
  match x with
  | Asked req _ => request_token req
  end.

(** The request is the refresh of the access token. *)
Definition request_is_refresh {R : Type} (req : Request R) : bool :=
  match req with
  | refreshAccessToken _ => true
  | _ => false
  end.

Definition is_refresh (x : Exchange) : bool :=
  match x with
  | Asked req _ => request_is_refresh req
  end.

(** What a refresh of the access token was fulfilled with. *)
Definition refreshed_by (x : Exchange) : option Refreshed :=
  match x with
  | Asked (refreshAccessToken _) (Some (Fulfilled r)) => Some r
  | _ => None
  end.

(** The new values a request to save the settings carries. *)
Definition saved_by (x : Exchange) : option (Json * Json) :=
  match x with
  | Asked (updateSettings _ t e) _ => Some (t, e)
  | _ => None
  end.

(** The call names a tool that the settings do not configure. *)
Definition unconfigured (call : FunctionCall) (settings : Settings) : bool :=
  String.eqb (name call) "get_weather"
    && negb (truthy_string (weatherApiKey settings))
  || String.eqb (name call) "send_email"
    && negb (isSMTPConfigured {| host := smtpHost settings;
                                 port := smtpPort settings;
                                 user := smtpUser settings;
                                 pass := smtpPass settings;
                                 from := smtpFrom settings |})
  || String.eqb (name call) "spotify_control"
    && (negb (spotifyConnected settings)
        || negb (truthy_string (spotifyAccessToken settings))).

(** The request carries the access token [token]. *)
Definition request_has_token (token : string) (R : Type) (req : Request R) : bool :=
  match request_token req with
  | Some t => String.eqb t token
  | None => false
  end.

Definition request_not_geolocation (R : Type) (req : Request R) : bool :=
  negb (request_is_geolocation req).

(** The token fields of a result are all absent, or they are the three
    fields [addTokenInfo] adds; and the result is not [null]. *)
Definition token_shape (result : Json) : bool :=
  match property result "_tokenRefreshed" with
  | None => negb (defined (property result "_newAccessToken"))
  | Some (JBool true) =>
      match property result "_newAccessToken", property result "_newTokenExpiry" with
      | Some (JStr _), Some (JNum _) => true
      | _, _ => false
      end
  | Some _ => false
  end
  && match result with
     | JNull => false
     | _ => true
     end.

(** A result that hands out an access token only if the token is empty or
    its expiry is zero. *)
Definition keeps_token (result : Json) : Prop :=
  match property result "_newAccessToken" with
  | Some (JStr token) =>
      token = "" \/ property result "_newTokenExpiry" = Some (JNum 0)
  | Some _ => False
  | None => True
  end.

(** ** Properties of computations *)

(** Every way a computation can end: a returned value satisfies [Q], a
    thrown one [E]. *)
Fixpoint ends {A : Type} (Q : A -> Prop) (E : Thrown -> Prop) (p : Tool A) : Prop :=
  match p with
  | Return a => Q a
  | Raise e => E e
  | Now k => forall t, ends Q E (k t)
  | Await req k => forall ans, ends Q E (k ans)
  end.

(** Every request of a computation satisfies a test. *)
Fixpoint asks {A : Type} (ok : forall R, Request R -> bool) (p : Tool A) : Prop :=
  match p with
  | Return _ => True
  | Raise _ => True
  | Now k => forall t, asks ok (k t)
  | Await req k => ok _ req = true /\ forall ans, asks ok (k ans)
  end.

Definition exchange_ok (ok : forall R, Request R -> bool) (x : Exchange) : bool :=
  match x with
  | Asked req _ => ok _ req
  end.

(** A computation in which a rejected request is followed by nothing but the
    return of an error object. *)
Fixpoint fail_fast (p : Tool Json) : Prop :=
  match p with
  | Return _ => True
  | Raise _ => True
  | Now k => forall t, fail_fast (k t)
  | Await req k =>
      (forall e, exists message, k (Rejected e) = Return (error_result message))
      /\ forall r, fail_fast (k (Fulfilled r))
  end.

(** ** Examples *)

(** An engine for examples. *)
Definition example_type_error (first : string) (v : option Json) : string :=
  "Cannot destructure property '" ++ first ++ "'".

Definition example_to_string (v : option Json) : string :=
  match v with
  | Some (JStr s) => s
  | _ => "undefined"
  end.

Definition example_trim (s : string) : string := s.

(** Settings with nothing configured, and settings with a Spotify session
    that expires at time 1000000. *)
Definition empty_settings : Settings :=
  {| weatherApiKey := None; smtpHost := None; smtpPort := None; smtpUser := None;
     smtpPass := None; smtpFrom := None; locationOverride := None;
     spotifyAccessToken := None; spotifyRefreshToken := None;
     spotifyTokenExpiry := None; spotifyConnected := false |}.

Definition spotify_settings : Settings :=
  {| weatherApiKey := Some "wkey"; smtpHost := None; smtpPort := None;
     smtpUser := None; smtpPass := None; smtpFrom := None; locationOverride := None;
     spotifyAccessToken := Some "stale"; spotifyRefreshToken := Some "refresh";
     spotifyTokenExpiry := Some 1000000; spotifyConnected := true |}.

(** Spotify connected with a token that has no recorded expiry. *)
Definition empty_spotify_expiry : Settings :=
  {| weatherApiKey := Some "wkey"; smtpHost := None; smtpPort := None;
     smtpUser := None; smtpPass := None; smtpFrom := None; locationOverride := None;
     spotifyAccessToken := Some "stale"; spotifyRefreshToken := Some "refresh";
     spotifyTokenExpiry := None; spotifyConnected := true |}.

(** An oracle whose clock reads 900000 and that fulfils every request. *)
Definition default_answer (R : Type) (req : Request R) : Settled R :=
  match req in Request T return Settled T with
  | webSearch _ => Fulfilled []
  | geolocateIP => Fulfilled {| ld_city := "Pune"; ld_lat := 18; ld_lon := 73 |}
  | getCurrentWeather _ _ =>
      Fulfilled {| wd_city := "Pune"; wd_temp := 30; wd_condition := "clear";
                   wd_humidity := Some 40; wd_windSpeed := None |}
  | sendEmail _ _ => Fulfilled {| messageId := "m1" |}
  | refreshAccessToken _ => Fulfilled {| accessToken := "fresh"; expiresIn := 3600 |}
  | getCurrentPlayback _ => Fulfilled None
  | play _ _ => Fulfilled tt
  | pause _ => Fulfilled tt
  | skipNext _ => Fulfilled tt
  | skipPrevious _ => Fulfilled tt
  | setVolume _ _ => Fulfilled tt
  | search _ _ =>
      Fulfilled [{| it_name := "Song"; it_uri := "spotify:track:1";
                    it_artist := Some "Band" |}]
  | updateSettings _ _ _ => Fulfilled tt
  end.

Definition example_oracle : Oracle :=
  {| clock := fun _ => 900000;
     answer := fun R req _ => Some (default_answer R req) |}.

(** A call for the weather that names no location. *)
Definition weather_call : FunctionCall :=
  {| name := "get_weather"; args := Some (JObj []); id := Some "c1" |}.

(** The same oracle with a second request that fails. *)
Definition failing_oracle : Oracle :=
  {| clock := fun _ => 900000;
     answer := fun R req n =>
       match n with
       | S O => Some (Rejected (ErrorObj "Failed to play: Unknown error"))
       | _ => Some (default_answer R req)
       end |}.

Definition spotify_call (action : string) (extra : list (string * Json)) : FunctionCall :=
  {| name := "spotify_control";
     args := Some (JObj (("action", JStr action) :: extra));
     id := Some "c1" |}.

End Router.
(* ================================================================== *)
(** * Sample converter: properties *)
(* ================================================================== *)

Module PCMFacts.
Import PCM.
Local Open Scope Q_scope.

(** ** Properties of the encoder *)

Lemma clamp_range (x : Q) : -1 <= clamp x <= 1.
Proof.
  unfold clamp.
  destruct (Q.max_spec (-1) (Qmin 1 x)) as [[H1 H2]|[H1 H2]];
    destruct (Q.min_spec 1 x) as [[H3 H4]|[H3 H4]]; lra.
Qed.

Lemma clamp_inside (x : Q) : -1 <= x <= 1 -> clamp x == x.
Proof.
  intros Hx. unfold clamp.
  destruct (Q.max_spec (-1) (Qmin 1 x)) as [[H1 H2]|[H1 H2]];
    destruct (Q.min_spec 1 x) as [[H3 H4]|[H3 H4]]; lra.
Qed.

Lemma clamp_above (x : Q) : 1 <= x -> clamp x == 1.
Proof.
  intros Hx. unfold clamp.
  destruct (Q.max_spec (-1) (Qmin 1 x)) as [[H1 H2]|[H1 H2]];
    destruct (Q.min_spec 1 x) as [[H3 H4]|[H3 H4]]; lra.
Qed.

Lemma clamp_below (x : Q) : x <= -1 -> clamp x == -1.
Proof.
  intros Hx. unfold clamp.
  destruct (Q.max_spec (-1) (Qmin 1 x)) as [[H1 H2]|[H1 H2]];
    destruct (Q.min_spec 1 x) as [[H3 H4]|[H3 H4]]; lra.
Qed.

Lemma trunc_nonneg (q : Q) :
  0 <= q -> (0 <= trunc q)%Z /\ inject_Z (trunc q) <= q < inject_Z (trunc q) + 1.
Proof.
  destruct q as [a b]. unfold trunc, Qle, Qlt, Qplus, inject_Z. simpl.
  intros Ha.
  assert (Ha' : (0 <= a)%Z) by lia.
  pose proof (Z.quot_rem' a (Zpos b)) as E.
  pose proof (Z.rem_bound_pos a (Zpos b) Ha' (Pos2Z.is_pos b)) as R.
  assert (0 <= a ÷ Zpos b)%Z by (apply Z.quot_pos; lia).
  repeat split; nia.
Qed.

Lemma trunc_nonpos (q : Q) :
  q <= 0 -> (trunc q <= 0)%Z /\ inject_Z (trunc q) - 1 < q <= inject_Z (trunc q).
Proof.
  destruct q as [a b]. unfold trunc, Qle, Qlt, Qminus, Qplus, Qopp, inject_Z. simpl.
  intros Ha.
  assert (Ha' : (a <= 0)%Z) by lia.
  pose proof (Z.quot_rem' a (Zpos b)) as E.
  pose proof (Z.rem_bound_pos_neg a (Zpos b) (Pos2Z.is_pos b) Ha') as R.
  assert (a ÷ Zpos b <= 0)%Z.
  { rewrite <- (Z.opp_involutive a), Z.quot_opp_l by lia.
    assert (0 <= - a ÷ Zpos b)%Z by (apply Z.quot_pos; lia). lia. }
  repeat split; nia.
Qed.

Lemma ToInt16_small (q : Q) :
  (-32768 <= trunc q <= 32767)%Z -> ToInt16 q = trunc q.
Proof.
  intros H. unfold ToInt16.
  destruct (Z_lt_le_dec (trunc q) 0) as [Hn|Hp].
  - replace (trunc q mod 65536)%Z with (trunc q + 65536)%Z.
    + destruct (Z.geb_spec (trunc q + 65536) 32768); lia.
    + apply Z.mod_unique with (q := (-1)%Z); lia.
  - rewrite Z.mod_small by lia.
    destruct (Z.geb_spec (trunc q) 32768); lia.
Qed.

Lemma inject_Z_le_inv (a b : Z) : inject_Z a <= inject_Z b -> (a <= b)%Z.
Proof. rewrite <- Zle_Qle. trivial. Qed.

Lemma inject_Z_lt_inv (a b : Z) : inject_Z a < inject_Z b -> (a < b)%Z.
Proof. rewrite <- Zlt_Qlt. trivial. Qed.

Lemma scale_trunc_range (s : Q) :
  -1 <= s <= 1 -> (-32768 <= trunc (scale s) <= 32767)%Z.
Proof.
  intros Hs. unfold scale.
  destruct (Qlt_le_dec s 0) as [Hn|Hp].
  - destruct (trunc_nonpos (s * 32768)) as [H1 [H2 H3]]; [nra|].
    split; [|lia].
    apply inject_Z_le_inv.
    eapply Qle_trans; [|apply H3]. change (inject_Z (-32768)) with (-32768). nra.
  - destruct (trunc_nonneg (s * 32767)) as [H1 [H2 H3]]; [nra|].
    split; [lia|].
    apply inject_Z_le_inv.
    eapply Qle_trans; [apply H2|]. change (inject_Z 32767) with 32767. nra.
Qed.

Lemma floatToPCM16_clamps_sample (x : Q) :
  let s := clamp x in
  -1 <= s <= 1
  /\ (-1 <= x <= 1 -> s == x) /\ (1 <= x -> s == 1) /\ (x <= -1 -> s == -1)
  /\ floatToPCM16_sample x
     = (if Qlt_le_dec s 0 then trunc (s * 32768) else trunc (s * 32767))
  /\ (-32768 <= floatToPCM16_sample x <= 32767)%Z.
Proof.
  intros s. subst s.
  pose proof (clamp_range x) as Hr.
  pose proof (scale_trunc_range _ Hr) as Ht.
  assert (E : floatToPCM16_sample x = trunc (scale (clamp x)))
    by (apply ToInt16_small; exact Ht).
  repeat split; try (apply Hr).
  - apply clamp_inside.
  - apply clamp_above.
  - apply clamp_below.
  - rewrite E. unfold scale. destruct (Qlt_le_dec (clamp x) 0); reflexivity.
  - rewrite E. apply Ht.
  - rewrite E. apply Ht.
Qed.

(** The stored sample is the scaled value with its fraction dropped: the
    integer next to the product on the side of zero. *)
Lemma floatToPCM16_sample_truncates (x : Q) :
  let s := clamp x in
  let sample := floatToPCM16_sample x in
  (s < 0 ->
   (sample <= 0)%Z
   /\ inject_Z sample - 1 < s * 32768 <= inject_Z sample)
  /\ (0 <= s ->
      (0 <= sample)%Z
      /\ inject_Z sample <= s * 32767 < inject_Z sample + 1).
Proof.
  intros s sample.
  destruct (floatToPCM16_clamps_sample x) as (_ & _ & _ & _ & E & _).
  fold s in E. fold sample in E.
  split; intros Hs; rewrite E; destruct (Qlt_le_dec s 0) as [Hn|Hp]; try lra.
  - apply trunc_nonpos. lra.
  - apply trunc_nonneg. lra.
Qed.

(** C4.  For every finite sample the capture-side conversion clamps to
    [-1,1] (values outside are clipped to the nearer bound), scales a
    negative clamped value by 32768 and a non-negative one by 32767, and
    stores the truncated product without wrap-around as one signed 16-bit
    sample per input; the conversion is a total function.  Truncation is
    toward zero: the stored sample of a negative clamped value [s] is the
    least integer not below [s * 32768], that of a non-negative one the
    greatest integer not above [s * 32767]. *)
Theorem floatToPCM16_clamps_and_scales :
  (forall x : Q,
      let s := clamp x in
      -1 <= s <= 1
      /\ (-1 <= x <= 1 -> s == x) /\ (1 <= x -> s == 1) /\ (x <= -1 -> s == -1)
      /\ floatToPCM16_sample x
         = (if Qlt_le_dec s 0 then trunc (s * 32768) else trunc (s * 32767))
      /\ (-32768 <= floatToPCM16_sample x <= 32767)%Z
      /\ (s < 0 ->
          (floatToPCM16_sample x <= 0)%Z
          /\ inject_Z (floatToPCM16_sample x) - 1 < s * 32768
             <= inject_Z (floatToPCM16_sample x))
      /\ (0 <= s ->
          (0 <= floatToPCM16_sample x)%Z
          /\ inject_Z (floatToPCM16_sample x) <= s * 32767
             < inject_Z (floatToPCM16_sample x) + 1))
  /\ (forall inputData : list Q,
         List.length (floatToPCM16 inputData) = List.length inputData
         /\ forall i x, nth_error inputData i = Some x ->
              nth_error (floatToPCM16 inputData) i = Some (floatToPCM16_sample x)).
Proof.
  split.
  - intros x s.
    destruct (floatToPCM16_clamps_sample x) as (H1 & H2 & H3 & H4 & H5 & H6).
    destruct (floatToPCM16_sample_truncates x) as (H7 & H8).
    repeat (split; [assumption|]). assumption.
  - intros inputData. split.
    + apply length_map.
    + intros i x H. unfold floatToPCM16. rewrite nth_error_map, H. reflexivity.
Qed.

(** ** Properties of the decoder *)

Lemma decode_close_from_spec (count : nat) :
  forall lo, decode_close_from count lo = true ->
  forall n, (lo <= n < lo + Z.of_nat count)%Z -> decode_close n = true.
Proof.
  induction count as [|c IH]; intros lo H n Hn.
  - simpl in Hn. lia.
  - simpl in H. apply andb_prop in H. destruct H as [H1 H2].
    destruct (Z.eq_dec n lo) as [->|Hne]; [exact H1|].
    apply (IH (lo + 1)%Z H2). lia.
Qed.

(** Every one of the 65536 Int16 values decodes to a finite binary32 number
    within half a unit in the last place of the exact quotient. *)
Lemma decode_close_all : decode_close_from (Pos.to_nat 65536) (-32768) = true.
Proof. vm_compute. reflexivity. Qed.

Lemma pcm16ToFloat_sample_finite (n : Z) :
  (-32768 <= n <= 32767)%Z -> is_finite (pcm16ToFloat_sample n) = true.
Proof.
  intros Hn.
  assert (H : decode_close n = true).
  { apply (decode_close_from_spec _ _ decode_close_all). rewrite positive_nat_Z. lia. }
  unfold decode_close in H. apply andb_prop in H. apply H.
Qed.

Lemma pcm16ToFloat_sample_close (n : Z) :
  (-32768 <= n <= 32767)%Z ->
  Qabs (SF2Q (pcm16ToFloat_sample n) - exact_quotient n) <= half_ulp32.
Proof.
  intros Hn.
  assert (H : decode_close n = true).
  { apply (decode_close_from_spec _ _ decode_close_all). rewrite positive_nat_Z. lia. }
  unfold decode_close in H. apply andb_prop in H. destruct H as [_ H].
  apply Qle_bool_iff. exact H.
Qed.

(** The encoder lands within one step of its scale below the sample's
    magnitude. *)
Lemma encode_within_step (x : Q) :
  -1 <= x <= 1 ->
  Qabs (exact_quotient (floatToPCM16_sample x) - x) < quantization_step x.
Proof.
  intros Hx.
  destruct (floatToPCM16_clamps_sample x) as (Hr & Hin & _ & _ & E & Hb).
  specialize (Hin Hx).
  unfold quantization_step.
  destruct (Qlt_le_dec x 0) as [Hneg|Hpos].
  - destruct (Qlt_le_dec (clamp x) 0) as [_|Hc]; [|lra].
    destruct (trunc_nonpos (clamp x * 32768)) as (H1 & H2 & H3); [nra|].
    rewrite <- E in H1, H2, H3.
    set (n := floatToPCM16_sample x) in *.
    unfold exact_quotient.
    destruct (Z.ltb_spec n 0) as [Hn|Hn].
    + assert (Eq : (n # 32768) == inject_Z n * (1 # 32768))
        by (unfold Qeq, Qmult, inject_Z; simpl; lia).
      rewrite Eq. apply Qabs_Qlt_condition. split; lra.
    + assert (n = 0%Z) by lia. subst n. rewrite H in *.
      change (inject_Z 0) with 0 in *.
      assert (Eq : (0 # 32767) == 0) by reflexivity.
      rewrite Eq. apply Qabs_Qlt_condition. split; lra.
  - destruct (Qlt_le_dec (clamp x) 0) as [Hc|_]; [lra|].
    destruct (trunc_nonneg (clamp x * 32767)) as (H1 & H2 & H3); [nra|].
    rewrite <- E in H1, H2, H3.
    set (n := floatToPCM16_sample x) in *.
    unfold exact_quotient.
    destruct (Z.ltb_spec n 0) as [Hn|Hn]; [lia|].
    assert (Eq : (n # 32767) == inject_Z n * (1 # 32767))
      by (unfold Qeq, Qmult, inject_Z; simpl; lia).
    rewrite Eq. apply Qabs_Qlt_condition. split; lra.
Qed.

Lemma roundtrip_sample (x : Q) :
  -1 <= x <= 1 ->
  let y := pcm16ToFloat_sample (floatToPCM16_sample x) in
  is_finite y = true
  /\ Qabs (SF2Q y - x) < quantization_step x + half_ulp32.
Proof.
  intros Hx y. subst y.
  destruct (floatToPCM16_clamps_sample x) as (_ & _ & _ & _ & _ & Hb).
  split; [apply pcm16ToFloat_sample_finite; exact Hb|].
  pose proof (pcm16ToFloat_sample_close _ Hb) as H1.
  pose proof (encode_within_step _ Hx) as H2.
  set (d := SF2Q (pcm16ToFloat_sample (floatToPCM16_sample x))) in *.
  set (e := exact_quotient (floatToPCM16_sample x)) in *.
  apply Qabs_Qle_condition in H1. apply Qabs_Qlt_condition in H2.
  apply Qabs_Qlt_condition. split; lra.
Qed.

(** C5.  For every sequence of samples within [-1,1], encoding with the
    capture-side conversion and decoding with the playback-side conversion
    yields, pointwise, a finite sample whose distance from the original is
    below one quantization step of the scale in use (1/32768 for negative,
    1/32767 for non-negative samples) plus the rounding of the Float32 store
    (at most 2^-25); the bound is within 0.2 percent of 1/32768. *)
Theorem roundtrip_within_one_step (inputData : list Q) :
  Forall (fun x => -1 <= x <= 1) inputData ->
  Forall2 (fun x y =>
             is_finite y = true
             /\ Qabs (SF2Q y - x) < quantization_step x + half_ulp32
             /\ quantization_step x + half_ulp32 < (1 # 32768) * 1.002)
          inputData (pcm16ToFloat (floatToPCM16 inputData)).
Proof.
  induction 1 as [|x l Hx Hl IH]; simpl; constructor; [|exact IH].
  destruct (roundtrip_sample _ Hx) as [H1 H2].
  repeat split; [exact H1|exact H2|].
  unfold quantization_step, half_ulp32.
  destruct (Qlt_le_dec x 0); reflexivity.
Qed.

Lemma roundtrip_within_one_step_witness :
  Forall2 (fun x y =>
             is_finite y = true
             /\ Qabs (SF2Q y - x) < quantization_step x + half_ulp32
             /\ quantization_step x + half_ulp32 < (1 # 32768) * 1.002)
          [0.5; -0.25; 1] (pcm16ToFloat (floatToPCM16 [0.5; -0.25; 1])).
Proof.
  apply (roundtrip_within_one_step [0.5; -0.25; 1]).
  repeat constructor; unfold Qle; simpl; lia.
Defined.

(** The step 1/32768 itself is exceeded on the non-negative side: the sample
    2^-15 (1 + 2^-20) is a Float32 value, it encodes to 0 and decodes to 0. *)
Example roundtrip_exceeds_exact_step :
  let x := 1048577 # 34359738368 in
  floatToPCM16_sample x = 0%Z
  /\ pcm16ToFloat_sample 0 = S754_zero false
  /\ (1 # 32768) < Qabs (SF2Q (pcm16ToFloat_sample (floatToPCM16_sample x)) - x).
Proof. vm_compute. repeat split. Qed.


(** ** Further properties of the converters *)

Lemma clamp_monotone (x y : Q) : x <= y -> clamp x <= clamp y.
Proof.
  intros H. unfold clamp.
  destruct (Q.max_spec (-1) (Qmin 1 x)) as [[H1 H2]|[H1 H2]];
    destruct (Q.min_spec 1 x) as [[H3 H4]|[H3 H4]];
    destruct (Q.max_spec (-1) (Qmin 1 y)) as [[H5 H6]|[H5 H6]];
    destruct (Q.min_spec 1 y) as [[H7 H8]|[H7 H8]]; lra.
Qed.

Lemma scale_monotone (s t : Q) : -1 <= s -> s <= t -> t <= 1 -> scale s <= scale t.
Proof.
  intros Hs Hst Ht. unfold scale.
  destruct (Qlt_le_dec s 0), (Qlt_le_dec t 0); lra.
Qed.

Lemma Zle_of_Qlt_succ (a b : Z) : inject_Z a < inject_Z b + 1 -> (a <= b)%Z.
Proof.
  intros H. assert (inject_Z a < inject_Z (b + 1)).
  { rewrite inject_Z_plus. change (inject_Z 1) with 1. exact H. }
  apply inject_Z_lt_inv in H0. lia.
Qed.

Lemma inject_Z_pred (n : Z) : inject_Z (n - 1) == inject_Z n - 1.
Proof. unfold Qeq, Qminus, Qplus, Qopp, inject_Z. simpl. lia. Qed.

Lemma trunc_monotone (q r : Q) : q <= r -> (trunc q <= trunc r)%Z.
Proof.
  intros H.
  destruct (Qlt_le_dec q 0) as [Hq|Hq]; destruct (Qlt_le_dec r 0) as [Hr|Hr].
  - destruct (trunc_nonpos q) as (_ & A & _); [lra|].
    destruct (trunc_nonpos r) as (_ & _ & B); [lra|].
    apply Zle_of_Qlt_succ. lra.
  - destruct (trunc_nonpos q) as (A & _); [lra|].
    destruct (trunc_nonneg r) as (B & _); [lra|]. lia.
  - lra.
  - destruct (trunc_nonneg q) as (_ & A & _); [lra|].
    destruct (trunc_nonneg r) as (_ & _ & B); [lra|].
    apply Zle_of_Qlt_succ. lra.
Qed.

Lemma floatToPCM16_sample_trunc (x : Q) :
  floatToPCM16_sample x = trunc (scale (clamp x)).
Proof. apply ToInt16_small, scale_trunc_range, clamp_range. Qed.

(** The encoder preserves the order of samples: a louder positive (or
    quieter negative) sample never gets a smaller code. *)
Theorem floatToPCM16_monotone (x y : Q) :
  x <= y -> (floatToPCM16_sample x <= floatToPCM16_sample y)%Z.
Proof.
  intros H. rewrite !floatToPCM16_sample_trunc.
  apply trunc_monotone, scale_monotone.
  - apply clamp_range.
  - apply clamp_monotone, H.
  - apply clamp_range.
Qed.

Lemma floatToPCM16_monotone_witness :
  (floatToPCM16_sample (-0.5) <= floatToPCM16_sample 0.25)%Z.
Proof. apply (floatToPCM16_monotone (-0.5) 0.25). unfold Qle; simpl; lia. Defined.

Lemma trunc_of_integer (q : Q) (z : Z) : q == inject_Z z -> trunc q = z.
Proof.
  intros E. destruct (Z_lt_le_dec z 0) as [Hz|Hz].
  - assert (Hz' : inject_Z z <= inject_Z 0) by (rewrite <- Zle_Qle; lia).
    change (inject_Z 0) with 0 in Hz'.
    assert (Hq : q <= 0) by lra.
    destruct (trunc_nonpos q Hq) as (_ & A & B).
    assert (trunc q <= z)%Z by (apply Zle_of_Qlt_succ; lra).
    assert (B' : inject_Z z <= inject_Z (trunc q)) by lra.
    apply inject_Z_le_inv in B'. lia.
  - assert (Hz' : inject_Z 0 <= inject_Z z) by (rewrite <- Zle_Qle; lia).
    change (inject_Z 0) with 0 in Hz'.
    assert (Hq : 0 <= q) by lra.
    destruct (trunc_nonneg q Hq) as (_ & A & B).
    assert (z <= trunc q)%Z by (apply Zle_of_Qlt_succ; lra).
    assert (A' : inject_Z (trunc q) <= inject_Z z) by lra.
    apply inject_Z_le_inv in A'. lia.
Qed.

(** Out-of-range input saturates: everything at or above 1 encodes to 32767
    and everything at or below -1 to -32768; a sample of magnitude below
    1/32768 encodes to 0. *)
Theorem floatToPCM16_saturates (x : Q) :
  (1 <= x -> floatToPCM16_sample x = 32767%Z)
  /\ (x <= -1 -> floatToPCM16_sample x = (-32768)%Z)
  /\ (- (1 # 32768) < x < 1 # 32768 -> floatToPCM16_sample x = 0%Z).
Proof.
  rewrite floatToPCM16_sample_trunc. repeat split.
  - intros H. apply trunc_of_integer. pose proof (clamp_above x H) as E.
    unfold scale. destruct (Qlt_le_dec (clamp x) 0); [lra|].
    rewrite E. reflexivity.
  - intros H. apply trunc_of_integer. pose proof (clamp_below x H) as E.
    unfold scale. destruct (Qlt_le_dec (clamp x) 0); [|lra].
    rewrite E. reflexivity.
  - intros [H1 H2].
    assert (E : clamp x == x) by (apply clamp_inside; lra).
    unfold scale. destruct (Qlt_le_dec (clamp x) 0).
    + destruct (trunc_nonpos (clamp x * 32768)) as (A & B & C); [lra|].
      assert (inject_Z (-1) < inject_Z (trunc (clamp x * 32768)))
        by (change (inject_Z (-1)) with (-1); lra).
      apply inject_Z_lt_inv in H. lia.
    + destruct (trunc_nonneg (clamp x * 32767)) as (A & B & C); [lra|].
      assert (inject_Z (trunc (clamp x * 32767)) < inject_Z 1)
        by (change (inject_Z 1) with 1; lra).
      apply inject_Z_lt_inv in H. lia.
Qed.

Lemma exact_quotient_bounds (n : Z) :
  (-32768 <= n <= 32767)%Z ->
  (n < 0 -> exact_quotient n == inject_Z n * (1 # 32768))%Z
  /\ (0 <= n -> exact_quotient n == inject_Z n * (1 # 32767))%Z.
Proof.
  intros Hn. unfold exact_quotient. split; intros H.
  - destruct (Z.ltb_spec n 0); [|lia]. unfold Qeq, Qmult, inject_Z; simpl; lia.
  - destruct (Z.ltb_spec n 0); [lia|]. unfold Qeq, Qmult, inject_Z; simpl; lia.
Qed.

Lemma decoded_sample_bounds (n : Z) :
  (-32768 <= n <= 32767)%Z ->
  let y := SF2Q (pcm16ToFloat_sample n) in
  is_finite (pcm16ToFloat_sample n) = true
  /\ -1 <= y <= 1
  /\ ((n < 0)%Z -> y < 0) /\ (n = 0%Z -> y == 0) /\ ((0 < n)%Z -> 0 < y)
  /\ SF2Q (pcm16ToFloat_sample (-32768)) == -1
  /\ SF2Q (pcm16ToFloat_sample 32767) == 1.
Proof.
  intros Hn y. subst y.
  pose proof (pcm16ToFloat_sample_close n Hn) as Hc.
  apply Qabs_Qle_condition in Hc. unfold half_ulp32 in Hc.
  destruct (exact_quotient_bounds n Hn) as [En Ep].
  set (y := SF2Q (pcm16ToFloat_sample n)) in *.
  assert (Hlo : inject_Z (-32768) <= inject_Z n) by (rewrite <- Zle_Qle; lia).
  assert (Hhi : inject_Z n <= inject_Z 32767) by (rewrite <- Zle_Qle; lia).
  change (inject_Z (-32768)) with (-32768) in Hlo.
  change (inject_Z 32767) with 32767 in Hhi.
  split; [apply pcm16ToFloat_sample_finite; exact Hn|].
  assert (E1 : SF2Q (pcm16ToFloat_sample (-32768)) == -1) by (vm_compute; reflexivity).
  assert (E2 : SF2Q (pcm16ToFloat_sample 32767) == 1) by (vm_compute; reflexivity).
  split; [|split; [|split; [|split; [|split]]]]; try assumption.
  - destruct (Z_lt_le_dec n 0) as [Hneg|Hpos].
    + specialize (En Hneg). rewrite En in Hc.
      destruct (Z.eq_dec n (-32768)) as [->|Hne]; [subst y; lra|].
      assert (inject_Z (-32767) <= inject_Z n) by (rewrite <- Zle_Qle; lia).
      change (inject_Z (-32767)) with (-32767) in H.
      assert (inject_Z n <= inject_Z (-1)) by (rewrite <- Zle_Qle; lia).
      change (inject_Z (-1)) with (-1) in H0. lra.
    + specialize (Ep Hpos). rewrite Ep in Hc.
      destruct (Z.eq_dec n 32767) as [->|Hne]; [subst y; lra|].
      assert (inject_Z n <= inject_Z 32766) by (rewrite <- Zle_Qle; lia).
      change (inject_Z 32766) with 32766 in H.
      assert (inject_Z 0 <= inject_Z n) by (rewrite <- Zle_Qle; lia).
      change (inject_Z 0) with 0 in H0. lra.
  - intros Hneg. specialize (En Hneg). rewrite En in Hc.
    assert (inject_Z n <= inject_Z (-1)) by (rewrite <- Zle_Qle; lia).
    change (inject_Z (-1)) with (-1) in H. lra.
  - intros ->. subst y. vm_compute. reflexivity.
  - intros Hpos. assert (Hp : (0 <= n)%Z) by lia. specialize (Ep Hp). rewrite Ep in Hc.
    assert (inject_Z 1 <= inject_Z n) by (rewrite <- Zle_Qle; lia).
    change (inject_Z 1) with 1 in H. lra.
Qed.

(** Every decoded sample is a finite number in [-1,1] with the sign of its
    code; the extreme codes decode to exactly -1 and 1. *)
Theorem pcm16ToFloat_range (n : Z) :
  (-32768 <= n <= 32767)%Z ->
  let y := SF2Q (pcm16ToFloat_sample n) in
  is_finite (pcm16ToFloat_sample n) = true
  /\ -1 <= y <= 1
  /\ ((n < 0)%Z -> y < 0) /\ (n = 0%Z -> y == 0) /\ ((0 < n)%Z -> 0 < y)
  /\ SF2Q (pcm16ToFloat_sample (-32768)) == -1
  /\ SF2Q (pcm16ToFloat_sample 32767) == 1.
Proof. intros Hn. apply decoded_sample_bounds. exact Hn. Qed.

Lemma pcm16ToFloat_range_witness :
  let y := SF2Q (pcm16ToFloat_sample 12345) in
  is_finite (pcm16ToFloat_sample 12345) = true
  /\ -1 <= y <= 1
  /\ ((12345 < 0)%Z -> y < 0) /\ (12345%Z = 0%Z -> y == 0) /\ ((0 < 12345)%Z -> 0 < y)
  /\ SF2Q (pcm16ToFloat_sample (-32768)) == -1
  /\ SF2Q (pcm16ToFloat_sample 32767) == 1.
Proof. apply (pcm16ToFloat_range 12345). lia. Defined.

(** Decoding and encoding again returns the code or its neighbour toward
    zero: the Float32 rounding of n/32767 may fall just below n/32767, and
    truncation then loses one unit. *)
Theorem reencode_within_one (n : Z) :
  (-32768 <= n <= 32767)%Z ->
  let m := floatToPCM16_sample (SF2Q (pcm16ToFloat_sample n)) in
  ((0 <= n)%Z -> (n - 1 <= m <= n)%Z /\ (0 <= m)%Z)
  /\ ((n <= 0)%Z -> (n <= m <= n + 1)%Z /\ (m <= 0)%Z).
Proof.
  intros Hn m. subst m.
  destruct (decoded_sample_bounds n Hn) as (_ & Hr & Hneg & Hzero & Hpos & _).
  pose proof (pcm16ToFloat_sample_close n Hn) as Hc.
  apply Qabs_Qle_condition in Hc. unfold half_ulp32 in Hc.
  destruct (exact_quotient_bounds n Hn) as [En Ep].
  set (y := SF2Q (pcm16ToFloat_sample n)) in *.
  rewrite floatToPCM16_sample_trunc.
  assert (Ey : clamp y == y) by (apply clamp_inside; exact Hr).
  assert (Hlo : inject_Z (-32768) <= inject_Z n) by (rewrite <- Zle_Qle; lia).
  assert (Hhi : inject_Z n <= inject_Z 32767) by (rewrite <- Zle_Qle; lia).
  change (inject_Z (-32768)) with (-32768) in Hlo.
  change (inject_Z 32767) with 32767 in Hhi.
  split; intros Hs.
  - destruct (Z.eq_dec n 0) as [->|Hne].
    + assert (Hm : trunc (scale (clamp y)) = 0%Z) by (subst y; vm_compute; reflexivity).
      rewrite Hm. lia.
    + assert (Hp : (0 < n)%Z) by lia. specialize (Hpos Hp). specialize (Ep Hs).
      rewrite Ep in Hc. unfold scale.
      destruct (Qlt_le_dec (clamp y) 0); [lra|].
      destruct (trunc_nonneg (clamp y * 32767)) as (A & B & C); [lra|].
      set (t := trunc (clamp y * 32767)) in *.
      assert (H1 : (n - 1 <= t)%Z).
      { apply Zle_of_Qlt_succ. pose proof (inject_Z_pred n). lra. }
      assert (H2 : (t <= n)%Z) by (apply Zle_of_Qlt_succ; lra).
      lia.
  - destruct (Z.eq_dec n 0) as [->|Hne].
    + assert (Hm : trunc (scale (clamp y)) = 0%Z) by (subst y; vm_compute; reflexivity).
      rewrite Hm. lia.
    + assert (Hp : (n < 0)%Z) by lia. specialize (Hneg Hp). specialize (En Hp).
      rewrite En in Hc. unfold scale.
      destruct (Qlt_le_dec (clamp y) 0); [|lra].
      destruct (trunc_nonpos (clamp y * 32768)) as (A & B & C); [lra|].
      set (t := trunc (clamp y * 32768)) in *.
      assert (H1 : (t - 1 <= n)%Z).
      { apply Zle_of_Qlt_succ. pose proof (inject_Z_pred t). lra. }
      assert (H2 : (n <= t)%Z) by (apply Zle_of_Qlt_succ; lra).
      lia.
Qed.

Lemma reencode_within_one_witness :
  let m := floatToPCM16_sample (SF2Q (pcm16ToFloat_sample 1)) in
  ((0 <= 1)%Z -> (1 - 1 <= m <= 1)%Z /\ (0 <= m)%Z)
  /\ ((1 <= 0)%Z -> (1 <= m <= 1 + 1)%Z /\ (m <= 0)%Z).
Proof. apply (reencode_within_one 1). lia. Defined.

(** The one-unit loss does occur: code 1 decodes to a value just below
    1/32767 and encodes back to 0. *)
Example reencode_loses_one_unit :
  floatToPCM16_sample (SF2Q (pcm16ToFloat_sample 1)) = 0%Z.
Proof. vm_compute. reflexivity. Qed.

End PCMFacts.

(* ================================================================== *)
(** * Voice-activity detection: properties *)
(* ================================================================== *)

Module VADFacts.
Import VAD.

Lemma voice_events_app (a b : list Callback) :
  voice_events (a ++ b) = voice_events a ++ voice_events b.
Proof. unfold voice_events. apply flat_map_app. Qed.

Lemma audio_events_app (a b : list Callback) :
  audio_events (a ++ b) = audio_events a ++ audio_events b.
Proof. unfold audio_events. apply flat_map_app. Qed.








(** ** Further properties of the capture pipeline *)

Local Open Scope Q_scope.

Lemma onaudioprocess_audio (c : Capture) (w : bool) (f : Frame) :
  wasActive c = Some w -> onAudioDataCallback c = true ->
  onAudioDataCallback (fst (onaudioprocess c f)) = true
  /\ (exists w', wasActive (fst (onaudioprocess c f)) = Some w')
  /\ audio_events (snd (onaudioprocess c f)) = [PCM.floatToPCM16 f].
Proof.
  intros Hp Hcb. unfold onaudioprocess, onaudioprocess_body. rewrite Hp, Hcb.
  cbn [fst snd onAudioDataCallback wasActive].
  split; [reflexivity|]. split; [eexists; reflexivity|].
  rewrite audio_events_app.
  destruct (onVoiceActivityCallback c && _); reflexivity.
Qed.

(** Every captured frame is handed to the audio callback exactly once, in
    capture order and PCM16-encoded sample for sample, whatever the voice
    activity. *)
Theorem every_frame_forwarded (c : Capture) (w : bool) (frames : list Frame) :
  wasActive c = Some w -> onAudioDataCallback c = true ->
  audio_events (snd (capture_frames c frames)) = map PCM.floatToPCM16 frames
  /\ Forall2 (fun f pcm16 => List.length pcm16 = List.length f)
             frames (audio_events (snd (capture_frames c frames))).
Proof.
  intros Hp Hcb.
  assert (E : audio_events (snd (capture_frames c frames)) = map PCM.floatToPCM16 frames).
  { revert c w Hp Hcb. induction frames as [|f rest IH]; intros c w Hp Hcb; [reflexivity|].
    destruct (onaudioprocess_audio c w f Hp Hcb) as (Hcb1 & [w' Hp1] & Hev).
    cbn [capture_frames map]. destruct (onaudioprocess c f) as [c1 cbs1].
    cbn [fst snd] in *. specialize (IH c1 w' Hp1 Hcb1).
    destruct (capture_frames c1 rest) as [c2 cbs2]. cbn [snd] in *.
    rewrite audio_events_app, Hev, IH. reflexivity. }
  split; [exact E|]. rewrite E. clear.
  induction frames as [|f rest IH]; constructor; [|exact IH].
  unfold PCM.floatToPCM16. apply length_map.
Qed.

Lemma every_frame_forwarded_witness :
  let c := startAudioCapture_setup initial false in
  let frames := [[0.5; -2]; []; [0.01]] in
  audio_events (snd (capture_frames c frames)) = map PCM.floatToPCM16 frames
  /\ Forall2 (fun f pcm16 => List.length pcm16 = List.length f)
             frames (audio_events (snd (capture_frames c frames))).
Proof.
  apply (every_frame_forwarded (startAudioCapture_setup initial false) false
           [[0.5; -2]; []; [0.01]]); reflexivity.
Defined.

(** Frames delivered to a capture without audio callback invoke nothing
    but the voice-activity callback. *)
Lemma capture_frames_no_audio (frames : list Frame) :
  forall c : Capture,
    onAudioDataCallback c = false ->
    audio_events (snd (capture_frames c frames)) = [].
Proof.
  induction frames as [|f rest IH]; intros c Hc; [reflexivity|].
  cbn [capture_frames].
  assert (H1 : onAudioDataCallback (fst (onaudioprocess c f)) = false
               /\ audio_events (snd (onaudioprocess c f)) = []).
  { unfold onaudioprocess, onaudioprocess_body.
    destruct (wasActive c) as [w|]; [|split; [exact Hc|reflexivity]].
    rewrite Hc. cbn [fst snd onAudioDataCallback]. split; [reflexivity|].
    destruct (onVoiceActivityCallback c && _); reflexivity. }
  destruct (onaudioprocess c f) as [c1 cbs1]. cbn [fst snd] in H1.
  destruct H1 as [H1 H2]. specialize (IH c1 H1).
  destruct (capture_frames c1 rest) as [c2 cbs2]. cbn [snd] in *.
  rewrite audio_events_app, H2, IH. reflexivity.
Qed.

(** The voice-activity side of the handler depends on the closure variable,
    the threshold and the voice-activity callback only. *)
Lemma capture_frames_voice_congruence (frames : list Frame) :
  forall c d : Capture,
    wasActive c = wasActive d ->
    voiceActivityThreshold c = voiceActivityThreshold d ->
    onVoiceActivityCallback c = onVoiceActivityCallback d ->
    voice_events (snd (capture_frames c frames))
    = voice_events (snd (capture_frames d frames)).
Proof.
  induction frames as [|f rest IH]; intros c d Hw Ht Hv; [reflexivity|].
  cbn [capture_frames].
  assert (H1 : wasActive (fst (onaudioprocess c f))
               = wasActive (fst (onaudioprocess d f))
               /\ voiceActivityThreshold (fst (onaudioprocess c f))
                  = voiceActivityThreshold (fst (onaudioprocess d f))
               /\ onVoiceActivityCallback (fst (onaudioprocess c f))
                  = onVoiceActivityCallback (fst (onaudioprocess d f))
               /\ voice_events (snd (onaudioprocess c f))
                  = voice_events (snd (onaudioprocess d f))).
  { unfold onaudioprocess, onaudioprocess_body. rewrite <- Hw, <- Ht, <- Hv.
    destruct (wasActive c) as [w|] eqn:Ec; cbn [fst snd];
      [|repeat split; congruence].
    cbn [wasActive voiceActivityThreshold onVoiceActivityCallback].
    repeat split; try assumption.
    rewrite !voice_events_app.
    destruct (onAudioDataCallback c), (onAudioDataCallback d);
      cbn; rewrite ?app_nil_r; reflexivity. }
  destruct (onaudioprocess c f) as [c1 cbs1].
  destruct (onaudioprocess d f) as [d1 ds1]. cbn [fst snd] in H1.
  destruct H1 as (H1 & H2 & H3 & H4). specialize (IH c1 d1 H1 H2 H3).
  destruct (capture_frames c1 rest) as [c2 cbs2].
  destruct (capture_frames d1 rest) as [d2 ds2]. cbn [snd] in *.
  rewrite !voice_events_app, H4, IH. reflexivity.
Qed.

(** After [stopAudioCapture] no frame reaches the audio callback.  The
    handler and the voice-activity callback are not removed: a frame that is
    still delivered invokes the voice-activity callback as it would have
    without the stop.  Stopping again changes nothing. *)
Theorem stopped_capture_sends_no_audio (c : Capture) (frames : list Frame) :
  audio_events (snd (capture_frames (stopAudioCapture c) frames)) = []
  /\ voice_events (snd (capture_frames (stopAudioCapture c) frames))
     = voice_events (snd (capture_frames c frames))
  /\ stopAudioCapture (stopAudioCapture c) = stopAudioCapture c.
Proof.
  split; [apply capture_frames_no_audio; reflexivity|].
  split; [apply capture_frames_voice_congruence; reflexivity|reflexivity].
Qed.

End VADFacts.

(* ================================================================== *)
(** * Playback scheduler: properties *)
(* ================================================================== *)

Module PlaybackFacts.
Import Playback.
Local Open Scope Q_scope.

Lemma pcm16ToFloat_length (a : list Z) :
  List.length (PCM.pcm16ToFloat a) = List.length a.
Proof. apply length_map. Qed.

Lemma buffer_duration_decoded (a : list Z) :
  buffer_duration (PCM.pcm16ToFloat a) = frame_duration a.
Proof. unfold buffer_duration, frame_duration. rewrite pcm16ToFloat_length. reflexivity. Qed.

Lemma frame_duration_nonneg (a : list Z) : 0 <= frame_duration a.
Proof.
  unfold frame_duration, sampleRate, Qdiv.
  apply Qmult_le_0_compat; [|discriminate].
  change 0 with (inject_Z 0). rewrite <- Zle_Qle. lia.
Qed.

Lemma ensure_context_idem (st : State) (t : Q) :
  ensure_context (ensure_context st t) t = ensure_context st t.
Proof. unfold ensure_context. destruct (playbackAudioContext st) eqn:E; simpl; rewrite ?E; reflexivity. Qed.

Lemma ensure_context_present (st : State) (t : Q) :
  playbackAudioContext st = true -> ensure_context st t = st.
Proof. unfold ensure_context. intros ->. reflexivity. Qed.

Lemma ensure_context_fields (st : State) (t : Q) :
  playbackAudioContext (ensure_context st t) = true
  /\ scheduledSources (ensure_context st t) = scheduledSources st
  /\ nodes (ensure_context st t) = nodes st.
Proof. unfold ensure_context. destruct (playbackAudioContext st) eqn:E; simpl; auto. Qed.

(** What one successful [playAudio] does to the state. *)
Lemma playAudio_nonempty (st : State) (t : Q) (a : list Z) :
  a <> [] ->
  let st1 := ensure_context st t in
  let start := Qmax (nextStartTime st1) t in
  playAudio st t a =
  ({| playbackAudioContext := true;
      playbackAnalyser := playbackAnalyser st1;
      nextStartTime := start + frame_duration a;
      scheduledSources := scheduledSources st ++ [List.length (nodes st)];
      nodes := nodes st ++ [{| buffer := PCM.pcm16ToFloat a;
                               startTime := start;
                               stopped := false |}] |},
   Some (List.length (nodes st))).
Proof.
  intros Ha st1 start. unfold playAudio. fold st1.
  destruct (ensure_context_fields st t) as (Hc & Hs & Hn). fold st1 in Hc, Hs, Hn.
  rewrite <- (buffer_duration_decoded a).
  destruct a as [|x a']; [contradiction|].
  unfold PCM.pcm16ToFloat at 1. cbn [map].
  rewrite Hc, Hs, Hn. reflexivity.
Qed.

(** An empty frame is rejected; only the context may have been created. *)
Lemma playAudio_empty (st : State) (t : Q) :
  playAudio st t [] = (ensure_context st t, None).
Proof. reflexivity. Qed.

Lemma play_all_context_first (st : State) (t : Q) (a : list Z) (rest : list (Q * list Z)) :
  play_all st ((t, a) :: rest) = play_all (ensure_context st t) ((t, a) :: rest).
Proof.
  cbn [play_all]. unfold playAudio. rewrite ensure_context_idem. reflexivity.
Qed.

(** A run of successful enqueues appends one node per call, scheduled as
    [schedule] says, and returns their references in order. *)
Lemma play_all_spec (calls : list (Q * list Z)) :
  forall st,
    playbackAudioContext st = true ->
    Forall (fun c => snd c <> []) calls ->
    exists new_nodes,
      nodes (fst (play_all st calls)) = nodes st ++ new_nodes
      /\ snd (play_all st calls)
         = map Some (seq (List.length (nodes st)) (List.length calls))
      /\ map startTime new_nodes = schedule (nextStartTime st) calls
      /\ playbackAudioContext (fst (play_all st calls)) = true.
Proof.
  induction calls as [|[t a] rest IH]; intros st Hc Hne.
  - exists []. cbn. rewrite app_nil_r. auto.
  - inversion Hne as [|c l Ha Hrest]; subst. cbn [snd] in Ha.
    cbn [play_all]. rewrite (playAudio_nonempty st t a Ha).
    rewrite (ensure_context_present st t Hc).
    set (st1 := {| playbackAudioContext := true;
                   playbackAnalyser := playbackAnalyser st;
                   nextStartTime := Qmax (nextStartTime st) t + frame_duration a;
                   scheduledSources := scheduledSources st ++ [List.length (nodes st)];
                   nodes := nodes st ++ [{| buffer := PCM.pcm16ToFloat a;
                                            startTime := Qmax (nextStartTime st) t;
                                            stopped := false |}] |}).
    destruct (IH st1 eq_refl Hrest) as (nn & Hn & Hr & Hs & Hctx).
    destruct (play_all st1 rest) as [st2 rs]. cbn [fst snd] in *.
    exists ({| buffer := PCM.pcm16ToFloat a;
               startTime := Qmax (nextStartTime st) t;
               stopped := false |} :: nn).
    repeat split.
    + rewrite Hn. subst st1. cbn [nodes]. rewrite <- app_assoc. reflexivity.
    + rewrite Hr. subst st1. cbn [nodes List.length seq map].
      rewrite length_app. cbn [List.length]. rewrite Nat.add_1_r. reflexivity.
    + cbn [map schedule startTime]. rewrite Hs. reflexivity.
    + exact Hctx.
Qed.

Lemma back_to_back_compat (frames : list (list Z)) :
  forall t t', t == t' -> Forall2 Qeq (back_to_back t frames) (back_to_back t' frames).
Proof.
  induction frames as [|a rest IH]; intros t t' E; cbn; constructor; [exact E|].
  apply IH. rewrite E. reflexivity.
Qed.

Lemma Forall2_Qeq_trans (l1 l2 l3 : list Q) :
  Forall2 Qeq l1 l2 -> Forall2 Qeq l2 l3 -> Forall2 Qeq l1 l3.
Proof.
  intros H. revert l3. induction H as [|x y l l' Hxy Hl IH]; intros l3 H3;
    inversion H3; subst; constructor.
  - eapply Qeq_trans; eassumption.
  - apply IH. assumption.
Qed.

(** With the clock held at [t], the computed schedule is back to back from
    the first start time. *)
Lemma schedule_fixed_clock (frames : list (list Z)) :
  forall wm t,
    Forall2 Qeq (schedule wm (map (pair t) frames))
                (back_to_back (Qmax wm t) frames).
Proof.
  induction frames as [|a rest IH]; intros wm t; cbn; constructor.
  - reflexivity.
  - eapply Forall2_Qeq_trans; [apply IH|].
    apply back_to_back_compat.
    apply Q.max_l.
    pose proof (Q.le_max_r wm t). pose proof (frame_duration_nonneg a). lra.
Qed.


Lemma starts_of_new_nodes (new_nodes : list SourceNode) :
  forall (pre : list SourceNode) (st' : State),
    nodes st' = pre ++ new_nodes ->
    map (start_of st') (map Some (seq (List.length pre) (List.length new_nodes)))
    = map Some (map startTime new_nodes).
Proof.
  induction new_nodes as [|n nn IH]; intros pre st' Hn; [reflexivity|].
  cbn [List.length seq map]. f_equal.
  - unfold start_of. rewrite Hn, nth_error_app2 by lia.
    rewrite Nat.sub_diag. reflexivity.
  - specialize (IH (pre ++ [n]) st').
    rewrite length_app, Nat.add_1_r in IH. apply IH.
    rewrite Hn, <- app_assoc. reflexivity.
Qed.

(** The start times of a run of successful enqueues are those of
    [schedule], taken from the effective watermark of the first call. *)
Lemma play_all_starts (st : State) (t : Q) (a : list Z) (rest : list (Q * list Z)) :
  Forall (fun c => snd c <> []) ((t, a) :: rest) ->
  let res := play_all st ((t, a) :: rest) in
  map (start_of (fst res)) (snd res)
  = map Some (schedule (nextStartTime (ensure_context st t)) ((t, a) :: rest)).
Proof.
  intros Hne res. subst res. rewrite play_all_context_first.
  destruct (ensure_context_fields st t) as (Hc & _ & _).
  destruct (play_all_spec _ (ensure_context st t) Hc Hne) as (nn & Hn & Hr & Hs & _).
  rewrite Hr, <- Hs.
  assert (Hlen : List.length nn = List.length ((t, a) :: rest)).
  { rewrite <- (length_map startTime nn), Hs.
    clear. generalize (nextStartTime (ensure_context st t)).
    induction ((t, a) :: rest) as [|[t' a'] l IH]; intros wm; cbn; auto. }
  pose proof (starts_of_new_nodes nn _ _ Hn) as H.
  rewrite Hlen in H. exact H.
Qed.

(** C7.  Every enqueued (non-empty) frame is scheduled at the maximum of the
    clock reading and the watermark (the watermark being first set to the
    clock when the context is created by this call), its duration is its
    sample count over the rate 24000, and the watermark advances to start
    plus duration.  Hence frames enqueued with the clock held at [t] start
    back to back from [max(watermark, t)]; in particular frames of durations
    d1, d2, d3 enqueued on a fresh service with the clock at 0 start at 0,
    d1 and d1 + d2. *)
Theorem playAudio_back_to_back
    (st : State) (t : Q) (a : list Z) (frames : list (list Z)) (a1 a2 a3 : list Z) :
  a <> [] -> Forall (fun f => f <> []) frames ->
  a1 <> [] -> a2 <> [] -> a3 <> [] ->
  let wm := nextStartTime (ensure_context st t) in
  (exists ref node,
      snd (playAudio st t a) = Some ref
      /\ nth_error (nodes (fst (playAudio st t a))) ref = Some node
      /\ stopped node = false
      /\ startTime node = Qmax wm t
      /\ buffer_duration (buffer node) = frame_duration a
      /\ nextStartTime (fst (playAudio st t a)) = startTime node + frame_duration a
      /\ scheduledSources (fst (playAudio st t a)) = scheduledSources st ++ [ref])
  /\ (let res := play_all st (map (pair t) frames) in
      exists starts,
        map (start_of (fst res)) (snd res) = map Some starts
        /\ Forall2 Qeq starts (back_to_back (Qmax wm t) frames))
  /\ (let res := play_all initial [(0, a1); (0, a2); (0, a3)] in
      exists s1 s2 s3,
        map (start_of (fst res)) (snd res) = [Some s1; Some s2; Some s3]
        /\ s1 == 0 /\ s2 == frame_duration a1
        /\ s3 == frame_duration a1 + frame_duration a2).
Proof.
  intros Ha Hfs H1 H2 H3 wm. split; [|split].
  - rewrite (playAudio_nonempty st t a Ha). cbn [fst snd nodes].
    eexists. eexists.
    split; [reflexivity|].
    split; [rewrite nth_error_app2 by lia; rewrite Nat.sub_diag; reflexivity|].
    cbn [stopped startTime buffer nextStartTime scheduledSources].
    repeat split. apply buffer_duration_decoded.
  - destruct frames as [|f rest].
    + exists []. split; [reflexivity|constructor].
    + exists (schedule wm (map (pair t) (f :: rest))). split.
      * cbn [map]. apply play_all_starts.
        cbn [map] in *. inversion Hfs; subst. constructor; [assumption|].
        rewrite Forall_map. cbn. assumption.
      * apply schedule_fixed_clock.
  - pose proof (play_all_starts initial 0 a1 [(0, a2); (0, a3)]) as H.
    cbv zeta in H. cbv zeta. rewrite H by (repeat constructor; assumption).
    cbn [schedule map ensure_context initial playbackAudioContext nextStartTime].
    eexists. eexists. eexists. split; [reflexivity|].
    pose proof (frame_duration_nonneg a1). pose proof (frame_duration_nonneg a2).
    assert (E1 : Qmax 0 0 == 0) by reflexivity.
    assert (E2 : Qmax (Qmax 0 0 + frame_duration a1) 0 == frame_duration a1).
    { rewrite Q.max_l; lra. }
    split; [exact E1|]. split; [exact E2|].
    rewrite Q.max_l; rewrite E2; lra.
Qed.

Lemma playAudio_back_to_back_witness :
  let st := initial in
  let t := 0 in
  let a := [100; -100]%Z in
  let frames := [[1; 2]; [3]; [4; 5; 6]]%Z in
  let a1 := [0; 0]%Z in let a2 := [7]%Z in let a3 := [8; 9]%Z in
  let wm := nextStartTime (ensure_context st t) in
  (exists ref node,
      snd (playAudio st t a) = Some ref
      /\ nth_error (nodes (fst (playAudio st t a))) ref = Some node
      /\ stopped node = false
      /\ startTime node = Qmax wm t
      /\ buffer_duration (buffer node) = frame_duration a
      /\ nextStartTime (fst (playAudio st t a)) = startTime node + frame_duration a
      /\ scheduledSources (fst (playAudio st t a)) = scheduledSources st ++ [ref])
  /\ (let res := play_all st (map (pair t) frames) in
      exists starts,
        map (start_of (fst res)) (snd res) = map Some starts
        /\ Forall2 Qeq starts (back_to_back (Qmax wm t) frames))
  /\ (let res := play_all initial [(0, a1); (0, a2); (0, a3)] in
      exists s1 s2 s3,
        map (start_of (fst res)) (snd res) = [Some s1; Some s2; Some s3]
        /\ s1 == 0 /\ s2 == frame_duration a1
        /\ s3 == frame_duration a1 + frame_duration a2).
Proof.
  apply (playAudio_back_to_back initial 0 [100; -100]%Z
           [[1; 2]; [3]; [4; 5; 6]]%Z [0; 0]%Z [7]%Z [8; 9]%Z);
    repeat constructor; discriminate.
Defined.


(** ** Interruption *)

Lemma stop_node_nth (ns : list SourceNode) :
  forall ref k,
    nth_error (stop_node ref ns) k
    = option_map (fun n => if Nat.eqb k ref then stopped_copy n else n)
                 (nth_error ns k).
Proof.
  induction ns as [|n rest IH]; intros ref k.
  - destruct ref, k; reflexivity.
  - destruct ref as [|r], k as [|k']; cbn; try reflexivity.
    + destruct (nth_error rest k'); reflexivity.
    + rewrite IH. reflexivity.
Qed.

Lemma stopped_copy_idem (n : SourceNode) : stopped_copy (stopped_copy n) = stopped_copy n.
Proof. reflexivity. Qed.

Lemma stop_all_nth (refs : list nat) :
  forall ns k,
    nth_error (stop_all refs ns) k
    = option_map (fun n => if existsb (Nat.eqb k) refs then stopped_copy n else n)
                 (nth_error ns k).
Proof.
  induction refs as [|r rest IH]; intros ns k; unfold stop_all in *; cbn [fold_left existsb].
  - destruct (nth_error ns k); reflexivity.
  - rewrite IH, stop_node_nth.
    destruct (nth_error ns k) as [n|]; cbn; [|reflexivity].
    destruct (Nat.eqb k r); cbn; [|reflexivity].
    destruct (existsb (Nat.eqb k) rest); reflexivity.
Qed.

Lemma stop_all_nil (ns : list SourceNode) : stop_all [] ns = ns.
Proof. reflexivity. Qed.

Lemma remove_first_In (ref r : nat) (l : list nat) :
  In r (remove_first ref l) -> In r l.
Proof.
  induction l as [|x l IH]; cbn; [auto|].
  destruct (Nat.eqb x ref); cbn; intuition.
Qed.

Lemma remove_first_other (ref r : nat) (l : list nat) :
  r <> ref -> In r l -> In r (remove_first ref l).
Proof.
  intros Hne. induction l as [|x l IH]; cbn; [auto|].
  destruct (Nat.eqb_spec x ref) as [->|Hx]; cbn; intuition congruence.
Qed.

Lemma invariant_initial : invariant initial_world.
Proof.
  unfold invariant. cbn. repeat split.
  - intros ref [].
  - left. apply Qle_refl.
Qed.

Lemma invariant_step (w w' : World) (e : Event) :
  invariant w -> step w e = Some w' -> invariant w'.
Proof.
  intros (Ib & Ic & Id) Hs. destruct e as [dt|a| |ref]; cbn in Hs.
  - (* Tick *)
    destruct (Qle_bool 0 dt) eqn:Hdt; [|discriminate].
    apply Qle_bool_iff in Hdt. inversion Hs; subst; clear Hs. unfold invariant; cbn.
    split; [exact Ib|]. split; [|exact Id].
    destruct Ic as [Hle|Hex]; [left; lra|right; exact Hex].
  - (* Play *)
    inversion Hs; subst; clear Hs. unfold invariant; cbn [svc clock].
    destruct a as [|x a'].
    + rewrite playAudio_empty. cbn [fst].
      destruct (ensure_context_fields (svc w) (clock w)) as (Hc & Hsrc & Hn).
      rewrite Hsrc, Hn, Hc. split; [exact Ib|]. split; [|discriminate].
      unfold ensure_context. destruct (playbackAudioContext (svc w)) eqn:E.
      * exact Ic.
      * left. cbn. apply Qle_refl.
    + rewrite (playAudio_nonempty (svc w) (clock w) (x :: a')) by discriminate.
      cbn [fst scheduledSources nodes nextStartTime playbackAudioContext].
      split; [|split; [|discriminate]].
      * intros ref Hin. apply in_app_or in Hin. destruct Hin as [Hin|[<-|[]]].
        -- destruct (Ib ref Hin) as (n & Hn & Hst). exists n. split; [|exact Hst].
           rewrite nth_error_app1; [exact Hn|].
           apply nth_error_Some. congruence.
        -- eexists.
           split; [rewrite nth_error_app2 by lia; rewrite Nat.sub_diag; reflexivity|].
           reflexivity.
      * right. eexists. eexists. split; [apply in_or_app; right; left; reflexivity|].
        split; [rewrite nth_error_app2 by lia; rewrite Nat.sub_diag; reflexivity|].
        unfold endTime. cbn [startTime buffer]. rewrite buffer_duration_decoded.
        reflexivity.
  - (* Interrupt *)
    inversion Hs; subst; clear Hs. unfold invariant; cbn.
    split; [intros ref []|]. split; [|reflexivity].
    left. destruct (playbackAudioContext (svc w)) eqn:E; [apply Qle_refl|].
    destruct Ic as [Hle|(ref & n & Hin & _)]; [exact Hle|].
    rewrite (Id eq_refl) in Hin. destruct Hin.
  - (* Ended *)
    destruct (nth_error (nodes (svc w)) ref) as [n|] eqn:Hn; [|discriminate].
    destruct (stopped n || Qle_bool (endTime n) (clock w)) eqn:Hen; [|discriminate].
    inversion Hs; subst; clear Hs. unfold invariant; cbn.
    split; [|split].
    + intros r Hin. apply Ib. eapply remove_first_In. exact Hin.
    + destruct Ic as [Hle|(r0 & n0 & Hin & Hn0 & He)]; [left; exact Hle|].
      destruct (Nat.eq_dec r0 ref) as [->|Hne].
      * left. rewrite Hn in Hn0. inversion Hn0; subst n0.
        destruct (Ib ref Hin) as (n1 & Hn1 & Hst). rewrite Hn in Hn1. inversion Hn1; subst n1.
        rewrite Hst in Hen. cbn in Hen. apply Qle_bool_iff in Hen. lra.
      * right. exists r0, n0. split; [apply remove_first_other; assumption|]. auto.
    + intros Hc. rewrite (Id Hc). reflexivity.
Qed.

Lemma invariant_run (es : list Event) :
  forall w w', invariant w -> run w es = Some w' -> invariant w'.
Proof.
  induction es as [|e es IH]; intros w w' Hi Hr; cbn in Hr.
  - inversion Hr; subst. exact Hi.
  - destruct (step w e) as [w1|] eqn:Hs; [|discriminate].
    eapply IH; [|exact Hr]. eapply invariant_step; eassumption.
Qed.

Lemma reachable_invariant (w : World) : reachable w -> invariant w.
Proof.
  intros [es Hr]. eapply invariant_run; [apply invariant_initial|exact Hr].
Qed.

(** When nothing is scheduled the watermark is not in the future. *)
Lemma idle_watermark_in_past (w : World) :
  reachable w -> scheduledSources (svc w) = [] -> nextStartTime (svc w) <= clock w.
Proof.
  intros Hr Hs. destruct (reachable_invariant w Hr) as (_ & [Hle|(ref & n & Hin & _)] & _).
  - exact Hle.
  - rewrite Hs in Hin. destruct Hin.
Qed.

Lemma scheduled_start_nonempty (st : State) (t : Q) (a : list Z) :
  a <> [] ->
  scheduled_start st t a = Some (Qmax (nextStartTime (ensure_context st t)) t).
Proof.
  intros Ha. unfold scheduled_start. rewrite (playAudio_nonempty st t a Ha).
  cbn [fst snd start_of nodes]. rewrite nth_error_app2 by lia.
  rewrite Nat.sub_diag. reflexivity.
Qed.

(** C8.  After [interruptAudio] at clock [t]: every source that was in the
    scheduled list has been stopped (and is otherwise unchanged); the list is
    empty; the watermark equals [t] when a playback context exists; and a
    frame enqueued afterwards, at any clock reading [t' >= t], is scheduled to
    start at [t'].  With nothing scheduled the call stops no source and
    changes no field but the watermark; in a state the scheduler can reach,
    that watermark was not in the future, so the start time of every later
    frame is the same with or without the call. *)
Theorem interruptAudio_resets (st : State) (t t' : Q) (a : list Z) :
  a <> [] -> t <= t' ->
  let st' := interruptAudio st t in
  (forall ref n, In ref (scheduledSources st) ->
                 nth_error (nodes st) ref = Some n ->
                 nth_error (nodes st') ref = Some (stopped_copy n))
  /\ scheduledSources st' = []
  /\ (playbackAudioContext st = true -> nextStartTime st' = t)
  /\ (exists s, scheduled_start st' t' a = Some s /\ s == t')
  /\ (scheduledSources st = [] ->
      nodes st' = nodes st
      /\ playbackAudioContext st' = playbackAudioContext st
      /\ playbackAnalyser st' = playbackAnalyser st
      /\ (playbackAudioContext st = false -> st' = st))
  /\ (forall w, reachable w -> scheduledSources (svc w) = [] ->
        nextStartTime (svc w) <= clock w
        /\ forall t2, clock w <= t2 ->
             exists s1 s2,
               scheduled_start (interruptAudio (svc w) (clock w)) t2 a = Some s1
               /\ scheduled_start (svc w) t2 a = Some s2
               /\ s1 == s2).
Proof.
  intros Ha Ht st'. subst st'. split; [|split; [|split; [|split; [|split]]]].
  - intros ref n Hin Hn. cbn [interruptAudio nodes]. rewrite stop_all_nth, Hn. cbn.
    replace (existsb (Nat.eqb ref) (scheduledSources st)) with true; [reflexivity|].
    symmetry. apply existsb_exists. exists ref. split; [exact Hin|apply Nat.eqb_refl].
  - reflexivity.
  - intros Hc. cbn. rewrite Hc. reflexivity.
  - rewrite (scheduled_start_nonempty _ t' a Ha). eexists. split; [reflexivity|].
    unfold ensure_context, interruptAudio. cbn.
    destruct (playbackAudioContext st); cbn.
    + apply Q.max_r. exact Ht.
    + apply Q.max_id.
  - intros Hs. cbn. rewrite Hs. repeat split.
    intros Hc. destruct st as [c an nst src nds]. cbn in *. subst. reflexivity.
  - intros w Hr Hs. pose proof (idle_watermark_in_past w Hr Hs) as Hle.
    split; [exact Hle|]. intros t2 Ht2.
    rewrite !(scheduled_start_nonempty _ t2 a Ha).
    eexists. eexists. split; [reflexivity|]. split; [reflexivity|].
    unfold ensure_context, interruptAudio. cbn.
    destruct (playbackAudioContext (svc w)); cbn.
    + rewrite !Q.max_r by lra. reflexivity.
    + reflexivity.
Qed.

Lemma interruptAudio_resets_witness :
  let st := fst (play_all initial [(0, [1; 2; 3]%Z); (0, [4; 5]%Z)]) in
  let t := 1 # 100000 in
  let t' := 1 # 100000 in
  let a := [6; 7]%Z in
  let st' := interruptAudio st t in
  (forall ref n, In ref (scheduledSources st) ->
                 nth_error (nodes st) ref = Some n ->
                 nth_error (nodes st') ref = Some (stopped_copy n))
  /\ scheduledSources st' = []
  /\ (playbackAudioContext st = true -> nextStartTime st' = t)
  /\ (exists s, scheduled_start st' t' a = Some s /\ s == t')
  /\ (scheduledSources st = [] ->
      nodes st' = nodes st
      /\ playbackAudioContext st' = playbackAudioContext st
      /\ playbackAnalyser st' = playbackAnalyser st
      /\ (playbackAudioContext st = false -> st' = st))
  /\ (forall w, reachable w -> scheduledSources (svc w) = [] ->
        nextStartTime (svc w) <= clock w
        /\ forall t2, clock w <= t2 ->
             exists s1 s2,
               scheduled_start (interruptAudio (svc w) (clock w)) t2 a = Some s1
               /\ scheduled_start (svc w) t2 a = Some s2
               /\ s1 == s2).
Proof.
  apply (interruptAudio_resets
           (fst (play_all initial [(0, [1; 2; 3]%Z); (0, [4; 5]%Z)]))
           (1 # 100000) (1 # 100000) [6; 7]%Z).
  - discriminate.
  - apply Qle_refl.
Defined.


(** ** Further properties of the scheduler *)

Lemma schedule_no_overlap (calls : list (Q * list Z)) :
  forall wm, no_overlap wm (schedule wm calls) calls.
Proof.
  induction calls as [|[t a] rest IH]; intros wm; cbn [schedule no_overlap]; [exact I|].
  split; [apply Q.le_max_l|]. split; [apply Q.le_max_r|]. split; [|apply IH].
  destruct (Q.max_spec wm t) as [[H1 H2]|[H1 H2]]; [right|left]; exact H2.
Qed.

(** Whatever the clock readings, successfully enqueued sources never
    overlap and never start in the past: each starts at the later of the end
    of the source enqueued before it and the clock reading of its call. *)
Theorem scheduled_sources_never_overlap
    (st : State) (t : Q) (a : list Z) (rest : list (Q * list Z)) :
  Forall (fun c => snd c <> []) ((t, a) :: rest) ->
  let res := play_all st ((t, a) :: rest) in
  exists starts,
    map (start_of (fst res)) (snd res) = map Some starts
    /\ no_overlap (nextStartTime (ensure_context st t)) starts ((t, a) :: rest).
Proof.
  intros Hne res. subst res.
  exists (schedule (nextStartTime (ensure_context st t)) ((t, a) :: rest)).
  split; [apply play_all_starts; exact Hne|apply schedule_no_overlap].
Qed.

Lemma scheduled_sources_never_overlap_witness :
  let res := play_all initial [(0, [1; 2]%Z); (5, [3]%Z); (5, [4; 5; 6]%Z)] in
  exists starts,
    map (start_of (fst res)) (snd res) = map Some starts
    /\ no_overlap (nextStartTime (ensure_context initial 0)) starts
                  [(0, [1; 2]%Z); (5, [3]%Z); (5, [4; 5; 6]%Z)].
Proof.
  apply (scheduled_sources_never_overlap initial 0 [1; 2]%Z
           [(5, [3]%Z); (5, [4; 5; 6]%Z)]).
  repeat constructor; discriminate.
Defined.

(** Interrupting twice at the same clock reading is the same as
    interrupting once. *)
Theorem interruptAudio_idempotent (st : State) (t : Q) :
  interruptAudio (interruptAudio st t) t = interruptAudio st t.
Proof.
  unfold interruptAudio. cbn [playbackAudioContext playbackAnalyser nextStartTime
                              scheduledSources nodes].
  rewrite stop_all_nil.
  destruct (playbackAudioContext st); reflexivity.
Qed.

Lemma stop_node_length (ns : list SourceNode) :
  forall ref, List.length (stop_node ref ns) = List.length ns.
Proof.
  induction ns as [|n rest IH]; intros [|r]; cbn; auto.
Qed.

Lemma stop_all_length (refs : list nat) :
  forall ns, List.length (stop_all refs ns) = List.length ns.
Proof.
  induction refs as [|r rest IH]; intros ns; unfold stop_all in *; cbn [fold_left];
    [reflexivity|].
  rewrite IH, stop_node_length. reflexivity.
Qed.

Lemma remove_first_NoDup (ref : nat) (l : list nat) :
  NoDup l -> NoDup (remove_first ref l) /\ ~ In ref (remove_first ref l).
Proof.
  induction 1 as [|x l Hx Hl IH]; cbn [remove_first].
  - split; [constructor|intros []].
  - destruct (Nat.eqb_spec x ref) as [->|Hne].
    + split; assumption.
    + destruct IH as [IH1 IH2]. split.
      * constructor; [|exact IH1]. intros Hin. apply Hx.
        eapply remove_first_In. exact Hin.
      * intros [E|Hin]; [congruence|auto].
Qed.

Lemma refs_valid_step (w w' : World) (e : Event) :
  refs_valid (svc w) -> step w e = Some w' -> refs_valid (svc w').
Proof.
  intros [Hnd Hlt] Hs. destruct e as [dt|a| |ref]; cbn in Hs.
  - destruct (Qle_bool 0 dt); [|discriminate]. inversion Hs; subst. split; assumption.
  - inversion Hs; subst; clear Hs. cbn [svc]. destruct a as [|x a'].
    + rewrite playAudio_empty. cbn [fst].
      destruct (ensure_context_fields (svc w) (clock w)) as (_ & Hsrc & Hn).
      unfold refs_valid. rewrite Hsrc, Hn. split; assumption.
    + rewrite (playAudio_nonempty (svc w) (clock w) (x :: a')) by discriminate.
      unfold refs_valid. cbn [fst scheduledSources nodes]. split.
      * apply NoDup_app; [exact Hnd|constructor; [intros []|constructor]|].
        intros r Hr [<-|[]]. specialize (Hlt _ Hr). lia.
      * intros r Hr. rewrite length_app. cbn [List.length].
        apply in_app_or in Hr. destruct Hr as [Hr|[<-|[]]]; [specialize (Hlt _ Hr)|]; lia.
  - inversion Hs; subst. unfold refs_valid. cbn. split; [constructor|intros r []].
  - destruct (nth_error (nodes (svc w)) ref) as [n|]; [|discriminate].
    destruct (stopped n || Qle_bool (endTime n) (clock w)); [|discriminate].
    inversion Hs; subst. unfold refs_valid. cbn [svc onended scheduledSources nodes]. split.
    + apply remove_first_NoDup. exact Hnd.
    + intros r Hr. apply Hlt. eapply remove_first_In. exact Hr.
Qed.

Lemma refs_valid_run (es : list Event) :
  forall w w', refs_valid (svc w) -> run w es = Some w' -> refs_valid (svc w').
Proof.
  induction es as [|e es IH]; intros w w' Hi Hr; cbn in Hr.
  - inversion Hr; subst. exact Hi.
  - destruct (step w e) as [w1|] eqn:Hs; [|discriminate].
    eapply IH; [|exact Hr]. eapply refs_valid_step; eassumption.
Qed.

Lemma remove_first_absent (ref : nat) (l : list nat) :
  ~ In ref l -> remove_first ref l = l.
Proof.
  induction l as [|x l IH]; cbn [remove_first]; intros H; [reflexivity|].
  destruct (Nat.eqb_spec x ref) as [->|Hne]; [exfalso; apply H; left; reflexivity|].
  rewrite IH; [reflexivity|]. intros Hin. apply H. right. exact Hin.
Qed.

(** The [ended] handler in a reachable state: it removes its own source
    from the scheduled list and no other; and when the source was stopped
    by an interruption the handler changes nothing, so a late [ended] of an
    interrupted source never removes a source scheduled afterwards. *)
Theorem onended_removes_only_its_source (w : World) (ref : nat) :
  reachable w ->
  ~ In ref (scheduledSources (onended (svc w) ref))
  /\ (forall r, r <> ref -> In r (scheduledSources (svc w)) ->
                In r (scheduledSources (onended (svc w) ref)))
  /\ (forall n, nth_error (nodes (svc w)) ref = Some n -> stopped n = true ->
                onended (svc w) ref = svc w).
Proof.
  intros Hr.
  assert (Hv : refs_valid (svc w)).
  { destruct Hr as [es Hes]. eapply refs_valid_run; [|exact Hes].
    split; [constructor|intros r []]. }
  destruct Hv as [Hnd _]. split; [|split].
  - apply remove_first_NoDup. exact Hnd.
  - intros r Hne Hin. apply remove_first_other; assumption.
  - intros n Hn Hst.
    destruct (reachable_invariant w Hr) as (Ib & _ & _).
    assert (Hnot : ~ In ref (scheduledSources (svc w))).
    { intros Hin. destruct (Ib ref Hin) as (n' & Hn' & Hst').
      rewrite Hn in Hn'. inversion Hn'; subst. congruence. }
    unfold onended. rewrite (remove_first_absent ref _ Hnot).
    destruct (svc w). reflexivity.
Qed.

Lemma onended_removes_only_its_source_witness :
  let w := {| svc := fst (play_all initial [(0, [1; 2]%Z); (0, [3]%Z)]); clock := 0 |} in
  ~ In 0%nat (scheduledSources (onended (svc w) 0))
  /\ (forall r, r <> 0%nat -> In r (scheduledSources (svc w)) ->
                In r (scheduledSources (onended (svc w) 0)))
  /\ (forall n, nth_error (nodes (svc w)) 0 = Some n -> stopped n = true ->
                onended (svc w) 0 = svc w).
Proof.
  apply (onended_removes_only_its_source
           {| svc := fst (play_all initial [(0, [1; 2]%Z); (0, [3]%Z)]); clock := 0 |} 0%nat).
  exists [Play [1; 2]%Z; Play [3]%Z]. reflexivity.
Defined.

(** What the scheduler keeps true in every state it can reach: each
    scheduled source exists and has not been stopped, the references are
    distinct, nothing is scheduled without a playback context, and the
    watermark is either not in the future or the end of a scheduled
    source. *)
Theorem scheduler_invariant (w : World) :
  reachable w -> invariant w /\ refs_valid (svc w).
Proof.
  intros Hr. split; [apply reachable_invariant; exact Hr|].
  destruct Hr as [es Hes]. eapply refs_valid_run; [|exact Hes].
  split; [constructor|intros r []].
Qed.

Lemma scheduler_invariant_witness :
  let w := {| svc := interruptAudio
                       (fst (play_all initial [(0, [1; 2]%Z); (0, [3]%Z)])) 0;
              clock := 0 |} in
  invariant w /\ refs_valid (svc w).
Proof.
  apply (scheduler_invariant
           {| svc := interruptAudio
                       (fst (play_all initial [(0, [1; 2]%Z); (0, [3]%Z)])) 0;
              clock := 0 |}).
  exists [Play [1; 2]%Z; Play [3]%Z; Interrupt]. reflexivity.
Defined.

End PlaybackFacts.

(* ================================================================== *)
(** * Model session: properties *)
(* ================================================================== *)

Module GeminiFacts.
Import Gemini.
Local Open Scope string_scope.
Local Open Scope list_scope.

(** ** Running sequenced computations *)

Lemma outcome_eta {A : Type} (o : Outcome A) :
  {| events := events o; status := status o;
     final_state := final_state o; suspensions := suspensions o |} = o.
Proof. destruct o. reflexivity. Qed.

Lemma then_run_with_event {A B : Type} (ev : Event) (o : Outcome A)
    (f : A -> GeminiService -> nat -> Outcome B) :
  then_run (with_event ev o) f = with_event ev (then_run o f).
Proof.
  unfold then_run, with_event. cbn.
  destruct (status o) as [[a|e]|]; reflexivity.
Qed.

Lemma catch_run_with_event {A : Type} (ev : Event) (o : Outcome A)
    (h : Thrown -> GeminiService -> nat -> Outcome A) :
  catch_run (with_event ev o) h = with_event ev (catch_run o h).
Proof.
  unfold catch_run, with_event. cbn.
  destruct (status o) as [[a|e]|] eqn:E; cbn; rewrite ?E; reflexivity.
Qed.

Lemma run_bind {A B : Type} (p : Async A) (f : A -> Async B) (env : Env) :
  forall s n,
    run (bind p f) s env n
    = then_run (run p s env n) (fun a s' n' => run (f a) s' env n').
Proof.
  induction p as [a|e|k IH|ev k IH|call k IH|k IH]; intros s n; cbn [bind run].
  - unfold then_run. cbn. symmetry. apply outcome_eta.
  - reflexivity.
  - apply IH.
  - rewrite IH, then_run_with_event. reflexivity.
  - destruct (settle_at env n) as [o|]; [|reflexivity].
    rewrite IH, then_run_with_event. reflexivity.
  - apply IH.
Qed.

Lemma run_try_catch {A : Type} (p : Async A) (h : Thrown -> Async A) (env : Env) :
  forall s n,
    run (try_catch p h) s env n
    = catch_run (run p s env n) (fun e s' n' => run (h e) s' env n').
Proof.
  induction p as [a|e|k IH|ev k IH|call k IH|k IH]; intros s n; cbn [try_catch run].
  - reflexivity.
  - unfold catch_run. cbn. symmetry. apply outcome_eta.
  - apply IH.
  - rewrite IH, catch_run_with_event. reflexivity.
  - destruct (settle_at env n) as [o|]; [|reflexivity].
    rewrite IH, catch_run_with_event. reflexivity.
  - apply IH.
Qed.

(** ** The send operations *)

Lemma run_guarded_send_open (m : ClientMessage) (s : GeminiService) (env : Env) (n : nat) :
  ws_open s = true ->
  run (guarded_send m) s env n
  = {| events := [WsSend m]; status := Done (Fulfilled tt);
       final_state := s; suspensions := n |}.
Proof. intros H. unfold guarded_send. cbn. rewrite H. reflexivity. Qed.

Lemma run_guarded_send_closed (m : ClientMessage) (s : GeminiService) (env : Env) (n : nat) :
  ws_open s = false ->
  run (guarded_send m) s env n
  = {| events := []; status := Done (Rejected (ErrorObj "Not connected to Gemini"));
       final_state := s; suspensions := n |}.
Proof. intros H. unfold guarded_send. cbn. rewrite H. reflexivity. Qed.

Lemma run_await_send_open (m : ClientMessage) (s : GeminiService) (env : Env) (n : nat) :
  ws_open s = true ->
  run (await_call (guarded_send m)) s env n
  = {| events := [WsSend m]; status := Done (Fulfilled tt);
       final_state := state_at env n; suspensions := S n |}.
Proof.
  intros H. unfold await_call, settle. rewrite run_bind, run_try_catch, run_bind.
  rewrite (run_guarded_send_open m s env n H). reflexivity.
Qed.

Lemma run_await_send_closed (m : ClientMessage) (s : GeminiService) (env : Env) (n : nat) :
  ws_open s = false ->
  run (await_call (guarded_send m)) s env n
  = {| events := []; status := Done (Rejected (ErrorObj "Not connected to Gemini"));
       final_state := state_at env n; suspensions := S n |}.
Proof.
  intros H. unfold await_call, settle. rewrite run_bind, run_try_catch, run_bind.
  rewrite (run_guarded_send_closed m s env n H). reflexivity.
Qed.

(** ** Function calls *)

(** The run of [handleFunctionCall] with a registered handler whose promise
    settles while the socket is open. *)
Lemma run_handleFunctionCall_open (call : FunctionCall) (s : GeminiService)
    (env : Env) (n : nat) (o : Settled Json) :
  functionHandler s = true ->
  settle_at env n = Some o ->
  ws_open (state_at env n) = true ->
  run (handleFunctionCall call) s env n
  = {| events := [HandlerCalled call; WsSend (ToolResponse (id call) (response_of o))];
       status := Done (Fulfilled tt);
       final_state := state_at env (S n);
       suspensions := S (S n) |}.
Proof.
  intros Hh Hs Ho. unfold handleFunctionCall. cbn [run]. rewrite Hh. cbn [negb].
  rewrite run_try_catch, run_bind. unfold await_handler. cbn [run]. rewrite Hs.
  destruct o as [result|error]; cbn [of_settled run].
  - unfold then_run, with_event. cbn [status events final_state suspensions].
    unfold sendFunctionResult. rewrite (run_await_send_open _ _ env (S n) Ho).
    reflexivity.
  - unfold then_run, with_event, catch_run. cbn [status events final_state suspensions].
    unfold sendFunctionResult. rewrite (run_await_send_open _ _ env (S n) Ho).
    reflexivity.
Qed.

Lemma run_handleFunctionCall_pending (call : FunctionCall) (s : GeminiService)
    (env : Env) (n : nat) :
  functionHandler s = true ->
  settle_at env n = None ->
  run (handleFunctionCall call) s env n
  = {| events := [HandlerCalled call]; status := Pending;
       final_state := s; suspensions := n |}.
Proof.
  intros Hh Hs. unfold handleFunctionCall. cbn [run]. rewrite Hh. cbn [negb].
  rewrite run_try_catch, run_bind. unfold await_handler. cbn [run]. rewrite Hs.
  reflexivity.
Qed.

Lemma responses_for_own (callId : option string) (r : Json) :
  responses_for callId [WsSend (ToolResponse callId r)] = [r].
Proof.
  unfold responses_for. cbn. destruct callId as [i|]; [|reflexivity].
  rewrite String.eqb_refl. reflexivity.
Qed.

(** C1.  With a function handler registered, a request delivered to it is
    answered exactly once: when the handler's promise settles, fulfilled or
    rejected, and the socket is open at that moment, the session sends one
    function-call response carrying the request's id and nothing else, and
    the handling completes normally.  A fulfilled promise sends the result;
    a rejected one sends an error-shaped mapping with an [error] key holding
    the error's message. *)
Theorem function_call_answered_once (call : FunctionCall) (s : GeminiService)
    (env : Env) (n : nat) (o : Settled Json) :
  functionHandler s = true ->
  settle_at env n = Some o ->
  ws_open (state_at env n) = true ->
  let out := run (handleFunctionCall call) s env n in
  events out = [HandlerCalled call; WsSend (ToolResponse (id call) (response_of o))]
  /\ status out = Done (Fulfilled tt)
  /\ responses_for (id call) (events out) = [response_of o]
  /\ sent (events out) = [ToolResponse (id call) (response_of o)]
  /\ (forall result, o = Fulfilled result -> response_of o = result)
  /\ (forall error, o = Rejected error ->
        response_of o = error_result (error_message "Function execution failed" error)
        /\ has_error_key (response_of o) = true).
Proof.
  intros Hh Hs Ho out. subst out.
  rewrite (run_handleFunctionCall_open call s env n o Hh Hs Ho).
  cbn [events status]. repeat split.
  - apply (responses_for_own (id call)).
  - intros result ->. reflexivity.
  - subst o. reflexivity.
  - subst o. reflexivity.
Qed.


Lemma function_call_answered_once_witness :
  let call := {| name := "get_weather"; args := None; id := Some "a" |} in
  let o := Rejected (ErrorObj "boom") in
  let out := run (handleFunctionCall call) example_service rejecting_env 0 in
  events out = [HandlerCalled call; WsSend (ToolResponse (id call) (response_of o))]
  /\ status out = Done (Fulfilled tt)
  /\ responses_for (id call) (events out) = [response_of o]
  /\ sent (events out) = [ToolResponse (id call) (response_of o)]
  /\ (forall result, o = Fulfilled result -> response_of o = result)
  /\ (forall error, o = Rejected error ->
        response_of o = error_result (error_message "Function execution failed" error)
        /\ has_error_key (response_of o) = true).
Proof.
  apply (function_call_answered_once
           {| name := "get_weather"; args := None; id := Some "a" |}
           example_service rejecting_env
           0 (Rejected (ErrorObj "boom"))); reflexivity.
Defined.


(** C10.  When no function handler is registered and the socket is open, a
    function-call request is answered at once with exactly one response
    carrying its id, whose result is the error-shaped mapping
    [{ error: 'No function handler registered' }]; no handler is invoked and
    the handling completes normally. *)
Theorem unregistered_handler_answered (call : FunctionCall) (s : GeminiService)
    (env : Env) (n : nat) :
  functionHandler s = false ->
  ws_open s = true ->
  let out := run (handleFunctionCall call) s env n in
  let response := error_result "No function handler registered" in
  events out = [WsSend (ToolResponse (id call) response)]
  /\ status out = Done (Fulfilled tt)
  /\ responses_for (id call) (events out) = [response]
  /\ sent (events out) = [ToolResponse (id call) response]
  /\ has_error_key response = true.
Proof.
  intros Hh Ho out response. subst out response.
  unfold handleFunctionCall. cbn [run]. rewrite Hh. cbn [negb].
  unfold sendFunctionResult. rewrite (run_await_send_open _ s env n Ho).
  cbn [events status]. repeat split.
  apply (responses_for_own (id call)).
Qed.

Lemma unregistered_handler_answered_witness :
  let call := {| name := "web_search"; args := None; id := Some "b" |} in
  let s := {| ws := Some OPEN; apiKey := "key";
              onAudioResponseHandler := false; onTextResponseHandler := false;
              onErrorHandler := false; functionHandler := false |} in
  let out := run (handleFunctionCall call) s example_env 0 in
  let response := error_result "No function handler registered" in
  events out = [WsSend (ToolResponse (id call) response)]
  /\ status out = Done (Fulfilled tt)
  /\ responses_for (id call) (events out) = [response]
  /\ sent (events out) = [ToolResponse (id call) response]
  /\ has_error_key response = true.
Proof.
  apply (unregistered_handler_answered
           {| name := "web_search"; args := None; id := Some "b" |}
           {| ws := Some OPEN; apiKey := "key";
              onAudioResponseHandler := false; onTextResponseHandler := false;
              onErrorHandler := false; functionHandler := false |}
           example_env 0); reflexivity.
Defined.

(** ** Function-call batches *)

Lemma run_await_call {A : Type} (p : Async A) (s : GeminiService) (env : Env) (n : nat) :
  run (await_call p) s env n
  = let o := run p s env n in
    match status o with
    | Done r =>
        {| events := events o; status := Done r;
           final_state := state_at env (suspensions o);
           suspensions := S (suspensions o) |}
    | Pending =>
        {| events := events o; status := Pending;
           final_state := final_state o; suspensions := suspensions o |}
    end.
Proof.
  unfold await_call, settle. rewrite run_bind, run_try_catch, run_bind.
  cbv zeta. destruct (run p s env n) as [evs st fs k].
  destruct st as [[a|e]|]; unfold then_run, catch_run; cbn;
    rewrite ?app_nil_r; reflexivity.
Qed.

(** The loop over a batch, under a registered handler and an open socket:
    the events are those of strictly sequential dispatch, and the loop never
    throws. *)
Lemma run_batch (functionCalls : list RawFunctionCall) (env : Env) :
  (forall k, ws_open (state_at env k) = true
             /\ functionHandler (state_at env k) = true) ->
  forall s n,
    functionHandler s = true ->
    let out := run (for_each functionCalls
                      (fun fc => await_call (handleFunctionCall (tool_call fc))))
                   s env n in
    events out = sequential_dispatch env n (map tool_call functionCalls)
    /\ (status out = Done (Fulfilled tt) \/ status out = Pending).
Proof.
  intros Henv. induction functionCalls as [|fc rest IH]; intros s n Hs out; subst out.
  - cbn. auto.
  - cbn [for_each map sequential_dispatch]. rewrite run_bind, run_await_call. cbv zeta.
    destruct (settle_at env n) as [o|] eqn:Ho.
    + rewrite (run_handleFunctionCall_open (tool_call fc) s env n o Hs Ho
                 (proj1 (Henv n))).
      unfold then_run. cbn [status events final_state suspensions].
      destruct (IH (state_at env (S (S n))) (S (S (S n))) (proj2 (Henv _)))
        as [Hev Hst].
      rewrite Hev. split; [reflexivity|exact Hst].
    + rewrite (run_handleFunctionCall_pending (tool_call fc) s env n Hs Ho).
      unfold then_run. cbn. auto.
Qed.

Lemma run_batch_message (now : string) (functionCalls : list RawFunctionCall)
    (s : GeminiService) (env : Env) (n : nat) :
  functionHandler s = true ->
  (forall k, ws_open (state_at env k) = true
             /\ functionHandler (state_at env k) = true) ->
  events (run (handleMessage now (batch_message functionCalls)) s env n)
  = sequential_dispatch env n (map tool_call functionCalls).
Proof.
  intros Hs Henv. unfold handleMessage, batch_message.
  cbn [isBlob payload setupComplete toolCall serverContent bind].
  rewrite run_try_catch, run_bind.
  destruct (run_batch functionCalls env Henv s n Hs) as [Hev Hst].
  cbv zeta in Hev, Hst.
  change (fun fc : RawFunctionCall =>
            await_call (handleFunctionCall
                          {| name := fc_name fc;
                             args := args_or_empty (fc_args fc);
                             id := fc_id fc |}))
    with (fun fc => await_call (handleFunctionCall (tool_call fc))).
  destruct Hst as [Hst|Hst]; unfold then_run, catch_run; rewrite Hst;
    cbn; rewrite ?Hst; cbn; rewrite ?app_nil_r; exact Hev.
Qed.

(** C2 (as the code behaves).  The requests of a batch are dispatched one
    after the other, in batch order: the handler for a request is invoked
    only after the response to the previous request has been sent.  For a
    batch of two, the second handler is not invoked while the first
    handler's promise is pending, and once that promise settles the first
    response is sent before the second handler is invoked. *)
Theorem batch_dispatched_sequentially (now : string)
    (functionCalls : list RawFunctionCall) (s : GeminiService) (env : Env) (n : nat) :
  functionHandler s = true ->
  (forall k, ws_open (state_at env k) = true
             /\ functionHandler (state_at env k) = true) ->
  let evs := events (run (handleMessage now (batch_message functionCalls)) s env n) in
  evs = sequential_dispatch env n (map tool_call functionCalls)
  /\ (forall a b, functionCalls = [a; b] ->
        (settle_at env n = None -> evs = [HandlerCalled (tool_call a)])
        /\ (forall o, settle_at env n = Some o ->
              exists rest,
                evs = HandlerCalled (tool_call a)
                      :: WsSend (ToolResponse (fc_id a) (response_of o))
                      :: HandlerCalled (tool_call b) :: rest)).
Proof.
  intros Hs Henv evs. subst evs.
  rewrite (run_batch_message now functionCalls s env n Hs Henv).
  split; [reflexivity|].
  intros a b ->. cbn [map sequential_dispatch]. split.
  - intros ->. reflexivity.
  - intros o ->. cbn [id tool_call].
    destruct (settle_at env (3 + n)); eexists; reflexivity.
Qed.

Lemma batch_dispatched_sequentially_witness :
  let evs := events (run (handleMessage "0" (batch_message example_batch))
                         example_service example_env 0) in
  evs = sequential_dispatch example_env 0 (map tool_call example_batch)
  /\ (forall a b, example_batch = [a; b] ->
        (settle_at example_env 0 = None -> evs = [HandlerCalled (tool_call a)])
        /\ (forall o, settle_at example_env 0 = Some o ->
              exists rest,
                evs = HandlerCalled (tool_call a)
                      :: WsSend (ToolResponse (fc_id a) (response_of o))
                      :: HandlerCalled (tool_call b) :: rest)).
Proof.
  apply (batch_dispatched_sequentially "0" example_batch example_service example_env 0).
  - reflexivity.
  - intros k. split; reflexivity.
Defined.

(** C2 as stated fails on the batch of the concurrent-calls scenario: while
    the first handler's promise is pending the second handler has not been
    invoked, and when all promises settle the invocation of [web_search]
    (position 2) comes after the response to request "a" (position 1). *)
Lemma batch_dispatch_not_concurrent :
  events (run (handleMessage "0" (batch_message example_batch))
              example_service pending_env 0)
  = [HandlerCalled {| name := "get_weather"; args := Some (JObj []); id := Some "a" |}]
  /\ (let evs := events (run (handleMessage "0" (batch_message example_batch))
                             example_service example_env 0) in
      index_of (is_response_to "a") evs = Some 1%nat
      /\ index_of (is_handler_call "web_search") evs = Some 2%nat).
Proof. split; [reflexivity|]. cbv zeta. split; reflexivity. Qed.


(** ** Failure paths *)

Lemma run_handleFunctionCall_closed (call : FunctionCall) (s : GeminiService)
    (env : Env) (n : nat) (o : Settled Json) :
  functionHandler s = true ->
  settle_at env n = Some o ->
  (forall k, ws_open (state_at env k) = false) ->
  let out := run (handleFunctionCall call) s env n in
  events out = [HandlerCalled call]
  /\ status out = Done (Rejected (ErrorObj "Not connected to Gemini")).
Proof.
  intros Hh Hs Hc out. subst out. unfold handleFunctionCall. cbn [run]. rewrite Hh. cbn [negb].
  rewrite run_try_catch, run_bind. unfold await_handler. cbn [run]. rewrite Hs.
  destruct o as [result|error]; cbn [of_settled run].
  - unfold then_run, with_event. cbn [status events final_state suspensions].
    unfold sendFunctionResult. rewrite (run_await_send_closed _ _ env (S n) (Hc n)).
    unfold catch_run. cbn [status events final_state suspensions].
    rewrite (run_await_send_closed _ _ env (S (S n)) (Hc (S n))). split; reflexivity.
  - unfold then_run, with_event, catch_run. cbn [status events final_state suspensions].
    unfold sendFunctionResult. rewrite (run_await_send_closed _ _ env (S n) (Hc n)).
    split; reflexivity.
Qed.

Lemma run_report_error (e : Thrown) (s : GeminiService) (env : Env) (n : nat) :
  run (report_error e) s env n
  = {| events := if onErrorHandler s then [ErrorReported (as_error e)] else [];
       status := Done (Fulfilled tt); final_state := s; suspensions := n |}.
Proof. unfold report_error. cbn [run]. destruct (onErrorHandler s); reflexivity. Qed.

(** When the socket has closed by the time the handler's promise settles, no
    response is sent: the handling of the call fails with 'Not connected to
    Gemini', [handleMessage] reports that error, and the remaining requests
    of the batch are never dispatched. *)
Theorem closed_socket_drops_response_and_batch (now : string)
    (fc : RawFunctionCall) (rest : list RawFunctionCall)
    (s : GeminiService) (env : Env) (n : nat) (o : Settled Json) :
  functionHandler s = true ->
  settle_at env n = Some o ->
  (forall k, ws_open (state_at env k) = false
             /\ onErrorHandler (state_at env k) = true) ->
  let single := run (handleFunctionCall (tool_call fc)) s env n in
  let out := run (handleMessage now (batch_message (fc :: rest))) s env n in
  events single = [HandlerCalled (tool_call fc)]
  /\ status single = Done (Rejected (ErrorObj "Not connected to Gemini"))
  /\ events out = [HandlerCalled (tool_call fc);
                   ErrorReported (ErrorObj "Not connected to Gemini")]
  /\ sent (events out) = []
  /\ status out = Done (Fulfilled tt).
Proof.
  intros Hh Hs Henv single out. subst single out.
  destruct (run_handleFunctionCall_closed (tool_call fc) s env n o Hh Hs
              (fun k => proj1 (Henv k))) as [Hev Hst].
  cbv zeta in Hev, Hst. split; [exact Hev|]. split; [exact Hst|].
  assert (E : run (handleMessage now (batch_message (fc :: rest))) s env n
              = {| events := [HandlerCalled (tool_call fc);
                              ErrorReported (ErrorObj "Not connected to Gemini")];
                   status := Done (Fulfilled tt);
                   final_state := state_at env (suspensions
                       (run (handleFunctionCall (tool_call fc)) s env n));
                   suspensions := S (suspensions
                       (run (handleFunctionCall (tool_call fc)) s env n)) |}).
  { unfold handleMessage, batch_message.
    cbn [isBlob payload setupComplete toolCall serverContent bind for_each].
    rewrite run_try_catch, !run_bind, run_await_call. cbv zeta.
    change {| name := fc_name fc; args := args_or_empty (fc_args fc); id := fc_id fc |}
      with (tool_call fc).
    destruct (run (handleFunctionCall (tool_call fc)) s env n) as [evs st fs k].
    cbn [events status] in Hev, Hst. subst evs st.
    unfold then_run, catch_run. cbn [status events final_state suspensions].
    rewrite run_report_error, (proj2 (Henv k)). reflexivity. }
  rewrite E. cbn [events status]. repeat split.
Qed.

Lemma closed_socket_drops_response_and_batch_witness :
  let fc := {| fc_name := "get_weather"; fc_args := None; fc_id := Some "a" |} in
  let rest := [{| fc_name := "web_search"; fc_args := None; fc_id := Some "b" |}] in
  let single := run (handleFunctionCall (tool_call fc)) example_service closed_env 0 in
  let out := run (handleMessage "0" (batch_message (fc :: rest)))
                 example_service closed_env 0 in
  events single = [HandlerCalled (tool_call fc)]
  /\ status single = Done (Rejected (ErrorObj "Not connected to Gemini"))
  /\ events out = [HandlerCalled (tool_call fc);
                   ErrorReported (ErrorObj "Not connected to Gemini")]
  /\ sent (events out) = []
  /\ status out = Done (Fulfilled tt).
Proof.
  apply (closed_socket_drops_response_and_batch "0"
           {| fc_name := "get_weather"; fc_args := None; fc_id := Some "a" |}
           [{| fc_name := "web_search"; fc_args := None; fc_id := Some "b" |}]
           example_service closed_env 0 (Fulfilled JNull)).
  - reflexivity.
  - reflexivity.
  - intros k. split; reflexivity.
Defined.

Lemma run_never_pending {A : Type} (p : Async A) (env : Env) :
  (forall k, settle_at env k <> None) ->
  forall s n, status (run p s env n) <> Pending.
Proof.
  intros Hall. induction p as [a|e|k IH|ev k IH|call k IH|k IH]; intros s n; cbn [run].
  - discriminate.
  - discriminate.
  - apply IH.
  - cbn [with_event status]. apply IH.
  - destruct (settle_at env n) as [o|] eqn:E; [|exfalso; exact (Hall n E)].
    cbn [with_event status]. apply IH.
  - apply IH.
Qed.

(** [handleMessage] never throws: whatever the message and whatever happens
    while it is handled, its promise is fulfilled or still pending, never
    rejected; and it is fulfilled whenever every handler promise settles. *)
Theorem handleMessage_never_rejects (now : string) (ev : MessageEvent)
    (s : GeminiService) (env : Env) (n : nat) :
  (forall e, status (run (handleMessage now ev) s env n) <> Done (Rejected e))
  /\ ((forall k, settle_at env k <> None) ->
      status (run (handleMessage now ev) s env n) = Done (Fulfilled tt)).
Proof.
  assert (H : forall e, status (run (handleMessage now ev) s env n) <> Done (Rejected e)).
  { intros e. unfold handleMessage. rewrite run_try_catch. unfold catch_run.
    match goal with |- context [status (run ?p s env n)] =>
      destruct (run p s env n) as [evs st fs k] end.
    cbn [status events final_state suspensions].
    destruct st as [[[]|e']|]; cbn [status]; try discriminate.
    rewrite run_report_error. discriminate. }
  split; [exact H|]. intros Hall.
  pose proof (run_never_pending (handleMessage now ev) env Hall s n) as Hp.
  destruct (status (run (handleMessage now ev) s env n)) as [[[]|e]|].
  - reflexivity.
  - exfalso. exact (H e eq_refl).
  - contradiction.
Qed.

(** Reading the text of a frame: a string is at hand, a [Blob] is read with
    an awaited call.  The rest of the handling starts from the service as it
    is after that suspension. *)
Lemma run_handleMessage_read (now : string) (ev : MessageEvent)
    (s : GeminiService) (env : Env) (n : nat) :
  run (handleMessage now ev) s env n
  = run (handleMessage now {| isBlob := false; payload := payload ev |})
        (if isBlob ev then state_at env n else s) env
        (if isBlob ev then S n else n).
Proof.
  unfold handleMessage. rewrite !run_try_catch. f_equal.
  cbn [isBlob payload]. rewrite !run_bind.
  destruct (isBlob ev); cbn [run]; unfold then_run;
    cbn [status events final_state suspensions app]; reflexivity.
Qed.

(** A message that does not parse is reported to the error handler, when
    one is registered, and has no other effect.  The handling suspends only
    to read a [Blob], and it is the service as it is after that read whose
    error handler is consulted. *)
Theorem malformed_message_reported (now message : string) (blob : bool)
    (s : GeminiService) (env : Env) (n : nat) :
  let s' := if blob then state_at env n else s in
  run (handleMessage now {| isBlob := blob; payload := Malformed message |}) s env n
  = {| events := if onErrorHandler s' then [ErrorReported (ErrorObj message)] else [];
       status := Done (Fulfilled tt);
       final_state := s';
       suspensions := if blob then S n else n |}.
Proof.
  intros s'. rewrite run_handleMessage_read. cbn [isBlob payload]. fold s'.
  generalize (if blob then S n else n). intros k.
  unfold handleMessage. cbn [isBlob payload bind]. rewrite run_try_catch.
  cbn [run]. unfold catch_run. cbn [status events final_state suspensions].
  rewrite run_report_error. cbn [events status final_state suspensions as_error].
  destruct (onErrorHandler s'); reflexivity.
Qed.

(** ** Media parts *)

Lemma run_handle_part_media (now : string) (part : Part) (s : GeminiService)
    (env : Env) (n : nat) :
  media_part part ->
  run (handle_part now part) s env n
  = {| events := part_media_events s part; status := Done (Fulfilled tt);
       final_state := s; suspensions := n |}.
Proof.
  intros [Hfc Hdec]. unfold handle_part, part_media_events. rewrite Hfc.
  rewrite run_bind.
  assert (E1 : run (match inlineData part with
                    | Some d =>
                        match mimeType d with
                        | Some mt =>
                            if String.prefix "audio/pcm" mt then
                              match data d with
                              | NotBase64 message => Throw (ErrorObj message)
                              | Decodes audioData =>
                                  Read (fun s0 =>
                                    if onAudioResponseHandler s0
                                    then Emit (AudioResponse audioData) (Ret tt)
                                    else Ret tt)
                              end
                            else Ret tt
                        | None => Ret tt
                        end
                    | None => Ret tt
                    end) s env n
               = {| events := match inlineData part with
                              | Some d =>
                                  match mimeType d, data d with
                                  | Some mt, Decodes audioData =>
                                      if String.prefix "audio/pcm" mt
                                         && onAudioResponseHandler s
                                      then [AudioResponse audioData] else []
                                  | _, _ => []
                                  end
                              | None => []
                              end;
                    status := Done (Fulfilled tt);
                    final_state := s; suspensions := n |}).
  { destruct (inlineData part) as [d|] eqn:Hd; [|reflexivity].
    destruct (mimeType d) as [mt|] eqn:Hm; [|destruct (data d); reflexivity].
    destruct (String.prefix "audio/pcm" mt) eqn:Hp.
    - destruct (data d) as [bytes|message] eqn:Hdata.
      + cbn [run andb]. destruct (onAudioResponseHandler s); reflexivity.
      + exfalso. exact (Hdec d mt message eq_refl Hm Hp Hdata).
    - destruct (data d); reflexivity. }
  rewrite E1. unfold then_run. cbn [status events final_state suspensions].
  rewrite run_bind.
  assert (E2 : run (match text part with
                    | Some t =>
                        if String.eqb t "" then Ret tt
                        else Read (fun s0 =>
                               if onTextResponseHandler s0
                               then Emit (TextResponse t) (Ret tt) else Ret tt)
                    | None => Ret tt
                    end) s env n
               = {| events := match text part with
                              | Some t =>
                                  if negb (String.eqb t "") && onTextResponseHandler s
                                  then [TextResponse t] else []
                              | None => []
                              end;
                    status := Done (Fulfilled tt);
                    final_state := s; suspensions := n |}).
  { destruct (text part) as [t|]; [|reflexivity].
    destruct (String.eqb t ""); [reflexivity|].
    cbn [run negb andb]. destruct (onTextResponseHandler s); reflexivity. }
  rewrite E2. unfold then_run. cbn [status events final_state suspensions run].
  rewrite app_nil_r. reflexivity.
Qed.

Lemma run_media_parts (now : string) (parts : list Part) (s : GeminiService)
    (env : Env) (n : nat) :
  Forall media_part parts ->
  run (for_each parts (handle_part now)) s env n
  = {| events := flat_map (part_media_events s) parts; status := Done (Fulfilled tt);
       final_state := s; suspensions := n |}.
Proof.
  induction 1 as [|part rest Hp Hrest IH]; [reflexivity|].
  cbn [for_each flat_map]. rewrite run_bind, (run_handle_part_media now part s env n Hp).
  unfold then_run. cbn [status events final_state suspensions]. rewrite IH. reflexivity.
Qed.

(** The audio and text parts of a server message are handed to the
    registered handlers in arrival order, audio before text within a part;
    a handler that is not registered is skipped, as is inline data whose
    type does not begin with [audio/pcm].  Nothing is sent.  The handling
    suspends only to read a [Blob]; the handlers consulted are those of the
    service after that read. *)
Theorem media_parts_dispatched_in_order (now : string) (ev : MessageEvent)
    (m : ServerMessage) (parts : list Part)
    (s : GeminiService) (env : Env) (n : nat) :
  payload ev = Message m ->
  setupComplete m = false ->
  toolCall m = None ->
  serverContent m = Some parts ->
  Forall media_part parts ->
  let s' := if isBlob ev then state_at env n else s in
  run (handleMessage now ev) s env n
  = {| events := flat_map (part_media_events s') parts;
       status := Done (Fulfilled tt);
       final_state := s';
       suspensions := if isBlob ev then S n else n |}.
Proof.
  intros Hm Hsetup Htool Hcontent H s'. rewrite run_handleMessage_read. fold s'.
  generalize (if isBlob ev then S n else n). intros k.
  unfold handleMessage. cbn [isBlob payload bind].
  rewrite Hm, Hsetup, Htool, Hcontent. cbn [bind].
  rewrite run_try_catch, (run_media_parts now parts s' env k H). reflexivity.
Qed.

Lemma media_parts_dispatched_in_order_witness :
  let parts :=
    [ {| inlineData := Some {| mimeType := Some "audio/pcm;rate=24000";
                               data := Decodes [1; 2]%Z |};
         text := Some "hello"; functionCall := None |};
      {| inlineData := Some {| mimeType := Some "image/png"; data := Decodes [9]%Z |};
         text := Some ""; functionCall := None |};
      {| inlineData := None; text := Some "bye"; functionCall := None |} ] in
  run (handleMessage "0" (content_message true parts)) closed_service example_env 0
  = {| events := [AudioResponse [1; 2]%Z; TextResponse "hello"; TextResponse "bye"];
       status := Done (Fulfilled tt);
       final_state := example_service; suspensions := 1 |}.
Proof.
  apply (media_parts_dispatched_in_order "0"
    (content_message true
       [ {| inlineData := Some {| mimeType := Some "audio/pcm;rate=24000";
                                  data := Decodes [1; 2]%Z |};
            text := Some "hello"; functionCall := None |};
         {| inlineData := Some {| mimeType := Some "image/png"; data := Decodes [9]%Z |};
            text := Some ""; functionCall := None |};
         {| inlineData := None; text := Some "bye"; functionCall := None |} ])
    _ _ closed_service example_env 0 eq_refl eq_refl eq_refl eq_refl).
  repeat constructor; cbn; intros d mt message Hd Hm Hp Hdata;
    inversion Hd; subst; cbn in *; try discriminate;
    inversion Hm; subst; cbn in Hp; discriminate.
Defined.

(** Inline audio that is not base64 aborts the message: the parts before it
    are delivered, the error is reported, and neither the text of that part
    nor any later part is delivered.  The handling suspends only to read a
    [Blob]. *)
Theorem undecodable_audio_aborts_message (now message : string)
    (ev : MessageEvent) (m : ServerMessage)
    (before after : list Part) (bad : Part)
    (s : GeminiService) (env : Env) (n : nat) :
  payload ev = Message m ->
  setupComplete m = false ->
  toolCall m = None ->
  serverContent m = Some (before ++ bad :: after) ->
  Forall media_part before ->
  undecodable_part bad message ->
  let s' := if isBlob ev then state_at env n else s in
  run (handleMessage now ev) s env n
  = {| events := flat_map (part_media_events s') before
                 ++ (if onErrorHandler s' then [ErrorReported (ErrorObj message)] else []);
       status := Done (Fulfilled tt);
       final_state := s';
       suspensions := if isBlob ev then S n else n |}.
Proof.
  intros Hmsg Hsetup Htool Hcontent Hb (d & mt & Hd & Hm & Hp & Hdata) s'.
  rewrite run_handleMessage_read. fold s'.
  generalize (if isBlob ev then S n else n). intros k.
  unfold handleMessage. cbn [isBlob payload bind].
  rewrite Hmsg, Hsetup, Htool, Hcontent. cbn [bind]. clear Hcontent.
  rewrite run_try_catch.
  assert (E : run (for_each (before ++ bad :: after) (handle_part now)) s' env k
              = {| events := flat_map (part_media_events s') before;
                   status := Done (Rejected (ErrorObj message));
                   final_state := s'; suspensions := k |}).
  { induction Hb as [|part rest Hpart Hrest IH].
    - cbn [app for_each flat_map]. rewrite run_bind.
      unfold handle_part. rewrite Hd, Hm, Hp, Hdata. rewrite run_bind.
      cbn [run]. unfold then_run. cbn [status events final_state suspensions].
      reflexivity.
    - cbn [app for_each flat_map].
      rewrite run_bind, (run_handle_part_media now part s' env k Hpart).
      unfold then_run. cbn [status events final_state suspensions]. rewrite IH.
      reflexivity. }
  rewrite E. unfold catch_run. cbn [status events final_state suspensions].
  rewrite run_report_error. cbn [events status final_state suspensions as_error].
  reflexivity.
Qed.

Lemma undecodable_audio_aborts_message_witness :
  let before := [{| inlineData := None; text := Some "one"; functionCall := None |}] in
  let bad := {| inlineData := Some {| mimeType := Some "audio/pcm";
                                      data := NotBase64 "bad" |};
                text := Some "two"; functionCall := None |} in
  let after := [{| inlineData := None; text := Some "three"; functionCall := None |}] in
  run (handleMessage "0" (content_message true (before ++ bad :: after)))
      closed_service example_env 0
  = {| events := [TextResponse "one"; ErrorReported (ErrorObj "bad")];
       status := Done (Fulfilled tt);
       final_state := example_service; suspensions := 1 |}.
Proof.
  apply (undecodable_audio_aborts_message "0" "bad"
           (content_message true
              ([{| inlineData := None; text := Some "one"; functionCall := None |}]
               ++ {| inlineData := Some {| mimeType := Some "audio/pcm";
                                           data := NotBase64 "bad" |};
                     text := Some "two"; functionCall := None |}
               :: [{| inlineData := None; text := Some "three";
                      functionCall := None |}]))
           _
           [{| inlineData := None; text := Some "one"; functionCall := None |}]
           [{| inlineData := None; text := Some "three"; functionCall := None |}]
           {| inlineData := Some {| mimeType := Some "audio/pcm";
                                    data := NotBase64 "bad" |};
              text := Some "two"; functionCall := None |}
           closed_service example_env 0 eq_refl eq_refl eq_refl eq_refl).
  - repeat constructor. cbn. intros d mt message Hd. discriminate.
  - eexists. eexists. repeat split; reflexivity.
Defined.

End GeminiFacts.

(* ================================================================== *)
(** * The session in its environment: properties *)
(* ================================================================== *)

Module SessionFacts.
Import Gemini Session GeminiFacts.
Local Open Scope string_scope.
Local Open Scope list_scope.

(** ** Readiness *)

(** C3 as stated fails: after [connect] and the socket's [open] event the
    promise of [connect] has resolved and [isConnected()] is true, the setup
    message being the only thing sent, although no message at all has been
    received; a frame captured in that state is transmitted. *)
Lemma ready_before_acknowledgment :
  exists w,
    run_inputs initial_world [CallConnect example_config; SocketOpen]
    = Some (w, [WsSend (Setup "You are MARS")])
    /\ ready w = true
    /\ received w = []
    /\ ack_received w = false
    /\ exists w', step w (CaptureFrame [1; 2]%Z)
                  = Some (w', [WsSend (RealtimeInput [1; 2]%Z)]).
Proof.
  eexists. split; [reflexivity|]. cbn. repeat split. eexists. reflexivity.
Qed.

(** Handling an acknowledgment: no event, and the computation ends. *)
Lemma run_setupComplete (now : string) (m : ServerMessage) (s : GeminiService)
    (env : Env) (n : nat) :
  setupComplete m = true ->
  run (handleMessage now {| isBlob := false; payload := Message m |}) s env n
  = {| events := []; status := Done (Fulfilled tt);
       final_state := s; suspensions := n |}.
Proof.
  intros H. unfold handleMessage. cbn [isBlob payload]. rewrite H. reflexivity.
Qed.

(** C3 (as the code behaves).  The session becomes Ready when the socket
    opens: the [open] event sends the setup message, resolves the promise of
    [connect] and makes [isConnected()] true, no message having been
    received.  A handshake acknowledgment received afterwards causes no
    event and changes neither the service nor the promise. *)
Theorem ready_when_socket_opens (w : World) (now : string) (m : ServerMessage) :
  ws (service w) = Some CONNECTING ->
  connectPromise w = PendingConnect ->
  setupComplete m = true ->
  exists w1,
    step w SocketOpen = Some (w1, [WsSend (Setup (systemPrompt w))])
    /\ ready w = false
    /\ ready w1 = true
    /\ received w1 = received w
    /\ exists w2,
         step w1 (SocketMessage now {| isBlob := false; payload := Message m |})
         = Some (w2, [])
         /\ service w2 = service w1
         /\ connectPromise w2 = connectPromise w1
         /\ ready w2 = true.
Proof.
  intros Hws Hp Hm. unfold step. rewrite Hws.
  eexists. split; [unfold onopen; cbn; reflexivity|].
  unfold ready. rewrite Hp. cbn. repeat split.
  unfold spawn, onmessage, await_call, settle, handleMessage. cbn. rewrite Hm. cbn.
  eexists. split; [reflexivity|]. cbn. auto.
Qed.

Lemma ready_when_socket_opens_witness :
  exists w1,
    step connecting_world SocketOpen
    = Some (w1, [WsSend (Setup (systemPrompt connecting_world))])
    /\ ready connecting_world = false
    /\ ready w1 = true
    /\ received w1 = received connecting_world
    /\ exists w2,
         step w1 (SocketMessage "0" {| isBlob := false;
                                       payload := Message
                                         {| setupComplete := true; toolCall := None;
                                            serverContent := None;
                                            toolCallCancellation := false |} |})
         = Some (w2, [])
         /\ service w2 = service w1
         /\ connectPromise w2 = connectPromise w1
         /\ ready w2 = true.
Proof.
  apply (ready_when_socket_opens connecting_world "0"
           {| setupComplete := true; toolCall := None; serverContent := None;
              toolCallCancellation := false |}); reflexivity.
Defined.


(** ** Captured audio *)

Lemma audio_sent_app (a b : list Event) :
  audio_sent (a ++ b) = audio_sent a ++ audio_sent b.
Proof. unfold audio_sent. apply flat_map_app. Qed.

Lemma no_audio_bind {A B : Type} (p : Async A) (f : A -> Async B) :
  no_audio p -> (forall a, no_audio (f a)) -> no_audio (bind p f).
Proof.
  intros Hp Hf. induction p as [a|e|k IH|ev k IH|call k IH|k IH]; cbn in *; auto.
  destruct Hp as [H1 H2]. split; auto.
Qed.

Lemma no_audio_try_catch {A : Type} (p : Async A) (h : Thrown -> Async A) :
  no_audio p -> (forall e, no_audio (h e)) -> no_audio (try_catch p h).
Proof.
  intros Hp Hh. induction p as [a|e|k IH|ev k IH|call k IH|k IH]; cbn in *; auto.
  destruct Hp as [H1 H2]. split; auto.
Qed.

Lemma no_audio_of_settled {A : Type} (r : Settled A) : no_audio (of_settled r).
Proof. destruct r; exact I. Qed.

Lemma no_audio_await_call {A : Type} (p : Async A) :
  no_audio p -> no_audio (await_call p).
Proof.
  intros Hp. unfold await_call, settle. apply no_audio_bind.
  - apply no_audio_try_catch; [|intros e; exact I].
    apply no_audio_bind; [exact Hp|intros a; exact I].
  - intros r. cbn. apply no_audio_of_settled.
Qed.

Lemma no_audio_report_error (e : Thrown) : no_audio (report_error e).
Proof.
  unfold report_error. cbn [no_audio]. intros s.
  destruct (onErrorHandler s); cbn [no_audio]; auto.
Qed.

Lemma no_audio_guarded_send (m : ClientMessage) :
  audio_sent [WsSend m] = [] -> no_audio (guarded_send m).
Proof.
  intros Hm. unfold guarded_send. cbn [no_audio]. intros s.
  destruct (negb (ws_open s)); cbn [no_audio try_catch]; auto.
Qed.

Lemma no_audio_handleFunctionCall (call : FunctionCall) :
  no_audio (handleFunctionCall call).
Proof.
  unfold handleFunctionCall. cbn [no_audio]. intros s.
  destruct (negb (functionHandler s)).
  - apply no_audio_await_call, no_audio_guarded_send. reflexivity.
  - apply no_audio_try_catch.
    + apply no_audio_bind.
      * unfold await_handler. cbn [no_audio]. intros o. apply no_audio_of_settled.
      * intros result. apply no_audio_await_call, no_audio_guarded_send. reflexivity.
    + intros e. apply no_audio_await_call, no_audio_guarded_send. reflexivity.
Qed.

Lemma no_audio_for_each {A : Type} (xs : list A) (body : A -> Async unit) :
  (forall x, no_audio (body x)) -> no_audio (for_each xs body).
Proof.
  intros Hb. induction xs as [|x rest IH]; cbn [for_each]; [exact I|].
  apply no_audio_bind; auto.
Qed.

Lemma no_audio_handle_part (now : string) (part : Part) :
  no_audio (handle_part now part).
Proof.
  unfold handle_part. apply no_audio_bind; [|intros _; apply no_audio_bind; [|intros _]].
  - destruct (inlineData part) as [d|]; [|exact I].
    destruct (mimeType d) as [mt|]; [|exact I].
    destruct (String.prefix "audio/pcm" mt); [|exact I].
    destruct (data d); cbn [no_audio]; auto.
    intros s. destruct (onAudioResponseHandler s); cbn [no_audio]; auto.
  - destruct (text part) as [t|]; [|exact I].
    destruct (String.eqb t ""); cbn [no_audio]; auto.
    intros s. destruct (onTextResponseHandler s); cbn [no_audio]; auto.
  - destruct (functionCall part) as [fc|]; [|exact I].
    apply no_audio_await_call, no_audio_handleFunctionCall.
Qed.

Lemma no_audio_handleMessage (now : string) (ev : MessageEvent) :
  no_audio (handleMessage now ev).
Proof.
  unfold handleMessage. apply no_audio_try_catch; [|apply no_audio_report_error].
  apply no_audio_bind; [destruct (isBlob ev); exact I|]. intros _.
  destruct (payload ev) as [message|m]; [exact I|].
  destruct (setupComplete m); [exact I|].
  apply no_audio_bind.
  - destruct (toolCall m) as [calls|]; [|exact I].
    apply no_audio_for_each. intros fc.
    apply no_audio_await_call, no_audio_handleFunctionCall.
  - intros _. destruct (serverContent m) as [parts|]; [|exact I].
    apply no_audio_for_each. intros part. apply no_audio_handle_part.
Qed.

Lemma advance_no_audio (p : Async unit) (s : GeminiService) :
  no_audio p ->
  audio_sent (fst (advance p s)) = []
  /\ forall t, snd (advance p s) = Suspends t -> quiet t.
Proof.
  induction p as [a|e|k IH|ev k IH|call k IH|k IH]; cbn [advance no_audio]; intros Hp.
  - split; [reflexivity|discriminate].
  - split; [reflexivity|discriminate].
  - apply IH, Hp.
  - destruct Hp as [H1 H2]. destruct (IH H2) as [Ha Hq].
    destruct (advance k s) as [evs st]. cbn [fst snd] in *.
    split; [|exact Hq].
    change (ev :: evs) with ([ev] ++ evs). rewrite audio_sent_app, H1, Ha. reflexivity.
  - split; [reflexivity|]. intros t Ht. inversion Ht; subst. exact Hp.
  - split; [reflexivity|]. intros t Ht. inversion Ht; subst. exact Hp.
Qed.

(** What the frame callback does in one segment: it writes the frame when
    the socket is open and nothing otherwise; either way what remains of it
    writes nothing. *)
Lemma advance_onFrame (audioData : ArrayBuffer) (s : GeminiService) :
  exists k,
    advance (onFrame audioData) s
    = ((if isConnected s then [WsSend (RealtimeInput audioData)] else []),
       Suspends (OnTick k))
    /\ no_audio k.
Proof.
  unfold onFrame, await_call, settle, sendAudio, guarded_send, isConnected.
  cbn. destruct (ws_open s); cbn; eexists; (split; [reflexivity|cbn; auto]).
Qed.

Lemma spawn_quiet (w : World) (p : Async unit) :
  Forall quiet (tasks w) -> no_audio p ->
  Forall quiet (tasks (fst (spawn w p))) /\ audio_sent (snd (spawn w p)) = [].
Proof.
  intros Hw Hp. unfold spawn.
  destruct (advance_no_audio p (service w) Hp) as [Ha Hq].
  destruct (advance p (service w)) as [evs st]. cbn [fst snd] in *.
  destruct st as [r|t]; cbn [fst snd].
  - auto.
  - split; [|exact Ha]. cbn [tasks with_tasks]. apply Forall_app. split; [exact Hw|].
    constructor; [apply Hq; reflexivity|constructor].
Qed.

Lemma remove_nth_Forall {A : Type} (P : A -> Prop) (l : list A) :
  forall i, Forall P l -> Forall P (remove_nth i l).
Proof.
  induction l as [|x l IH]; intros i H; destruct i; cbn; auto;
    inversion H; subst; auto.
Qed.

(** One step: suspended calls stay free of audio writes, and audio is
    written exactly for a frame captured while connected. *)
Lemma step_audio (w w' : World) (i : Input) (evs : list Event) :
  Forall quiet (tasks w) ->
  step w i = Some (w', evs) ->
  Forall quiet (tasks w')
  /\ audio_sent evs = match i with
                      | CaptureFrame audioData =>
                          if isConnected (service w) then [audioData] else []
                      | _ => []
                      end.
Proof.
  intros Hq Hs. destruct i; cbn [step] in Hs.
  - inversion Hs; subst. auto.
  - destruct (ws (service w)) as [[| | |]|]; try discriminate.
    inversion Hs; subst. cbn. auto.
  - destruct (ws (service w)) as [[| | |]|]; try discriminate;
      inversion Hs; subst; auto.
  - destruct (ws (service w)) as [[| | |]|]; try discriminate;
      inversion Hs; subst; auto.
  - destruct (ws (service w)) as [[| | |]|]; try discriminate.
    match type of Hs with Some (spawn ?w0 ?p) = _ =>
      destruct (spawn_quiet w0 p Hq) as [H1 H2];
        [unfold onmessage; apply no_audio_await_call, no_audio_handleMessage|];
        destruct (spawn w0 p) as [w1 evs1] end.
    inversion Hs; subst. auto.
  - inversion Hs; subst. auto.
  - match type of Hs with Some (spawn ?w0 ?p) = _ =>
      destruct (spawn_quiet w0 p Hq) as [H1 H2];
        [unfold sendText; apply no_audio_guarded_send; reflexivity|];
        destruct (spawn w0 p) as [w1 evs1] end.
    inversion Hs; subst. auto.
  - unfold spawn in Hs.
    destruct (advance_onFrame audioData (service w)) as (k & Hk & Hn).
    rewrite Hk in Hs. inversion Hs; subst. cbn [tasks with_tasks]. split.
    + apply Forall_app. split; [exact Hq|]. constructor; [exact Hn|constructor].
    + destruct (isConnected (service w)); reflexivity.
  - inversion Hs; subst. auto.
  - inversion Hs; subst. auto.
  - inversion Hs; subst. auto.
  - inversion Hs; subst. auto.
  - destruct (nth_error (tasks w) task) as [[call k|k]|] eqn:Ht; try discriminate.
    + pose proof (proj1 (Forall_forall quiet (tasks w)) Hq _ (nth_error_In _ _ Ht)) as Hk.
      match type of Hs with Some (spawn ?w0 ?p) = _ =>
        destruct (spawn_quiet w0 p) as [H1 H2];
          [cbn [tasks with_tasks]; apply remove_nth_Forall; exact Hq|apply Hk|];
          destruct (spawn w0 p) as [w1 evs1] end.
      inversion Hs; subst. auto.
    + pose proof (proj1 (Forall_forall quiet (tasks w)) Hq _ (nth_error_In _ _ Ht)) as Hk.
      match type of Hs with Some (spawn ?w0 ?p) = _ =>
        destruct (spawn_quiet w0 p) as [H1 H2];
          [cbn [tasks with_tasks]; apply remove_nth_Forall; exact Hq|apply Hk|];
          destruct (spawn w0 p) as [w1 evs1] end.
      inversion Hs; subst. auto.
Qed.

(** Over any sequence of inputs the audio written to the socket is exactly
    the frames captured while connected, in capture order. *)
Lemma run_inputs_audio (inputs : list Input) :
  forall w w' evs,
    Forall quiet (tasks w) ->
    run_inputs w inputs = Some (w', evs) ->
    audio_sent evs = frames_while_connected w inputs.
Proof.
  induction inputs as [|i rest IH]; intros w w' evs Hq Hr; cbn in Hr.
  - inversion Hr; subst. reflexivity.
  - cbn [frames_while_connected].
    destruct (step w i) as [[w1 evs1]|] eqn:Hs; [|discriminate].
    destruct (run_inputs w1 rest) as [[w2 evs2]|] eqn:Hr2; [|discriminate].
    inversion Hr; subst.
    destruct (step_audio w w1 i evs1 Hq Hs) as [Hq1 Ha].
    rewrite audio_sent_app, Ha, (IH w1 w' evs2 Hq1 Hr2). reflexivity.
Qed.

(** C9.  A frame captured while the session is not connected is dropped:
    [sendAudio] throws without writing to the socket, the frame callback
    absorbs the exception (its promise is fulfilled and nothing is written),
    and the step leaves the service unchanged.  Nothing is kept for later:
    over any further inputs the audio written to the socket is exactly the
    frames captured afterwards while connected, so the dropped frame is not
    sent once the session connects; the same holds for every run from the
    initial session. *)
Theorem frame_dropped_when_not_connected (w : World) (audioData : ArrayBuffer)
    (env : Env) (n : nat) :
  isConnected (service w) = false ->
  Forall quiet (tasks w) ->
  run (sendAudio audioData) (service w) env n
  = {| events := [];
       status := Done (Rejected (ErrorObj "Not connected to Gemini"));
       final_state := service w; suspensions := n |}
  /\ events (run (onFrame audioData) (service w) env n) = []
  /\ status (run (onFrame audioData) (service w) env n) = Done (Fulfilled tt)
  /\ (exists w1,
        step w (CaptureFrame audioData) = Some (w1, [])
        /\ service w1 = service w
        /\ connectPromise w1 = connectPromise w
        /\ forall inputs w2 evs,
             run_inputs w1 inputs = Some (w2, evs) ->
             audio_sent evs = frames_while_connected w1 inputs)
  /\ (forall inputs w2 evs,
        run_inputs initial_world inputs = Some (w2, evs) ->
        audio_sent evs = frames_while_connected initial_world inputs).
Proof.
  intros Hc Hq. unfold isConnected in Hc.
  split; [apply run_guarded_send_closed; exact Hc|].
  split; [|split; [|split]].
  - unfold onFrame. rewrite run_try_catch. unfold sendAudio.
    rewrite (run_await_send_closed _ _ env n Hc). reflexivity.
  - unfold onFrame. rewrite run_try_catch. unfold sendAudio.
    rewrite (run_await_send_closed _ _ env n Hc). reflexivity.
  - destruct (step w (CaptureFrame audioData)) as [[w1 evs1]|] eqn:Hs;
      [|discriminate Hs].
    destruct (step_audio w w1 _ evs1 Hq Hs) as [Hq1 Ha].
    cbn [step] in Hs. unfold spawn in Hs.
    destruct (advance_onFrame audioData (service w)) as (k & Hk & Hn).
    rewrite Hk in Hs. unfold isConnected in Hs. rewrite Hc in Hs.
    inversion Hs; subst. eexists. split; [reflexivity|].
    cbn [service connectPromise with_tasks]. repeat split.
    intros inputs w2 evs Hr. eapply run_inputs_audio; [exact Hq1|exact Hr].
  - intros inputs w2 evs Hr. eapply run_inputs_audio; [constructor|exact Hr].
Qed.

Lemma frame_dropped_when_not_connected_witness :
  let w := connecting_world in
  let audioData := [1; 2; 3]%Z in
  run (sendAudio audioData) (service w) example_env 0
  = {| events := [];
       status := Done (Rejected (ErrorObj "Not connected to Gemini"));
       final_state := service w; suspensions := 0 |}
  /\ events (run (onFrame audioData) (service w) example_env 0) = []
  /\ status (run (onFrame audioData) (service w) example_env 0) = Done (Fulfilled tt)
  /\ (exists w1,
        step w (CaptureFrame audioData) = Some (w1, [])
        /\ service w1 = service w
        /\ connectPromise w1 = connectPromise w
        /\ forall inputs w2 evs,
             run_inputs w1 inputs = Some (w2, evs) ->
             audio_sent evs = frames_while_connected w1 inputs)
  /\ (forall inputs w2 evs,
        run_inputs initial_world inputs = Some (w2, evs) ->
        audio_sent evs = frames_while_connected initial_world inputs).
Proof.
  apply (frame_dropped_when_not_connected connecting_world [1; 2; 3]%Z example_env 0).
  - reflexivity.
  - constructor.
Defined.

(** A frame captured before the socket opens is not sent when it opens;
    the frame captured after is. *)
Example dropped_frame_not_sent_later :
  exists w,
    run_inputs initial_world
      [CallConnect example_config; CaptureFrame [1; 2]%Z; SocketOpen;
       CaptureFrame [3; 4]%Z]
    = Some (w, [WsSend (Setup "You are MARS"); WsSend (RealtimeInput [3; 4]%Z)]).
Proof. eexists. reflexivity. Qed.


(** ** Socket writes *)

Lemma sent_app (a b : list Event) : sent (a ++ b) = sent a ++ sent b.
Proof. unfold sent. apply flat_map_app. Qed.

Lemma wwo_bind {A B : Type} (p : Async A) (f : A -> Async B) :
  forall s, writes_when_open s p -> (forall a s', writes_when_open s' (f a)) ->
            writes_when_open s (bind p f).
Proof.
  induction p as [a|e|k IH|ev k IH|call k IH|k IH];
    intros s Hp Hf; cbn [bind writes_when_open] in *; auto.
  destruct Hp as [H1 H2]. split; auto.
Qed.

Lemma wwo_try_catch {A : Type} (p : Async A) (h : Thrown -> Async A) :
  forall s, writes_when_open s p -> (forall e s', writes_when_open s' (h e)) ->
            writes_when_open s (try_catch p h).
Proof.
  induction p as [a|e|k IH|ev k IH|call k IH|k IH];
    intros s Hp Hh; cbn [try_catch writes_when_open] in *; auto.
  destruct Hp as [H1 H2]. split; auto.
Qed.

Lemma wwo_of_settled {A : Type} (r : Settled A) (s : GeminiService) :
  writes_when_open s (of_settled r).
Proof. destruct r; exact I. Qed.

Lemma wwo_await_call {A : Type} (p : Async A) (s : GeminiService) :
  writes_when_open s p -> writes_when_open s (await_call p).
Proof.
  intros Hp. unfold await_call, settle. apply wwo_bind.
  - apply wwo_try_catch; [|intros e s'; exact I].
    apply wwo_bind; [exact Hp|intros a s'; exact I].
  - intros r s'. cbn [writes_when_open]. intros s''. apply wwo_of_settled.
Qed.

Lemma wwo_report_error (e : Thrown) (s : GeminiService) :
  writes_when_open s (report_error e).
Proof.
  unfold report_error. cbn [writes_when_open].
  destruct (onErrorHandler s); cbn [writes_when_open]; auto.
Qed.

Lemma wwo_guarded_send (m : ClientMessage) (s : GeminiService) :
  writes_when_open s (guarded_send m).
Proof.
  unfold guarded_send. cbn [writes_when_open].
  destruct (ws_open s) eqn:E; cbn [negb try_catch writes_when_open]; [|exact I].
  split; [intros H; rewrite E in H; discriminate H|exact I].
Qed.

Lemma wwo_handleFunctionCall (call : FunctionCall) (s : GeminiService) :
  writes_when_open s (handleFunctionCall call).
Proof.
  unfold handleFunctionCall. cbn [writes_when_open].
  destruct (negb (functionHandler s)).
  - apply wwo_await_call, wwo_guarded_send.
  - apply wwo_try_catch.
    + apply wwo_bind.
      * unfold await_handler. cbn [writes_when_open]. intros o s'. apply wwo_of_settled.
      * intros result s'. apply wwo_await_call, wwo_guarded_send.
    + intros e s'. apply wwo_await_call, wwo_guarded_send.
Qed.

Lemma wwo_for_each {A : Type} (xs : list A) (body : A -> Async unit) :
  (forall x s, writes_when_open s (body x)) ->
  forall s, writes_when_open s (for_each xs body).
Proof.
  intros Hb. induction xs as [|x rest IH]; intros s; cbn [for_each]; [exact I|].
  apply wwo_bind; auto.
Qed.

Lemma wwo_handle_part (now : string) (part : Part) (s : GeminiService) :
  writes_when_open s (handle_part now part).
Proof.
  unfold handle_part.
  apply wwo_bind; [|intros _ s1; apply wwo_bind; [|intros _ s2]].
  - destruct (inlineData part) as [d|]; [|exact I].
    destruct (mimeType d) as [mt|]; [|exact I].
    destruct (String.prefix "audio/pcm" mt); [|exact I].
    destruct (data d); cbn [writes_when_open]; auto.
    destruct (onAudioResponseHandler s); cbn [writes_when_open]; auto.
  - destruct (text part) as [t|]; [|exact I].
    destruct (String.eqb t ""); cbn [writes_when_open]; auto.
    destruct (onTextResponseHandler s1); cbn [writes_when_open]; auto.
  - destruct (functionCall part) as [fc|]; [|exact I].
    apply wwo_await_call, wwo_handleFunctionCall.
Qed.

Lemma wwo_handleMessage (now : string) (ev : MessageEvent) (s : GeminiService) :
  writes_when_open s (handleMessage now ev).
Proof.
  unfold handleMessage.
  apply wwo_try_catch; [|intros e s'; apply wwo_report_error].
  apply wwo_bind; [destruct (isBlob ev); cbn [writes_when_open]; auto|].
  intros _ s1.
  destruct (payload ev) as [message|m]; [exact I|].
  destruct (setupComplete m); [exact I|].
  apply wwo_bind.
  - destruct (toolCall m) as [calls|]; [|exact I].
    apply wwo_for_each. intros fc s2.
    apply wwo_await_call, wwo_handleFunctionCall.
  - intros _ s2. destruct (serverContent m) as [parts|]; [|exact I].
    apply wwo_for_each. intros part s3. apply wwo_handle_part.
Qed.

Lemma wwo_onFrame (audioData : ArrayBuffer) (s : GeminiService) :
  writes_when_open s (onFrame audioData).
Proof.
  unfold onFrame. apply wwo_try_catch; [|intros e s'; exact I].
  apply wwo_await_call. unfold sendAudio. apply wwo_guarded_send.
Qed.

Lemma advance_wwo (p : Async unit) (s : GeminiService) :
  writes_when_open s p ->
  (ws_open s = false -> sent (fst (advance p s)) = [])
  /\ forall t, snd (advance p s) = Suspends t -> guarded t.
Proof.
  induction p as [a|e|k IH|ev k IH|call k IH|k IH];
    cbn [advance writes_when_open]; intros Hp.
  - split; [reflexivity|discriminate].
  - split; [reflexivity|discriminate].
  - apply IH, Hp.
  - destruct Hp as [H1 H2]. destruct (IH H2) as [Ha Hq].
    destruct (advance k s) as [evs st]. cbn [fst snd] in *.
    split; [|exact Hq]. intros Hc.
    change (ev :: evs) with ([ev] ++ evs). rewrite sent_app, (H1 Hc), (Ha Hc). reflexivity.
  - split; [reflexivity|]. intros t Ht. inversion Ht; subst. exact Hp.
  - split; [reflexivity|]. intros t Ht. inversion Ht; subst. exact Hp.
Qed.

Lemma spawn_guarded (w : World) (p : Async unit) :
  Forall guarded (tasks w) -> writes_when_open (service w) p ->
  Forall guarded (tasks (fst (spawn w p)))
  /\ service (fst (spawn w p)) = service w
  /\ (ws_open (service w) = false -> sent (snd (spawn w p)) = []).
Proof.
  intros Hw Hp. unfold spawn.
  destruct (advance_wwo p (service w) Hp) as [Ha Hq].
  destruct (advance p (service w)) as [evs st]. cbn [fst snd] in *.
  destruct st as [r|t]; cbn [fst snd].
  - auto.
  - split; [|split; [reflexivity|exact Ha]]. cbn [tasks with_tasks].
    apply Forall_app. split; [exact Hw|].
    constructor; [apply Hq; reflexivity|constructor].
Qed.

(** One step: suspended calls stay guarded, and the step writes nothing
    unless the socket is open when it ends. *)
Lemma step_guarded (w w' : World) (i : Input) (evs : list Event) :
  Forall guarded (tasks w) ->
  step w i = Some (w', evs) ->
  Forall guarded (tasks w')
  /\ (ws_open (service w') = false -> sent evs = []).
Proof.
  intros Hq Hs. destruct i; cbn [step] in Hs.
  - inversion Hs; subst. auto.
  - destruct (ws (service w)) as [[| | |]|]; try discriminate.
    inversion Hs; subst. cbn. split; [exact Hq|discriminate].
  - destruct (ws (service w)) as [[| | |]|]; try discriminate;
      inversion Hs; subst; auto.
  - destruct (ws (service w)) as [[| | |]|]; try discriminate;
      inversion Hs; subst; auto.
  - destruct (ws (service w)) as [[| | |]|]; try discriminate.
    match type of Hs with Some (spawn ?w0 ?p) = _ =>
      destruct (spawn_guarded w0 p Hq) as (H1 & H2 & H3);
        [unfold onmessage; apply wwo_await_call, wwo_handleMessage|];
        destruct (spawn w0 p) as [w1 evs1] end.
    inversion Hs; subst. cbn [fst snd service] in *. rewrite H2. auto.
  - inversion Hs; subst. auto.
  - match type of Hs with Some (spawn ?w0 ?p) = _ =>
      destruct (spawn_guarded w0 p Hq) as (H1 & H2 & H3);
        [unfold sendText; apply wwo_guarded_send|];
        destruct (spawn w0 p) as [w1 evs1] end.
    inversion Hs; subst. cbn [fst snd] in *. rewrite H2. auto.
  - match type of Hs with Some (spawn ?w0 ?p) = _ =>
      destruct (spawn_guarded w0 p Hq) as (H1 & H2 & H3);
        [apply wwo_onFrame|];
        destruct (spawn w0 p) as [w1 evs1] end.
    inversion Hs; subst. cbn [fst snd] in *. rewrite H2. auto.
  - inversion Hs; subst. auto.
  - inversion Hs; subst. auto.
  - inversion Hs; subst. auto.
  - inversion Hs; subst. auto.
  - destruct (nth_error (tasks w) task) as [[call k|k]|] eqn:Ht; try discriminate.
    + pose proof (proj1 (Forall_forall guarded (tasks w)) Hq _ (nth_error_In _ _ Ht)) as Hk.
      match type of Hs with Some (spawn ?w0 ?p) = _ =>
        destruct (spawn_guarded w0 p) as (H1 & H2 & H3);
          [cbn [tasks with_tasks]; apply remove_nth_Forall; exact Hq|apply Hk|];
          destruct (spawn w0 p) as [w1 evs1] end.
      inversion Hs; subst. cbn [fst snd service with_tasks] in *. rewrite H2. auto.
    + pose proof (proj1 (Forall_forall guarded (tasks w)) Hq _ (nth_error_In _ _ Ht)) as Hk.
      match type of Hs with Some (spawn ?w0 ?p) = _ =>
        destruct (spawn_guarded w0 p) as (H1 & H2 & H3);
          [cbn [tasks with_tasks]; apply remove_nth_Forall; exact Hq|apply Hk|];
          destruct (spawn w0 p) as [w1 evs1] end.
      inversion Hs; subst. cbn [fst snd service with_tasks] in *. rewrite H2. auto.
Qed.

Lemma run_inputs_guarded (inputs : list Input) :
  forall w w' evs,
    Forall guarded (tasks w) ->
    run_inputs w inputs = Some (w', evs) ->
    Forall guarded (tasks w').
Proof.
  induction inputs as [|i rest IH]; intros w w' evs Hq Hr; cbn in Hr.
  - inversion Hr; subst. exact Hq.
  - destruct (step w i) as [[w1 evs1]|] eqn:Hs; [|discriminate].
    destruct (run_inputs w1 rest) as [[w2 evs2]|] eqn:Hr2; [|discriminate].
    inversion Hr; subst.
    destruct (step_guarded w w1 i evs1 Hq Hs) as [Hq1 _].
    exact (IH w1 w' evs2 Hq1 Hr2).
Qed.

(** In any run of the session, a step that ends with the socket not open
    (absent, connecting, closing or closed) has written nothing to it:
    whatever is resumed or called then, every write is behind the check of
    the ready state. *)
Theorem socket_written_only_while_open (inputs : list Input) (w w' : World)
    (i : Input) (evs0 evs : list Event) :
  run_inputs initial_world inputs = Some (w, evs0) ->
  step w i = Some (w', evs) ->
  isConnected (service w') = false ->
  sent evs = [].
Proof.
  intros Hr Hs Hc.
  assert (Hq : Forall guarded (tasks w)).
  { apply (run_inputs_guarded inputs initial_world w evs0); [constructor|exact Hr]. }
  destruct (step_guarded w w' i evs Hq Hs) as [_ H]. exact (H Hc).
Qed.

Lemma socket_written_only_while_open_witness :
  let inputs := call_in_flight ++ [SocketClose; Resume 0 (Fulfilled JNull);
                                   Resume 0 (Fulfilled JNull);
                                   Resume 0 (Fulfilled JNull)] in
  let w := world_after initial_world inputs in
  let i := Resume 0 (Fulfilled JNull) in
  run_inputs initial_world inputs = Some (w, events_after initial_world inputs)
  /\ step w i = Some (world_after w [i], events_after w [i])
  /\ isConnected (service (world_after w [i])) = false
  /\ events_after w [i] = [ErrorReported (ErrorObj "Not connected to Gemini")]
  /\ sent (events_after w [i]) = [].
Proof.
  cbv zeta.
  split; [vm_compute; reflexivity|]. split; [vm_compute; reflexivity|].
  split; [vm_compute; reflexivity|]. split; [vm_compute; reflexivity|].
  apply (socket_written_only_while_open
           (call_in_flight ++ [SocketClose; Resume 0 (Fulfilled JNull);
                               Resume 0 (Fulfilled JNull); Resume 0 (Fulfilled JNull)])
           (world_after initial_world
              (call_in_flight ++ [SocketClose; Resume 0 (Fulfilled JNull);
                                  Resume 0 (Fulfilled JNull);
                                  Resume 0 (Fulfilled JNull)]))
           (world_after
              (world_after initial_world
                 (call_in_flight ++ [SocketClose; Resume 0 (Fulfilled JNull);
                                     Resume 0 (Fulfilled JNull);
                                     Resume 0 (Fulfilled JNull)]))
              [Resume 0 (Fulfilled JNull)])
           (Resume 0 (Fulfilled JNull))
           (events_after initial_world
              (call_in_flight ++ [SocketClose; Resume 0 (Fulfilled JNull);
                                  Resume 0 (Fulfilled JNull);
                                  Resume 0 (Fulfilled JNull)])));
    vm_compute; reflexivity.
Defined.

Lemma spawn_service (w : World) (p : Async unit) :
  service (fst (spawn w p)) = service w.
Proof. unfold spawn. destruct (advance p (service w)) as [e [r|t]]; reflexivity. Qed.

Lemma step_stays_disconnected (w w' : World) (i : Input) (evs : list Event) :
  ws (service w) = None -> is_connect i = false ->
  step w i = Some (w', evs) -> ws (service w') = None.
Proof.
  intros Hn Hi Hs. destruct i; cbn [step is_connect] in *; try discriminate;
    try (rewrite Hn in Hs; discriminate);
    try (inversion Hs; subst; cbn [service with_service ws]; exact Hn).
  - inversion Hs; subst. cbn [service with_service]. unfold disconnect.
    rewrite Hn. exact Hn.
  - match type of Hs with Some (spawn ?w0 ?p) = _ =>
      pose proof (spawn_service w0 p) as E;
      destruct (spawn w0 p) as [w1 evs1] end.
    inversion Hs; subst. cbn [fst] in E. rewrite E. exact Hn.
  - match type of Hs with Some (spawn ?w0 ?p) = _ =>
      pose proof (spawn_service w0 p) as E;
      destruct (spawn w0 p) as [w1 evs1] end.
    inversion Hs; subst. cbn [fst] in E. rewrite E. exact Hn.
  - destruct (nth_error (tasks w) task) as [[call k|k]|]; try discriminate;
      match type of Hs with Some (spawn ?w0 ?p) = _ =>
        pose proof (spawn_service w0 p) as E;
        destruct (spawn w0 p) as [w1 evs1] end;
      inversion Hs; subst; cbn [fst] in E; rewrite E; exact Hn.
Qed.

Lemma run_inputs_disconnected (inputs : list Input) :
  forall w w' evs,
    Forall guarded (tasks w) ->
    ws (service w) = None ->
    forallb (fun i => negb (is_connect i)) inputs = true ->
    run_inputs w inputs = Some (w', evs) ->
    sent evs = [] /\ ws (service w') = None.
Proof.
  induction inputs as [|i rest IH]; intros w w' evs Hq Hn Hi Hr; cbn in Hr.
  - inversion Hr; subst. auto.
  - cbn [forallb] in Hi. apply andb_prop in Hi. destruct Hi as [Hi Hrest].
    apply negb_true_iff in Hi.
    destruct (step w i) as [[w1 evs1]|] eqn:Hs; [|discriminate].
    destruct (run_inputs w1 rest) as [[w2 evs2]|] eqn:Hr2; [|discriminate].
    inversion Hr; subst.
    destruct (step_guarded w w1 i evs1 Hq Hs) as [Hq1 Hw].
    pose proof (step_stays_disconnected w w1 i evs1 Hn Hi Hs) as Hn1.
    destruct (IH w1 w' evs2 Hq1 Hn1 Hrest Hr2) as [H1 H2].
    split; [|exact H2]. rewrite sent_app, H1, app_nil_r. apply Hw.
    unfold ws_open. rewrite Hn1. reflexivity.
Qed.

(** After [disconnect()] nothing more is written to the socket until
    [connect] is called again: frames captured, texts sent and function
    handlers that settle afterwards all find the socket gone, and no socket
    event can bring it back. *)
Theorem nothing_written_after_disconnect (before after : list Input)
    (w w' : World) (evs0 evs : list Event) :
  run_inputs initial_world before = Some (w, evs0) ->
  forallb (fun i => negb (is_connect i)) after = true ->
  run_inputs w (CallDisconnect :: after) = Some (w', evs) ->
  sent evs = [] /\ isConnected (service w') = false /\ ws (service w') = None.
Proof.
  intros Hb Ha Hr.
  assert (Hq : Forall guarded (tasks w)).
  { apply (run_inputs_guarded before initial_world w evs0); [constructor|exact Hb]. }
  cbn [run_inputs step] in Hr.
  destruct (run_inputs (with_service w (disconnect (service w))) after)
    as [[w2 evs2]|] eqn:Hr2; [|discriminate].
  injection Hr as E1 E2. cbn [app] in E2. subst w2 evs2.
  destruct (run_inputs_disconnected after (with_service w (disconnect (service w)))
              w' evs Hq) as [H1 H2]; [| exact Ha | exact Hr2 |].
  - cbn [service with_service]. unfold disconnect.
    destruct (ws (service w)) eqn:E; [reflexivity|exact E].
  - split; [exact H1|]. split; [|exact H2].
    unfold isConnected, ws_open. rewrite H2. reflexivity.
Qed.

Lemma nothing_written_after_disconnect_witness :
  let after := [Resume 0 (Fulfilled JNull); CaptureFrame [1; 2]%Z; CallSendText "hi";
                Resume 0 (Fulfilled JNull); Resume 0 (Fulfilled JNull);
                Resume 0 (Fulfilled JNull); Resume 0 (Fulfilled JNull)] in
  let w := world_after initial_world call_in_flight in
  let w' := world_after w (CallDisconnect :: after) in
  let evs := events_after w (CallDisconnect :: after) in
  run_inputs initial_world call_in_flight
  = Some (w, events_after initial_world call_in_flight)
  /\ run_inputs w (CallDisconnect :: after) = Some (w', evs)
  /\ evs = [ErrorReported (ErrorObj "Not connected to Gemini")]
  /\ sent evs = [] /\ isConnected (service w') = false /\ ws (service w') = None.
Proof.
  cbv zeta.
  split; [vm_compute; reflexivity|]. split; [vm_compute; reflexivity|].
  split; [vm_compute; reflexivity|].
  apply (nothing_written_after_disconnect call_in_flight
           [Resume 0 (Fulfilled JNull); CaptureFrame [1; 2]%Z; CallSendText "hi";
            Resume 0 (Fulfilled JNull); Resume 0 (Fulfilled JNull);
            Resume 0 (Fulfilled JNull); Resume 0 (Fulfilled JNull)]
           (world_after initial_world call_in_flight)
           (world_after (world_after initial_world call_in_flight)
              [CallDisconnect; Resume 0 (Fulfilled JNull); CaptureFrame [1; 2]%Z;
               CallSendText "hi";
               Resume 0 (Fulfilled JNull); Resume 0 (Fulfilled JNull);
               Resume 0 (Fulfilled JNull); Resume 0 (Fulfilled JNull)])
           (events_after initial_world call_in_flight));
    vm_compute; reflexivity.
Defined.

End SessionFacts.

(* ================================================================== *)
(** * The audio service as a whole: properties *)
(* ================================================================== *)

Module LiveKitFacts.
Import LiveKit.
Local Open Scope Q_scope.

(** When the user starts to speak the assistant's audio is cut: a frame that
    is active after an inactive one stops every scheduled source, empties the
    schedule and resets the watermark.  Any other frame, silent or in the
    middle of speech, leaves playback as it is, so audio that arrives while
    the user keeps speaking is played.  Either way the frame itself is still
    forwarded. *)
Theorem speech_onset_interrupts_playback (svc : LiveKitService) (t : Q)
    (wasActive : bool) (inputData : VAD.Frame) :
  VAD.wasActive (capture svc) = Some wasActive ->
  VAD.onVoiceActivityCallback (capture svc) = true ->
  VAD.onAudioDataCallback (capture svc) = true ->
  let onset :=
    VAD.isActive (VAD.voiceActivityThreshold (capture svc)) inputData
    && negb wasActive in
  playback (fst (onaudioprocess svc t inputData))
  = (if onset then Playback.interruptAudio (playback svc) t else playback svc)
  /\ (onset = true ->
      Playback.scheduledSources (playback (fst (onaudioprocess svc t inputData))) = []
      /\ forall ref n,
           In ref (Playback.scheduledSources (playback svc)) ->
           nth_error (Playback.nodes (playback svc)) ref = Some n ->
           nth_error (Playback.nodes (playback (fst (onaudioprocess svc t inputData)))) ref
           = Some (Playback.stopped_copy n))
  /\ VAD.audio_events (snd (onaudioprocess svc t inputData))
     = [PCM.floatToPCM16 inputData].
Proof.
  intros Hp Hv Ha onset.
  assert (E : playback (fst (onaudioprocess svc t inputData))
              = (if onset then Playback.interruptAudio (playback svc) t
                 else playback svc)
              /\ VAD.audio_events (snd (onaudioprocess svc t inputData))
                 = [PCM.floatToPCM16 inputData]).
  { subst onset. unfold onaudioprocess, VAD.onaudioprocess, VAD.onaudioprocess_body.
    rewrite Hp, Hv, Ha. cbn [andb fst snd].
    destruct (VAD.isActive (VAD.voiceActivityThreshold (capture svc)) inputData),
      wasActive; cbn; split; reflexivity. }
  destruct E as [E1 E2]. split; [exact E1|]. split; [|exact E2].
  intros Ho. rewrite E1, Ho. split; [reflexivity|].
  intros ref n Hin Hn. cbn [Playback.interruptAudio Playback.nodes].
  rewrite PlaybackFacts.stop_all_nth, Hn. cbn [option_map].
  assert (Hex : existsb (Nat.eqb ref) (Playback.scheduledSources (playback svc)) = true).
  { apply existsb_exists. exists ref. split; [exact Hin|apply Nat.eqb_refl]. }
  rewrite Hex. reflexivity.
Qed.

Lemma speech_onset_interrupts_playback_witness :
  let svc := example_service in
  let inputData := [0.5; -0.5] in
  let onset :=
    VAD.isActive (VAD.voiceActivityThreshold (capture svc)) inputData
    && negb false in
  playback (fst (onaudioprocess svc 1 inputData))
  = (if onset then Playback.interruptAudio (playback svc) 1 else playback svc)
  /\ (onset = true ->
      Playback.scheduledSources (playback (fst (onaudioprocess svc 1 inputData))) = []
      /\ forall ref n,
           In ref (Playback.scheduledSources (playback svc)) ->
           nth_error (Playback.nodes (playback svc)) ref = Some n ->
           nth_error (Playback.nodes (playback (fst (onaudioprocess svc 1 inputData)))) ref
           = Some (Playback.stopped_copy n))
  /\ VAD.audio_events (snd (onaudioprocess svc 1 inputData))
     = [PCM.floatToPCM16 inputData].
Proof.
  apply (speech_onset_interrupts_playback example_service 1 false [0.5; -0.5]);
    reflexivity.
Defined.

(** [disconnect()] leaves nothing of the session behind in the scheduler:
    every scheduled source is stopped, the schedule is empty, no further
    captured frame reaches the audio callback, and the first frame played
    afterwards starts at the clock reading of its own call, whatever the
    watermark was.  The analyser it hands out is not cleared. *)
Theorem disconnect_resets_audio (svc : LiveKitService) (t t' : Q)
    (audioData : list Z) (frames : list VAD.Frame) :
  audioData <> [] ->
  let svc' := disconnect svc t in
  Playback.scheduledSources (playback svc') = []
  /\ (forall ref n,
        In ref (Playback.scheduledSources (playback svc)) ->
        nth_error (Playback.nodes (playback svc)) ref = Some n ->
        nth_error (Playback.nodes (playback svc')) ref = Some (Playback.stopped_copy n))
  /\ VAD.audio_events (snd (VAD.capture_frames (capture svc') frames)) = []
  /\ (exists start, Playback.scheduled_start (playback svc') t' audioData = Some start
                    /\ start == t')
  /\ getAudioAnalyser svc' = getAudioAnalyser svc.
Proof.
  intros Ha svc'. subst svc'. unfold disconnect.
  cbn [playback capture Playback.scheduledSources Playback.nodes Playback.interruptAudio
       Playback.playbackAnalyser getAudioAnalyser].
  split; [reflexivity|]. split; [|split; [|split; [|reflexivity]]].
  - intros ref n Hin Hn. rewrite PlaybackFacts.stop_all_nth, Hn. cbn [option_map].
    assert (Hex : existsb (Nat.eqb ref) (Playback.scheduledSources (playback svc)) = true).
    { apply existsb_exists. exists ref. split; [exact Hin|apply Nat.eqb_refl]. }
    rewrite Hex. reflexivity.
  - apply VADFacts.capture_frames_no_audio. reflexivity.
  - rewrite (PlaybackFacts.scheduled_start_nonempty _ t' audioData Ha).
    eexists. split; [reflexivity|].
    unfold Playback.ensure_context.
    cbn [Playback.playbackAudioContext Playback.nextStartTime].
    apply Q.max_id.
Qed.

Lemma disconnect_resets_audio_witness :
  let svc := example_service in
  let svc' := disconnect svc 5 in
  Playback.scheduledSources (playback svc') = []
  /\ (forall ref n,
        In ref (Playback.scheduledSources (playback svc)) ->
        nth_error (Playback.nodes (playback svc)) ref = Some n ->
        nth_error (Playback.nodes (playback svc')) ref = Some (Playback.stopped_copy n))
  /\ VAD.audio_events (snd (VAD.capture_frames (capture svc') [[0.5]])) = []
  /\ (exists start, Playback.scheduled_start (playback svc') 0 [7]%Z = Some start
                    /\ start == 0)
  /\ getAudioAnalyser svc' = getAudioAnalyser svc.
Proof.
  apply (disconnect_resets_audio example_service 5 0 [7]%Z [[0.5]]). discriminate.
Defined.

End LiveKitFacts.

(* ================================================================== *)
(** * Function router: properties *)
(* ================================================================== *)

Module RouterFacts.
Import Gemini Router.
Local Open Scope string_scope.
Local Open Scope list_scope.
Local Open Scope Z_scope.

(** ** Reasoning about computations *)

Lemma ends_run {A : Type} (Q : A -> Prop) (E : Thrown -> Prop) (p : Tool A) :
  ends Q E p ->
  forall o reads asked,
    match snd (run p o reads asked) with
    | Done (Fulfilled a) => Q a
    | Done (Rejected e) => E e
    | Pending => True
    end.
Proof.
  induction p as [a|e|k IH|R req k IH]; cbn [ends run]; intros H o reads asked.
  - exact H.
  - exact H.
  - apply IH, H.
  - destruct (answer o R req asked) as [ans|]; [|exact I].
    specialize (IH ans (H ans) o reads (S asked)).
    destruct (run (k ans) o reads (S asked)) as [xs st]. exact IH.
Qed.

Lemma ends_then {A B : Type} (Q' : A -> Prop) (Q : B -> Prop) (E : Thrown -> Prop)
    (p : Tool A) (f : A -> Tool B) :
  ends Q' E p -> (forall a, Q' a -> ends Q E (f a)) -> ends Q E (then_ p f).
Proof.
  intros Hp Hf. induction p as [a|e|k IH|R req k IH]; cbn [ends then_] in *; auto.
Qed.

Lemma ends_catch {A : Type} (Q : A -> Prop) (E' E : Thrown -> Prop)
    (p : Tool A) (h : Thrown -> Tool A) :
  ends Q E' p -> (forall e, E' e -> ends Q E (h e)) -> ends Q E (catch p h).
Proof.
  intros Hp Hh. induction p as [a|e|k IH|R req k IH]; cbn [ends catch] in *; auto.
Qed.

Lemma ends_weaken {A : Type} (Q Q' : A -> Prop) (E E' : Thrown -> Prop) (p : Tool A) :
  (forall a, Q a -> Q' a) -> (forall e, E e -> E' e) -> ends Q E p -> ends Q' E' p.
Proof.
  intros HQ HE. induction p as [a|e|k IH|R req k IH]; cbn [ends]; auto.
Qed.

Lemma ends_any {A : Type} (p : Tool A) : ends (fun _ => True) (fun _ => True) p.
Proof. induction p as [a|e|k IH|R req k IH]; cbn [ends]; auto. Qed.

Lemma run_settles {A : Type} (p : Tool A) (o : Oracle) :
  (forall R (req : Request R) n, answer o R req n <> None) ->
  forall reads asked, snd (run p o reads asked) <> Pending.
Proof.
  intros Hall. induction p as [a|e|k IH|R req k IH]; intros reads asked; cbn [run].
  - discriminate.
  - discriminate.
  - apply IH.
  - destruct (answer o R req asked) as [ans|] eqn:E; [|exfalso; exact (Hall R req asked E)].
    specialize (IH ans reads (S asked)).
    destruct (run (k ans) o reads (S asked)) as [xs st]. exact IH.
Qed.

Lemma asks_run {A : Type} (ok : forall R, Request R -> bool) (p : Tool A) :
  asks ok p ->
  forall o reads asked, forallb (exchange_ok ok) (fst (run p o reads asked)) = true.
Proof.
  induction p as [a|e|k IH|R req k IH]; cbn [asks run]; intros H o reads asked.
  - reflexivity.
  - reflexivity.
  - apply IH, H.
  - destruct H as [H1 H2]. destruct (answer o R req asked) as [ans|].
    + specialize (IH ans (H2 ans) o reads (S asked)).
      destruct (run (k ans) o reads (S asked)) as [xs st]. cbn [fst forallb exchange_ok] in *.
      rewrite H1, IH. reflexivity.
    + cbn. rewrite H1. reflexivity.
Qed.

Lemma asks_then {A B : Type} (ok : forall R, Request R -> bool)
    (p : Tool A) (f : A -> Tool B) :
  asks ok p -> (forall a, asks ok (f a)) -> asks ok (then_ p f).
Proof.
  intros Hp Hf. induction p as [a|e|k IH|R req k IH]; cbn [asks then_] in *; auto.
  destruct Hp as [H1 H2]. split; auto.
Qed.

Lemma asks_catch {A : Type} (ok : forall R, Request R -> bool)
    (p : Tool A) (h : Thrown -> Tool A) :
  asks ok p -> (forall e, asks ok (h e)) -> asks ok (catch p h).
Proof.
  intros Hp Hh. induction p as [a|e|k IH|R req k IH]; cbn [asks catch] in *; auto.
  destruct Hp as [H1 H2]. split; auto.
Qed.

Lemma fail_fast_run (p : Tool Json) :
  fail_fast p ->
  forall o reads asked,
    rejection_is_last (fst (run p o reads asked)) = true
    /\ (existsb is_rejected (fst (run p o reads asked)) = true ->
        exists message,
          snd (run p o reads asked) = Done (Fulfilled (error_result message))).
Proof.
  induction p as [a|e|k IH|R req k IH]; cbn [fail_fast run]; intros H o reads asked.
  - split; [reflexivity|discriminate].
  - split; [reflexivity|discriminate].
  - apply IH, H.
  - destruct H as [H1 H2]. destruct (answer o R req asked) as [[r|e]|].
    + specialize (IH (Fulfilled r) (H2 r) o reads (S asked)).
      destruct (run (k (Fulfilled r)) o reads (S asked)) as [xs st].
      cbn [fst snd] in *. destruct IH as [IH1 IH2]. split.
      * cbn [rejection_is_last]. destruct xs as [|x xs']; [reflexivity|].
        cbn [is_rejected negb andb]. exact IH1.
      * cbn [existsb is_rejected orb]. exact IH2.
    + destruct (H1 e) as [message Hk]. rewrite Hk. cbn.
      split; [reflexivity|]. intros _. exists message. reflexivity.
    + cbn. split; [reflexivity|discriminate].
Qed.

(** Case analysis on whatever a goal about a handler still branches on. *)
Ltac branch :=
  match goal with
  | |- context [match ?x with _ => _ end] =>
      lazymatch x with
      | context [match _ with _ => _ end] => fail
      | _ => destruct x eqn:?
      end
  end.

Ltac walk :=
  repeat first
    [ progress cbn
    | progress intros
    | exact I
    | reflexivity
    | discriminate
    | split
    | branch ].

Section Runtime.

Variable type_error : string -> option Json -> string.
Variable to_string : option Json -> string.
Variable trim : string -> string.

(** ** The router never throws *)

(** [routeFunctionCall] never rejects: whatever the call, the settings and
    the behaviour of the tools, its promise is fulfilled or still pending;
    it is fulfilled whenever every request it makes is answered. *)
Theorem routeFunctionCall_never_rejects (call : FunctionCall) (settings : Settings)
    (o : Oracle) (reads asked : nat) :
  (forall e, snd (run (routeFunctionCall type_error to_string trim call settings)
                      o reads asked) <> Done (Rejected e))
  /\ ((forall R (req : Request R) n, answer o R req n <> None) ->
      exists result,
        snd (run (routeFunctionCall type_error to_string trim call settings)
                 o reads asked)
        = Done (Fulfilled result)).
Proof.
  assert (H : ends (fun _ => True) (fun _ => False)
                (routeFunctionCall type_error to_string trim call settings)).
  { unfold routeFunctionCall.
    apply ends_catch with (E' := fun _ => True); [apply ends_any|].
    intros e _. exact I. }
  pose proof (ends_run _ _ _ H o reads asked) as Hr.
  split.
  - intros e He. rewrite He in Hr. exact Hr.
  - intros Hall.
    pose proof (run_settles (routeFunctionCall type_error to_string trim call settings)
                  o Hall reads asked) as Hp.
    destruct (snd (run (routeFunctionCall type_error to_string trim call settings)
                       o reads asked)) as [[result|e]|].
    + exists result. reflexivity.
    + contradiction.
    + contradiction.
Qed.

(** A call of a function the router does not know is answered with an error
    that names it, and no tool is called. *)
Theorem unknown_function_reported (call : FunctionCall) (settings : Settings)
    (o : Oracle) (reads asked : nat) :
  ~ In (name call) ["web_search"; "get_weather"; "send_email"; "spotify_control"] ->
  run (routeFunctionCall type_error to_string trim call settings) o reads asked
  = ([], Done (Fulfilled (error_result ("Unknown function: " ++ name call)))).
Proof.
  intros H. unfold routeFunctionCall.
  assert (E : forall s, In s ["web_search"; "get_weather"; "send_email";
                              "spotify_control"] ->
                        String.eqb (name call) s = false).
  { intros s Hs. apply String.eqb_neq. intros Heq. apply H. rewrite Heq. exact Hs. }
  rewrite !E by (cbn; auto 6). reflexivity.
Qed.

(** ** Failing tools *)

Lemma fail_fast_route (call : FunctionCall) (settings : Settings) :
  fail_fast (routeFunctionCall type_error to_string trim call settings).
Proof.
  unfold routeFunctionCall, handleWebSearch, handleGetWeather, handleSendEmail,
    handleSpotifyControl, weather_location, spotify_action, destructure, await.
  walk; eexists; reflexivity.
Qed.

(** A tool that fails ends the routing: when a request is rejected, no
    further request is made and the result is an error object.  (A failed
    request is thus always the last one, and it is never passed over.) *)
Theorem failed_request_ends_routing (call : FunctionCall) (settings : Settings)
    (o : Oracle) (reads asked : nat) :
  rejection_is_last
    (fst (run (routeFunctionCall type_error to_string trim call settings)
              o reads asked)) = true
  /\ (existsb is_rejected
        (fst (run (routeFunctionCall type_error to_string trim call settings)
                  o reads asked)) = true ->
      exists message,
        snd (run (routeFunctionCall type_error to_string trim call settings)
                 o reads asked)
        = Done (Fulfilled (error_result message))).
Proof. apply fail_fast_run, fail_fast_route. Qed.

(** ** Tools that are not configured *)

(** A call of a tool the settings do not configure (no weather key, an
    incomplete SMTP configuration, Spotify not connected or without a
    token) makes no request at all and is answered with an error object. *)
Theorem unconfigured_tool_makes_no_request (call : FunctionCall)
    (settings : Settings) (o : Oracle) (reads asked : nat) :
  unconfigured call settings = true ->
  fst (run (routeFunctionCall type_error to_string trim call settings) o reads asked)
  = []
  /\ exists message,
       snd (run (routeFunctionCall type_error to_string trim call settings)
                o reads asked)
       = Done (Fulfilled (error_result message)).
Proof.
  unfold unconfigured, routeFunctionCall.
  destruct (String.eqb (name call) "web_search") eqn:E1.
  { apply String.eqb_eq in E1. rewrite E1. cbn. discriminate. }
  destruct (String.eqb (name call) "get_weather") eqn:E2.
  { apply String.eqb_eq in E2. rewrite E2. cbn [String.eqb Ascii.eqb Bool.eqb andb orb].
    rewrite orb_false_r. unfold handleGetWeather, destructure, truthy_string.
    destruct (args call) as [[| | | | |]|], (weatherApiKey settings) as [key|];
      cbn; try (split; [reflexivity|eexists; reflexivity]);
      destruct (String.eqb key ""); cbn; try discriminate;
      intros _; (split; [reflexivity|eexists; reflexivity]). }
  destruct (String.eqb (name call) "send_email") eqn:E3.
  { apply String.eqb_eq in E3. rewrite E3. cbn [String.eqb Ascii.eqb Bool.eqb andb orb].
    rewrite orb_false_r. unfold handleSendEmail, destructure. intros H. rewrite H.
    destruct (args call) as [[| | | | |]|]; cbn;
      (split; [reflexivity|eexists; reflexivity]). }
  destruct (String.eqb (name call) "spotify_control") eqn:E4.
  { cbn [andb orb]. unfold handleSpotifyControl, destructure, truthy_string.
    destruct (args call) as [[| | | | |]|], (spotifyAccessToken settings) as [token|],
      (spotifyConnected settings);
      cbn; try (split; [reflexivity|eexists; reflexivity]);
      destruct (String.eqb token ""); cbn; try discriminate;
      intros _; (split; [reflexivity|eexists; reflexivity]). }
  cbn. discriminate.
Qed.

(** ** Location of a weather request *)

Lemma asks_no_geolocation (xs : list Exchange) :
  forallb (exchange_ok request_not_geolocation) xs = true ->
  existsb is_geolocation xs = false.
Proof.
  induction xs as [|[R req ans] rest IH]; [reflexivity|].
  cbn [forallb existsb exchange_ok is_geolocation]. unfold request_not_geolocation at 1.
  intros H. apply andb_prop in H. destruct H as [H1 H2].
  apply negb_true_iff in H1. rewrite H1, (IH H2). reflexivity.
Qed.

Lemma other_handlers_no_geolocation (call : FunctionCall) (settings : Settings) :
  asks request_not_geolocation (handleWebSearch type_error call settings)
  /\ asks request_not_geolocation (handleSendEmail type_error call settings)
  /\ asks request_not_geolocation
       (handleSpotifyControl type_error to_string call settings).
Proof.
  unfold handleWebSearch, handleSendEmail, handleSpotifyControl, spotify_action,
    destructure, await.
  split; [|split]; walk.
Qed.

Lemma weather_no_geolocation (call : FunctionCall) (settings : Settings) (v : Json) :
  args call = Some v ->
  (defined (property v "lat") && defined (property v "lon")
   || truthy (property v "city")
   || hasManualCity trim settings
   || hasManualCoords settings) = true ->
  asks request_not_geolocation (handleGetWeather type_error trim call settings).
Proof.
  intros Ha Hc. unfold handleGetWeather, destructure, weather_location, await.
  rewrite Ha.
  destruct v; try exact I; cbn [then_];
    destruct (weatherApiKey settings) as [key|]; try exact I;
    destruct (String.eqb key ""); try exact I;
    destruct (defined (property _ "lat") && defined (property _ "lon"));
    try (walk; fail);
    destruct (truthy (property _ "city")); try (walk; fail);
    destruct (hasManualCity trim settings); try (walk; fail);
    destruct (hasManualCoords settings); try (walk; fail);
    discriminate Hc.
Qed.

(** The location is looked up by IP address only as a last resort: a
    request to the geolocation service is made only for a weather call
    whose arguments give neither both coordinates nor a city, with settings
    that hold neither a city nor coordinates. *)
Theorem ip_geolocation_is_last_resort (call : FunctionCall) (settings : Settings)
    (o : Oracle) (reads asked : nat) :
  existsb is_geolocation
    (fst (run (routeFunctionCall type_error to_string trim call settings)
              o reads asked)) = true ->
  name call = "get_weather"
  /\ exists v,
       args call = Some v
       /\ (property v "lat" = None \/ property v "lon" = None)
       /\ truthy (property v "city") = false
       /\ hasManualCity trim settings = false
       /\ hasManualCoords settings = false.
Proof.
  intros H.
  assert (Hno : forall p : Tool Json,
             asks request_not_geolocation p ->
             existsb is_geolocation
               (fst (run (catch p (fun error =>
                            Return (error_result
                              (error_message "Function execution failed" error))))
                         o reads asked)) = false).
  { intros p Hp. apply asks_no_geolocation, asks_run, asks_catch; [exact Hp|].
    intros e. exact I. }
  destruct (other_handlers_no_geolocation call settings) as (Hw & He & Hs).
  unfold routeFunctionCall in H.
  destruct (String.eqb (name call) "web_search").
  { rewrite (Hno _ Hw) in H. discriminate H. }
  destruct (String.eqb (name call) "get_weather") eqn:E2.
  2:{ destruct (String.eqb (name call) "send_email").
      { rewrite (Hno _ He) in H. discriminate H. }
      destruct (String.eqb (name call) "spotify_control").
      { rewrite (Hno _ Hs) in H. discriminate H. }
      cbn in H. discriminate H. }
  apply String.eqb_eq in E2. split; [exact E2|].
  destruct (args call) as [v|] eqn:Ha.
  2:{ unfold handleGetWeather, destructure in H. rewrite Ha in H. cbn in H.
      discriminate H. }
  exists v. split; [reflexivity|].
  destruct (defined (property v "lat") && defined (property v "lon")
            || truthy (property v "city")
            || hasManualCity trim settings
            || hasManualCoords settings) eqn:Hc.
  { rewrite (Hno _ (weather_no_geolocation call settings v Ha Hc)) in H.
    discriminate H. }
  apply orb_false_elim in Hc. destruct Hc as [Hc H4].
  apply orb_false_elim in Hc. destruct Hc as [Hc H3].
  apply orb_false_elim in Hc. destruct Hc as [H1 H2].
  split; [|auto].
  apply andb_false_elim in H1. destruct H1 as [H1|H1]; [left|right];
    destruct (property v _); [discriminate H1|reflexivity|discriminate H1|reflexivity].
Qed.

(** ** The Spotify access token *)

Lemma spotify_action_token (action query uri volume : option Json)
    (token : string) (refreshed : option (string * Z)) :
  asks (request_has_token token)
       (catch (spotify_action to_string action query uri volume token refreshed)
              (fun error =>
                 Return (error_result
                           (error_message "Spotify control failed" error)))).
Proof.
  unfold spotify_action, await, request_has_token.
  walk; apply String.eqb_refl.
Qed.

Lemma has_token_exchange (token : string) (x : Exchange) :
  exchange_ok (request_has_token token) x = true ->
  token_of x = Some token /\ is_refresh x = false.
Proof.
  destruct x as [R req ans]. cbn [exchange_ok token_of is_refresh].
  unfold request_has_token.
  destruct req; cbn; try discriminate; intros H; apply String.eqb_eq in H;
    subst; auto.
Qed.

Lemma has_token_all (token : string) (xs : list Exchange) :
  forallb (exchange_ok (request_has_token token)) xs = true ->
  Forall (fun x => token_of x = Some token) xs.
Proof.
  induction xs as [|x rest IH]; cbn [forallb]; intros H; constructor.
  - apply andb_prop in H. apply (has_token_exchange token x), H.
  - apply andb_prop in H. apply IH, H.
Qed.

Lemma stale_token_run (token : string) (p : Tool Json) (o : Oracle)
    (reads asked : nat) :
  asks (request_has_token token) p ->
  match fst (run p o reads asked) with
  | [] => True
  | first :: rest =>
      if is_refresh first then
        match refreshed_by first with
        | Some r => Forall (fun x => token_of x = Some (accessToken r)) rest
        | None => rest = []
        end
      else Forall (fun x => token_of x = Some token) (first :: rest)
  end.
Proof.
  intros Hp. pose proof (asks_run _ p Hp o reads asked) as H.
  destruct (fst (run p o reads asked)) as [|first rest]; [exact I|].
  pose proof (has_token_all token _ H) as Hall.
  cbn [forallb] in H. apply andb_prop in H. destruct H as [H1 _].
  destruct (has_token_exchange token first H1) as [_ Hr]. rewrite Hr. exact Hall.
Qed.

(** Every Spotify request carries the current access token: the one of
    the settings as long as no refresh is made, and the refreshed one, never
    the stale one, in every request after a refresh.  A refresh is the
    first request if it is made at all, and when it fails nothing else is
    requested. *)
Theorem spotify_requests_use_current_token (call : FunctionCall)
    (settings : Settings) (stale : string) (o : Oracle) (reads asked : nat) :
  spotifyAccessToken settings = Some stale ->
  match fst (run (handleSpotifyControl type_error to_string call settings)
                 o reads asked) with
  | [] => True
  | first :: rest =>
      if is_refresh first then
        match refreshed_by first with
        | Some r => Forall (fun x => token_of x = Some (accessToken r)) rest
        | None => rest = []
        end
      else Forall (fun x => token_of x = Some stale) (first :: rest)
  end.
Proof.
  intros Hs. unfold handleSpotifyControl, destructure. rewrite Hs.
  pose proof (fun n action query uri volume token refreshed =>
                stale_token_run token _ o n asked
                  (spotify_action_token action query uri volume token refreshed))
    as Hact.
  assert (Hfresh : forall action query uri volume token refreshed a,
             Forall (fun x => token_of x = Some token)
               (fst (run (catch (spotify_action to_string action query uri volume
                                   token refreshed)
                                (fun error =>
                                   Return (error_result
                                     (error_message "Spotify control failed" error))))
                         o (S (S reads)) a))).
  { intros. apply has_token_all, asks_run, spotify_action_token. }
  destruct (args call) as [[| | | | |]|]; cbn [then_ run fst]; try exact I;
    (destruct (negb (spotifyConnected settings) || String.eqb stale "");
     [exact I|]);
    (destruct (spotifyTokenExpiry settings) as [expiry|]; [|apply Hact]);
    (destruct (expiry =? 0); [apply Hact|]);
    cbn [run];
    (destruct (clock o reads >=? expiry - 300000); [|apply Hact]);
    (destruct (spotifyRefreshToken settings) as [refreshToken|]; [|exact I]);
    (destruct (String.eqb refreshToken ""); [exact I|]);
    cbn [run];
    (destruct (answer o Refreshed (refreshAccessToken refreshToken) asked)
       as [[r|e]|]; [|reflexivity|reflexivity]);
    cbn [run];
    match goal with
    | |- context [run ?p o (S (S reads)) (S asked)] =>
        pose proof (Hfresh _ _ _ _ _ _ (S asked)
                    : Forall _ (fst (run p o (S (S reads)) (S asked)))) as Hf;
        destruct (run p o (S (S reads)) (S asked)) as [xs st]
    end;
    cbn [fst is_refresh request_is_refresh refreshed_by]; exact Hf.
Qed.

(** ** The handler of the index page *)

Lemma route_token_shape (call : FunctionCall) (settings : Settings) :
  ends (fun result => token_shape result = true) (fun _ => True)
       (routeFunctionCall type_error to_string trim call settings).
Proof.
  unfold routeFunctionCall, handleWebSearch, handleGetWeather, handleSendEmail,
    handleSpotifyControl, weather_location, spotify_action, destructure, await,
    token_shape.
  walk.
Qed.

Lemma lookup_filter (key other : string) (fields : list (string * Json)) :
  lookup key (filter (fun kv => negb (String.eqb (fst kv) other)) fields)
  = if String.eqb key other then None else lookup key fields.
Proof.
  induction fields as [|[k v] rest IH]; cbn [filter lookup fst].
  - destruct (String.eqb key other); reflexivity.
  - destruct (String.eqb k other) eqn:Eo; cbn [negb lookup].
    + rewrite IH. destruct (String.eqb key other) eqn:Ek; [reflexivity|].
      destruct (String.eqb k key) eqn:Ekk; [|reflexivity].
      apply String.eqb_eq in Ekk, Eo. subst.
      rewrite String.eqb_refl in Ek. discriminate Ek.
    + rewrite IH. destruct (String.eqb k key) eqn:Ekk; [|reflexivity].
      apply String.eqb_eq in Ekk. subst. rewrite Eo. reflexivity.
Qed.

Lemma onFunctionCall_keeps_token (call : FunctionCall) (settings : Settings) :
  ends keeps_token (fun _ => True)
       (onFunctionCall type_error to_string trim call settings).
Proof.
  unfold onFunctionCall.
  apply ends_catch with (E' := fun _ => True); [|intros e _; exact I].
  apply ends_then with (Q' := fun result => token_shape result = true);
    [apply route_token_shape|].
  intros result Hshape. unfold token_shape in Hshape. unfold member, keeps_token.
  destruct result as [|b|n|s|items|fields]; cbn in *; try exact I; try discriminate.
  rewrite andb_true_r in Hshape.
  destruct (lookup "_tokenRefreshed" fields) as [[|[|]| | | |]|] eqn:E1;
    try discriminate Hshape; cbn.
  - destruct (lookup "_newAccessToken" fields) as [[| | |token| |]|] eqn:E2;
      try discriminate Hshape.
    destruct (lookup "_newTokenExpiry" fields) as [[| |expiry| | |]|] eqn:E3;
      try discriminate Hshape.
    cbn. destruct (String.eqb token "") eqn:Et; cbn.
    + rewrite E2. left. apply String.eqb_eq, Et.
    + destruct (expiry =? 0) eqn:Ee; cbn.
      * rewrite E2, E3. right. apply Z.eqb_eq in Ee. subst. reflexivity.
      * intros [[]|e]; cbn; [|exact I].
        rewrite !lookup_filter. cbn. exact I.
  - destruct (lookup "_newAccessToken" fields); [discriminate Hshape|exact I].
Qed.

(** The function handler of the index page never hands a refreshed access
    token to the model: in a result it returns, the token field is absent,
    unless the token is empty or its expiry is zero (the two cases the
    page's truthiness test lets through). *)
Theorem refreshed_token_not_returned (call : FunctionCall) (settings : Settings)
    (o : Oracle) (reads asked : nat) (result : Json) :
  snd (run (onFunctionCall type_error to_string trim call settings) o reads asked)
  = Done (Fulfilled result) ->
  keeps_token result.
Proof.
  intros H.
  pose proof (ends_run _ _ _ (onFunctionCall_keeps_token call settings) o reads asked)
    as Hr.
  rewrite H in Hr. exact Hr.
Qed.

End Runtime.

(** A search whose result cannot be played: the failed request is the last
    one and the answer is the error. *)
Example failed_play_is_reported :
  run (routeFunctionCall example_type_error example_to_string example_trim
         (spotify_call "search" [("query", JStr "song")]) empty_spotify_expiry)
      failing_oracle 0 0
  = ([Asked (search "stale" (JStr "song"))
        (Some (Fulfilled [{| it_name := "Song"; it_uri := "spotify:track:1";
                             it_artist := Some "Band" |}]));
      Asked (play "stale" (Some (JStr "spotify:track:1")))
        (Some (Rejected (ErrorObj "Failed to play: Unknown error")))],
     Done (Fulfilled (error_result "Failed to play: Unknown error"))).
Proof. reflexivity. Qed.

Lemma unconfigured_tool_makes_no_request_witness :
  fst (run (routeFunctionCall example_type_error example_to_string example_trim
              {| name := "get_weather"; args := Some (JObj [("city", JStr "Pune")]);
                 id := Some "c1" |} empty_settings) example_oracle 0 0)
  = []
  /\ exists message,
       snd (run (routeFunctionCall example_type_error example_to_string example_trim
                   {| name := "get_weather";
                      args := Some (JObj [("city", JStr "Pune")]);
                      id := Some "c1" |} empty_settings) example_oracle 0 0)
       = Done (Fulfilled (error_result message)).
Proof.
  apply (unconfigured_tool_makes_no_request example_type_error example_to_string
           example_trim
           {| name := "get_weather"; args := Some (JObj [("city", JStr "Pune")]);
              id := Some "c1" |} empty_settings example_oracle 0 0).
  reflexivity.
Defined.

Lemma unknown_function_reported_witness :
  run (routeFunctionCall example_type_error example_to_string example_trim
         {| name := "get_time"; args := Some (JObj []); id := Some "c1" |}
         spotify_settings) example_oracle 0 0
  = ([], Done (Fulfilled (error_result ("Unknown function: " ++ "get_time")))).
Proof.
  apply (unknown_function_reported example_type_error example_to_string example_trim
           {| name := "get_time"; args := Some (JObj []); id := Some "c1" |}
           spotify_settings example_oracle 0 0).
  cbn. intros [H|[H|[H|[H|[]]]]]; discriminate H.
Defined.

Lemma ip_geolocation_is_last_resort_witness :
  existsb is_geolocation
    (fst (run (routeFunctionCall example_type_error example_to_string example_trim
                 weather_call empty_spotify_expiry) example_oracle 0 0)) = true
  /\ name weather_call = "get_weather"
  /\ exists v,
       args weather_call = Some v
       /\ (property v "lat" = None \/ property v "lon" = None)
       /\ truthy (property v "city") = false
       /\ hasManualCity example_trim empty_spotify_expiry = false
       /\ hasManualCoords empty_spotify_expiry = false.
Proof.
  split; [reflexivity|].
  apply (ip_geolocation_is_last_resort example_type_error example_to_string
           example_trim weather_call empty_spotify_expiry example_oracle 0 0).
  reflexivity.
Defined.

Lemma spotify_requests_use_current_token_witness :
  spotifyAccessToken spotify_settings = Some "stale"
  /\ match fst (run (handleSpotifyControl example_type_error example_to_string
                       (spotify_call "search" [("query", JStr "song")])
                       spotify_settings) example_oracle 0 0) with
     | [] => True
     | first :: rest =>
         if is_refresh first then
           match refreshed_by first with
           | Some r => Forall (fun x => token_of x = Some (accessToken r)) rest
           | None => rest = []
           end
         else Forall (fun x => token_of x = Some "stale") (first :: rest)
     end.
Proof.
  split; [reflexivity|].
  apply (spotify_requests_use_current_token example_type_error example_to_string
           (spotify_call "search" [("query", JStr "song")])
           spotify_settings "stale" example_oracle 0 0).
  reflexivity.
Defined.

(** A call made when the token is about to expire: the token is refreshed,
    the search and the playback use the new token, the new token and its
    expiry are saved, and the result carries no token field. *)
Example refreshed_token_is_saved :
  run (onFunctionCall example_type_error example_to_string example_trim
         (spotify_call "search" [("query", JStr "song")]) spotify_settings)
      example_oracle 0 0
  = ([Asked (refreshAccessToken "refresh")
        (Some (Fulfilled {| accessToken := "fresh"; expiresIn := 3600 |}));
      Asked (search "fresh" (JStr "song"))
        (Some (Fulfilled [{| it_name := "Song"; it_uri := "spotify:track:1";
                             it_artist := Some "Band" |}]));
      Asked (play "fresh" (Some (JStr "spotify:track:1"))) (Some (Fulfilled tt));
      Asked (updateSettings spotify_settings (JStr "fresh") (JNum 4500000))
        (Some (Fulfilled tt))],
     Done (Fulfilled (JObj [("success", JBool true);
                            ("track", JStr "Song");
                            ("artist", JStr "Band");
                            ("message",
                             JStr ("Playing " ++ String (ascii_of_nat 34)
                                     ("Song" ++ String (ascii_of_nat 34)
                                        " by Band")))]))).
Proof. reflexivity. Qed.

Lemma refreshed_token_not_returned_witness :
  snd (run (onFunctionCall example_type_error example_to_string example_trim
              (spotify_call "pause" []) spotify_settings) example_oracle 0 0)
  = Done (Fulfilled (JObj [("success", JBool true);
                           ("message", JStr "Playback paused")]))
  /\ keeps_token (JObj [("success", JBool true);
                        ("message", JStr "Playback paused")]).
Proof.
  split; [reflexivity|].
  apply (refreshed_token_not_returned example_type_error example_to_string
           example_trim (spotify_call "pause" []) spotify_settings example_oracle 0 0).
  reflexivity.
Defined.

End RouterFacts.
